(** * el_malloc: an explicit-list allocator, embedded and verified

    This development embeds [el_malloc.c] shallowly: the arena is a store of
    header structs, footer structs and block-list structs indexed by their
    address; every C function becomes a computation in a small state monad
    whose failures are the two ways the C program can fail to return (a
    dereference outside the mapped pages, or a loop/recursion that does not
    stop within the given fuel). *)

From stdpp Require Import base gmap list.
From Stdlib Require Import ZArith Lia.

Local Open Scope Z_scope.

#[local] Set Warnings "-clear-no-such-hyp".

(** ** Machine integers and pointers *)

(** [size_t] is 64 bits wide; sums and differences of sizes wrap around. *)
Definition SIZE_MODULUS : Z := 18446744073709551616.

Definition wrap (z : Z) : Z := z mod SIZE_MODULUS.

Definition NULL : Z := 0.

(** Modelled from the spec: the header [el_malloc.h] is not among the sources.
    The pointer macros do byte arithmetic on the address; the address is a
    64-bit quantity, so the result wraps like every other [size_t]. *)
Definition PTR_PLUS_BYTES (ptr off : Z) : Z := wrap (ptr + off).
Definition PTR_MINUS_BYTES (ptr off : Z) : Z := wrap (ptr - off).

(** ** Layout constants *)

(** Modelled from the spec: [el_malloc.h] is not among the sources.  A header
    holds a [size_t], a [char] state and two pointers (32 bytes on LP64), a
    footer holds one [size_t]; the overhead is "the space occupied by the
    header and footer". *)
Definition sizeof_blockhead : Z := 32.
Definition sizeof_blockfoot : Z := 8.
Definition EL_BLOCK_OVERHEAD : Z := sizeof_blockhead + sizeof_blockfoot.

(** Modelled from the spec: page size and the two fixed mapping addresses.
    The heap address is the one the comments of [el_print_blocklist] show. *)
Definition EL_PAGE_BYTES : Z := 4096.
Definition EL_HEAP_START_ADDRESS : Z := 0x600000000000.
Definition EL_CTL_START_ADDRESS : Z := 0x610000000000.

(** Modelled from the spec: the marker stored in the size of a sentinel, and
    the failure value of [mmap]. *)
Definition EL_UNINITIALIZED : Z := wrap (-1).
Definition MAP_FAILED : Z := wrap (-1).

(** ** Data model *)

(** The [state] byte of a header.  [EL_UNSET] stands for any byte that is none
    of the four named constants (memory that was never written). *)
Inductive el_state : Type :=
| EL_UNSET
| EL_AVAILABLE
| EL_USED
| EL_BEGIN_BLOCK
| EL_END_BLOCK.

#[global] Instance el_state_eq_dec : EqDecision el_state.
Proof. solve_decision. Defined.

Definition is_available (s : el_state) : bool :=
  match s with EL_AVAILABLE => true | _ => false end.

(** [el_blockhead_t] *)
Record el_blockhead_t : Type := BlockHead {
  h_size : Z;
  h_state : el_state;
  h_next : Z;
  h_prev : Z }.

#[global] Instance el_blockhead_inhabited : Inhabited el_blockhead_t :=
  populate (BlockHead 0 EL_UNSET NULL NULL).

Definition set_size (v : Z) (h : el_blockhead_t) : el_blockhead_t :=
  BlockHead v (h_state h) (h_next h) (h_prev h).
Definition set_state (v : el_state) (h : el_blockhead_t) : el_blockhead_t :=
  BlockHead (h_size h) v (h_next h) (h_prev h).
Definition set_next (v : Z) (h : el_blockhead_t) : el_blockhead_t :=
  BlockHead (h_size h) (h_state h) v (h_prev h).
Definition set_prev (v : Z) (h : el_blockhead_t) : el_blockhead_t :=
  BlockHead (h_size h) (h_state h) (h_next h) v.

(** [el_blocklist_t]; the two sentinel headers [beg_actual] and [end_actual]
    embedded in the struct live in the header store, at the addresses
    [beg_actual_of] and [end_actual_of]. *)
Record el_blocklist_t : Type := BlockList {
  l_beg : Z;
  l_end : Z;
  l_length : Z;
  l_bytes : Z }.

#[global] Instance el_blocklist_inhabited : Inhabited el_blocklist_t :=
  populate (BlockList NULL NULL 0 0).

Definition set_beg (v : Z) (l : el_blocklist_t) : el_blocklist_t :=
  BlockList v (l_end l) (l_length l) (l_bytes l).
Definition set_end (v : Z) (l : el_blocklist_t) : el_blocklist_t :=
  BlockList (l_beg l) v (l_length l) (l_bytes l).
Definition set_length (v : Z) (l : el_blocklist_t) : el_blocklist_t :=
  BlockList (l_beg l) (l_end l) v (l_bytes l).
Definition set_bytes (v : Z) (l : el_blocklist_t) : el_blocklist_t :=
  BlockList (l_beg l) (l_end l) (l_length l) v.

Definition beg_actual_of (list : Z) : Z := list.
Definition end_actual_of (list : Z) : Z := list + sizeof_blockhead.

(** [el_ctl_t]: [avail] and [used] are the pointers to [avail_actual] and
    [used_actual]. *)
Record el_ctl_t : Type := Ctl {
  heap_bytes : Z;
  heap_start : Z;
  heap_end : Z;
  avail : Z;
  used : Z }.

(** Modelled from the spec: the offsets of [avail_actual] and [used_actual]
    inside the control page (three 8-byte fields, then two list structs of two
    headers, two pointers and two counters each). *)
Definition avail_actual : Z := EL_CTL_START_ADDRESS + 24.
Definition used_actual : Z := EL_CTL_START_ADDRESS + 120.

(** The pages come from [mmap] filled with zeros: a footer that was never
    written reads 0, as a header or a list struct that was never written
    has zero fields. *)
#[global] Instance el_blockfoot_inhabited : Inhabited Z | 0 := populate 0.

(** The memory the allocator works on: the control struct and, by address, the
    structs stored in the control page and in the heap pages. *)
Record world : Type := World {
  el_ctl : el_ctl_t;
  lists : gmap Z el_blocklist_t;
  heads : gmap Z el_blockhead_t;
  foots : gmap Z Z }.

Definition with_ctl (c : el_ctl_t) (w : world) : world :=
  World c (lists w) (heads w) (foots w).
Definition with_lists (m : gmap Z el_blocklist_t) (w : world) : world :=
  World (el_ctl w) m (heads w) (foots w).
Definition with_heads (m : gmap Z el_blockhead_t) (w : world) : world :=
  World (el_ctl w) (lists w) m (foots w).
Definition with_foots (m : gmap Z Z) (w : world) : world :=
  World (el_ctl w) (lists w) (heads w) m.

(** ** The monad of the C code *)

Inductive outcome (A : Type) : Type :=
| Ok (a : A) (w : world)
| Segfault
| OutOfFuel.
Arguments Ok {A} a w.
Arguments Segfault {A}.
Arguments OutOfFuel {A}.

Definition M (A : Type) : Type := world → outcome A.

Definition ret {A} (a : A) : M A := λ w, Ok a w.

Definition bind {A B} (c : M A) (k : A → M B) : M B :=
  λ w, match c w with
       | Ok a w' => k a w'
       | Segfault => Segfault
       | OutOfFuel => OutOfFuel
       end.

Notation "x <- c ;; k" := (bind c (λ x, k))
  (at level 100, c at next level, right associativity).
Notation "c ;;; k" := (bind c (λ _, k))
  (at level 100, right associativity).

(** *** Which addresses are mapped *)

Definition in_heap (w : world) (p len : Z) : bool :=
  (heap_start (el_ctl w) <=? p) && (p + len <=? heap_end (el_ctl w)).

Definition list_mapped (p : Z) : bool :=
  (p =? avail_actual) || (p =? used_actual).

Definition sentinel_mapped (p : Z) : bool :=
  (p =? beg_actual_of avail_actual) || (p =? end_actual_of avail_actual) ||
  (p =? beg_actual_of used_actual) || (p =? end_actual_of used_actual).

Definition head_mapped (w : world) (p : Z) : bool :=
  in_heap w p sizeof_blockhead || sentinel_mapped p.

Definition foot_mapped (w : world) (p : Z) : bool :=
  in_heap w p sizeof_blockfoot.

(** *** Loads and stores *)

Definition get_ctl : M el_ctl_t := λ w, Ok (el_ctl w) w.

Definition put_ctl (c : el_ctl_t) : M unit := λ w, Ok tt (with_ctl c w).

(** [p->field] for a header pointer [p] *)
Definition rd {A} (field : el_blockhead_t → A) (p : Z) : M A :=
  λ w, if head_mapped w p then Ok (field (heads w !!! p)) w else Segfault.

(** [p->field = v] for a header pointer [p] *)
Definition wr (upd : el_blockhead_t → el_blockhead_t) (p : Z) : M unit :=
  λ w, if head_mapped w p
       then Ok tt (with_heads (<[p := upd (heads w !!! p)]> (heads w)) w)
       else Segfault.

(** [p->size] and [p->size = v] for a footer pointer [p] *)
Definition rd_foot (p : Z) : M Z :=
  λ w, if foot_mapped w p then Ok (foots w !!! p) w else Segfault.

Definition wr_foot (v : Z) (p : Z) : M unit :=
  λ w, if foot_mapped w p
       then Ok tt (with_foots (<[p := v]> (foots w)) w)
       else Segfault.

(** [p->field] and [p->field = v] for a list pointer [p] *)
Definition rd_list {A} (field : el_blocklist_t → A) (p : Z) : M A :=
  λ w, if list_mapped p then Ok (field (lists w !!! p)) w else Segfault.

Definition wr_list (upd : el_blocklist_t → el_blocklist_t) (p : Z) : M unit :=
  λ w, if list_mapped p
       then Ok tt (with_lists (<[p := upd (lists w !!! p)]> (lists w)) w)
       else Segfault.

(** ** Pointer arithmetic functions *)

Definition el_get_footer (head : Z) : M Z :=
  size <- rd h_size head ;;
  ret (PTR_PLUS_BYTES head (wrap (sizeof_blockhead + size))).

Definition el_get_header (foot : Z) : M Z :=
  size <- rd_foot foot ;;
  ret (PTR_MINUS_BYTES foot (wrap (sizeof_blockhead + size))).

Definition el_block_above (block : Z) : M Z :=
  size <- rd h_size block ;;
  let higher := PTR_PLUS_BYTES block (wrap (size + EL_BLOCK_OVERHEAD)) in
  c <- get_ctl ;;
  if heap_end c <=? higher then ret NULL else ret higher.

Definition el_block_below (block : Z) : M Z :=
  let foot := PTR_MINUS_BYTES block sizeof_blockfoot in
  c <- get_ctl ;;
  if foot <=? heap_start c then ret NULL
  else
    fsize <- rd_foot foot ;;
    ret (PTR_MINUS_BYTES block (wrap (fsize + EL_BLOCK_OVERHEAD))).

(** ** Block list operations *)

(** What the printing functions write is modelled as the values they print:
    a [list_line] for a line of [el_print_blocklist], a [block_report] for
    the lines of [el_print_block]. *)
Record list_line : Type := ListLine {
  ll_index : Z;
  ll_head : Z;
  ll_state : el_state;
  ll_size : Z }.

Record list_report : Type := ListReport {
  lr_length : Z;
  lr_bytes : Z;
  lr_lines : list list_line }.



(** The [for] loop of [el_print_blocklist], with [n] iterations to go;
    [list->length] does not change while it runs.  The counter [i] is an
    [int] in the code, so the model is the code for lists shorter than
    [2^31]. *)
Fixpoint print_blocklist_loop (n : nat) (i block : Z) : M (list list_line) :=
  match n with
  | O => ret []
  | S n' =>
      block' <- rd h_next block ;;
      st <- rd h_state block' ;;
      size <- rd h_size block' ;;
      rest <- print_blocklist_loop n' (i + 1) block' ;;
      ret (ListLine i block' st size :: rest)
  end.

Definition el_print_blocklist (list : Z) : M list_report :=
  len <- rd_list l_length list ;;
  bytes <- rd_list l_bytes list ;;
  block <- rd_list l_beg list ;;
  lines <- print_blocklist_loop (Z.to_nat len) 0 block ;;
  ret (ListReport len bytes lines).




Definition el_init_blocklist (list : Z) : M unit :=
  wr_list (set_beg (beg_actual_of list)) list ;;;
  beg <- rd_list l_beg list ;;
  wr (set_state EL_BEGIN_BLOCK) beg ;;;
  wr (set_size EL_UNINITIALIZED) beg ;;;
  wr_list (set_end (end_actual_of list)) list ;;;
  end_ <- rd_list l_end list ;;
  wr (set_state EL_END_BLOCK) end_ ;;;
  wr (set_size EL_UNINITIALIZED) end_ ;;;
  wr (set_next end_) beg ;;;
  wr (set_prev NULL) beg ;;;
  wr (set_next NULL) end_ ;;;
  wr (set_prev beg) end_ ;;;
  wr_list (set_length 0) list ;;;
  wr_list (set_bytes 0) list.

Definition el_add_block_front (list block : Z) : M unit :=
  beg <- rd_list l_beg list ;;
  first <- rd h_next beg ;;
  wr (set_next first) block ;;;
  nxt <- rd h_next block ;;
  wr (set_prev block) nxt ;;;
  wr (set_prev beg) block ;;;
  prv <- rd h_prev block ;;
  wr (set_next block) prv ;;;
  len <- rd_list l_length list ;;
  wr_list (set_length (wrap (len + 1))) list ;;;
  size <- rd h_size block ;;
  bytes <- rd_list l_bytes list ;;
  wr_list (set_bytes (wrap (bytes + wrap (size + EL_BLOCK_OVERHEAD)))) list.

Definition el_remove_block (list block : Z) : M unit :=
  nxt <- rd h_next block ;;
  prv <- rd h_prev block ;;
  wr (set_prev prv) nxt ;;;
  prv' <- rd h_prev block ;;
  nxt' <- rd h_next block ;;
  wr (set_next nxt') prv' ;;;
  len <- rd_list l_length list ;;
  wr_list (set_length (wrap (len - 1))) list ;;;
  size <- rd h_size block ;;
  bytes <- rd_list l_bytes list ;;
  wr_list (set_bytes (wrap (bytes - wrap (size + EL_BLOCK_OVERHEAD)))) list.

(** ** Allocation *)

(** The [while] loop of [el_find_first_avail], one iteration per unit of
    fuel; [block] is the loop variable. *)
Fixpoint find_first_avail_loop (fuel : nat) (size block : Z) : M Z :=
  match fuel with
  | O => λ _, OutOfFuel
  | S fuel' =>
      nxt <- rd h_next block ;;
      c <- get_ctl ;;
      end_ <- rd_list l_end (avail c) ;;
      if nxt =? end_ then ret NULL
      else
        st <- rd h_state nxt ;;
        if is_available st then
          sz <- rd h_size nxt ;;
          if size <=? sz then ret nxt
          else find_first_avail_loop fuel' size nxt
        else find_first_avail_loop fuel' size nxt
  end.

Definition el_find_first_avail (fuel : nat) (size : Z) : M Z :=
  c <- get_ctl ;;
  block <- rd_list l_beg (avail c) ;;
  find_first_avail_loop fuel size block.

Definition el_split_block (block size_NEW : Z) : M Z :=
  size <- rd h_size block ;;
  if size <? wrap (size_NEW + EL_BLOCK_OVERHEAD) then ret NULL
  else
    foot <- el_get_footer block ;;
    size_OLD <- rd h_size block ;;
    wr (set_size size_NEW) block ;;;
    foot_NEW <- el_get_footer block ;;
    wr_foot size_NEW foot_NEW ;;;
    block_NEW <- el_block_above block ;;
    wr (set_size (wrap (size_OLD - wrap (size_NEW + EL_BLOCK_OVERHEAD))))
       block_NEW ;;;
    wr (set_state EL_AVAILABLE) block_NEW ;;;
    nsize <- rd h_size block_NEW ;;
    wr_foot nsize foot ;;;
    ret block_NEW.

Definition el_malloc (fuel : nat) (nbytes : Z) : M Z :=
  block <- el_find_first_avail fuel nbytes ;;
  if block =? NULL then ret NULL
  else
    c <- get_ctl ;;
    el_remove_block (avail c) block ;;;
    new_block <- el_split_block block nbytes ;;
    (if new_block =? NULL then ret tt
     else c <- get_ctl ;; el_add_block_front (avail c) new_block) ;;;
    wr (set_state EL_USED) block ;;;
    c <- get_ctl ;;
    el_add_block_front (used c) block ;;;
    ret (PTR_PLUS_BYTES block sizeof_blockhead).

(** ** De-allocation *)

(** The two halves of the body of [el_merge_block_with_above] that run once
    [lower] is known to be available and to have a block above it: the merge
    with [higher], and the look at the block below.  [self] is the function
    itself, for the recursive calls. *)
Definition merge_with_higher (self : Z → M unit) (lower higher : Z) : M unit :=
  hst <- rd h_state higher ;;
  if is_available hst then
    c <- get_ctl ;;
    el_remove_block (avail c) higher ;;;
    c <- get_ctl ;;
    el_remove_block (avail c) lower ;;;
    lsize <- rd h_size lower ;;
    hsize <- rd h_size higher ;;
    let new_size := wrap (wrap (lsize + hsize) + EL_BLOCK_OVERHEAD) in
    wr (set_size new_size) lower ;;;
    foot <- el_get_footer lower ;;
    wr_foot new_size foot ;;;
    c <- get_ctl ;;
    el_add_block_front (avail c) lower ;;;
    self lower
  else ret tt.

Definition merge_with_lowerer (self : Z → M unit) (lower : Z) : M unit :=
  lowerer <- el_block_below lower ;;
  if lowerer =? NULL then ret tt
  else
    lst <- rd h_state lowerer ;;
    if is_available lst then self lowerer else ret tt.

Fixpoint el_merge_block_with_above (fuel : nat) (lower : Z) : M unit :=
  match fuel with
  | O => λ _, OutOfFuel
  | S fuel' =>
      if lower =? NULL then ret tt
      else
        st <- rd h_state lower ;;
        if is_available st then
          higher <- el_block_above lower ;;
          if higher =? NULL then ret tt
          else
            merge_with_higher (el_merge_block_with_above fuel') lower higher ;;;
            merge_with_lowerer (el_merge_block_with_above fuel') lower
        else ret tt
  end.

Definition el_free (fuel : nat) (ptr : Z) : M unit :=
  let free := PTR_MINUS_BYTES ptr sizeof_blockhead in
  c <- get_ctl ;;
  el_remove_block (used c) free ;;;
  wr (set_state EL_AVAILABLE) free ;;;
  c <- get_ctl ;;
  el_add_block_front (avail c) free ;;;
  el_merge_block_with_above fuel free.

(** ** Heap expansion *)

(** [mmap_result] is what [mmap] answers to the request for [npages] pages at
    [heap_end]: the address of the new pages, or [MAP_FAILED].  The code
    forms the product [npages * EL_PAGE_BYTES] in [int] before it becomes
    a [size_t]: the model is the code for products below [2^31]. *)
Definition el_append_pages_to_heap (fuel : nat) (npages : Z) (mmap_result : Z)
  : M Z :=
  let new_size := wrap (npages * EL_PAGE_BYTES) in
  let new_heap_segment := mmap_result in
  if new_heap_segment =? MAP_FAILED then ret 1
  else
    c <- get_ctl ;;
    if negb (new_heap_segment =? heap_end c) then ret 1
    else
      put_ctl (Ctl (heap_bytes c) (heap_start c)
                   (PTR_PLUS_BYTES (heap_end c) new_size) (avail c) (used c)) ;;;
      c <- get_ctl ;;
      put_ctl (Ctl (wrap (heap_bytes c + new_size)) (heap_start c)
                   (heap_end c) (avail c) (used c)) ;;;
      let new_block := new_heap_segment in
      wr (set_size (wrap (new_size - EL_BLOCK_OVERHEAD))) new_block ;;;
      wr (set_state EL_AVAILABLE) new_block ;;;
      new_foot <- el_get_footer new_block ;;
      nsize <- rd h_size new_block ;;
      wr_foot nsize new_foot ;;;
      c <- get_ctl ;;
      el_add_block_front (avail c) new_block ;;;
      prev_block <- el_block_below new_block ;;
      (if prev_block =? NULL then ret tt
       else
         pst <- rd h_state prev_block ;;
         if is_available pst
         then el_merge_block_with_above fuel prev_block
         else ret tt) ;;;
      ret 0.

(** ** Initialisation *)

(** The memory [el_init] starts from: the two [mmap] calls answer with
    zero-filled pages at the two fixed addresses (the [assert]s hold).
    [mmap] refuses a length of 0, so this is the program for a heap size of
    at least one byte. *)
Definition fresh_world : world :=
  World (Ctl 0 NULL NULL NULL NULL) ∅ ∅ ∅.

(** [EL_HEAP_INITIAL_SIZE] is a parameter of the model, the macro being
    defined in the absent header. *)
Definition el_init (EL_HEAP_INITIAL_SIZE : Z) : M Z :=
   let heap := EL_HEAP_START_ADDRESS in
   put_ctl (Ctl EL_HEAP_INITIAL_SIZE NULL NULL NULL NULL) ;;;
   put_ctl (Ctl EL_HEAP_INITIAL_SIZE heap NULL NULL NULL) ;;;
   c <- get_ctl ;;
   put_ctl (Ctl (heap_bytes c) (heap_start c)
                (PTR_PLUS_BYTES heap (heap_bytes c)) NULL NULL) ;;;
   c <- get_ctl ;;
   if heap_bytes c <? EL_BLOCK_OVERHEAD then ret 1
   else
     el_init_blocklist avail_actual ;;;
     el_init_blocklist used_actual ;;;
     c <- get_ctl ;;
     put_ctl (Ctl (heap_bytes c) (heap_start c) (heap_end c)
                  avail_actual (used c)) ;;;
     c <- get_ctl ;;
     put_ctl (Ctl (heap_bytes c) (heap_start c) (heap_end c)
                  (avail c) used_actual) ;;;
     c <- get_ctl ;;
     let size := wrap (heap_bytes c - EL_BLOCK_OVERHEAD) in
     let ablock := heap_start c in
     wr (set_size size) ablock ;;;
     wr (set_state EL_AVAILABLE) ablock ;;;
     afoot <- el_get_footer ablock ;;
     wr_foot size afoot ;;;
     c <- get_ctl ;;
     abeg <- rd_list l_beg (avail c) ;;
     wr (set_prev abeg) ablock ;;;
     first <- rd h_next abeg ;;
     wr (set_next first) ablock ;;;
     prv <- rd h_prev ablock ;;
     wr (set_next ablock) prv ;;;
     nxt <- rd h_next ablock ;;
     wr (set_prev ablock) nxt ;;;
     len <- rd_list l_length (avail c) ;;
     wr_list (set_length (wrap (len + 1))) (avail c) ;;;
     bsize <- rd h_size ablock ;;
     bytes <- rd_list l_bytes (avail c) ;;
     wr_list (set_bytes (wrap (bytes + wrap (bsize + EL_BLOCK_OVERHEAD))))
             (avail c) ;;;
     ret 0.

(** * Reasoning about the code *)

(** ** Total correctness: the computation returns, and the result and the
       final memory satisfy [Q] *)

Definition wp {A} (c : M A) (Q : A → world → Prop) (w : world) : Prop :=
  match c w with
  | Ok a w' => Q a w'
  | _ => False
  end.

Lemma wp_ret {A} (a : A) Q w : Q a w → wp (ret a) Q w.
Proof. done. Qed.

Lemma wp_bind {A B} (c : M A) (k : A → M B) Q w :
  wp c (λ a w', wp (k a) Q w') w → wp (bind c k) Q w.
Proof. unfold wp, bind. by destruct (c w). Qed.

Lemma wp_mono {A} (c : M A) (Q Q' : A → world → Prop) w :
  wp c Q w → (∀ a w', Q a w' → Q' a w') → wp c Q' w.
Proof. unfold wp. destruct (c w); naive_solver. Qed.

Lemma wp_elim {A} (c : M A) Q w :
  wp c Q w → ∃ a w', c w = Ok a w' ∧ Q a w'.
Proof. unfold wp. destruct (c w); naive_solver. Qed.

Lemma wp_intro {A} (c : M A) (Q : A → world → Prop) w a w' :
  c w = Ok a w' → Q a w' → wp c Q w.
Proof. unfold wp. by intros ->. Qed.

(** ** Reading the stores *)

Definition hdr (w : world) (p : Z) : el_blockhead_t := heads w !!! p.
Definition ft (w : world) (p : Z) : Z := foots w !!! p.
Definition lst (w : world) (p : Z) : el_blocklist_t := lists w !!! p.

Abbreviation sz w p := (h_size (hdr w p)).
Abbreviation st w p := (h_state (hdr w p)).
Abbreviation nx w p := (h_next (hdr w p)).
Abbreviation pv w p := (h_prev (hdr w p)).

Definition upd_head (p : Z) (g : el_blockhead_t → el_blockhead_t) (w : world)
  : world := with_heads (<[p := g (heads w !!! p)]> (heads w)) w.
Definition upd_foot (p : Z) (v : Z) (w : world) : world :=
  with_foots (<[p := v]> (foots w)) w.
Definition upd_list (p : Z) (g : el_blocklist_t → el_blocklist_t) (w : world)
  : world := with_lists (<[p := g (lists w !!! p)]> (lists w)) w.

Lemma hdr_upd_head w p g q :
  hdr (upd_head p g w) q = if decide (q = p) then g (hdr w p) else hdr w q.
Proof.
  unfold hdr, upd_head; simpl. case_decide as E.
  - subst. by rewrite lookup_total_insert_eq.
  - by rewrite lookup_total_insert_ne.
Qed.

Lemma ft_upd_foot w p v q :
  ft (upd_foot p v w) q = if decide (q = p) then v else ft w q.
Proof.
  unfold ft, upd_foot; simpl. case_decide as E.
  - subst. by rewrite lookup_total_insert_eq.
  - by rewrite lookup_total_insert_ne.
Qed.

Lemma lst_upd_list w p g q :
  lst (upd_list p g w) q = if decide (q = p) then g (lst w p) else lst w q.
Proof.
  unfold lst, upd_list; simpl. case_decide as E.
  - subst. by rewrite lookup_total_insert_eq.
  - by rewrite lookup_total_insert_ne.
Qed.

Lemma hdr_upd_foot w p v q : hdr (upd_foot p v w) q = hdr w q.
Proof. done. Qed.
Lemma hdr_upd_list w p g q : hdr (upd_list p g w) q = hdr w q.
Proof. done. Qed.
Lemma hdr_with_ctl w c q : hdr (with_ctl c w) q = hdr w q.
Proof. done. Qed.
Lemma ft_upd_head w p g q : ft (upd_head p g w) q = ft w q.
Proof. done. Qed.
Lemma ft_upd_list w p g q : ft (upd_list p g w) q = ft w q.
Proof. done. Qed.
Lemma ft_with_ctl w c q : ft (with_ctl c w) q = ft w q.
Proof. done. Qed.
Lemma lst_upd_head w p g q : lst (upd_head p g w) q = lst w q.
Proof. done. Qed.
Lemma lst_upd_foot w p v q : lst (upd_foot p v w) q = lst w q.
Proof. done. Qed.
Lemma lst_with_ctl w c q : lst (with_ctl c w) q = lst w q.
Proof. done. Qed.
Lemma ctl_upd_head w p g : el_ctl (upd_head p g w) = el_ctl w.
Proof. done. Qed.
Lemma ctl_upd_foot w p v : el_ctl (upd_foot p v w) = el_ctl w.
Proof. done. Qed.
Lemma ctl_upd_list w p g : el_ctl (upd_list p g w) = el_ctl w.
Proof. done. Qed.
Lemma ctl_with_ctl w c : el_ctl (with_ctl c w) = c.
Proof. done. Qed.

Create Rewrite HintDb el.
#[global] Hint Rewrite hdr_upd_head ft_upd_foot lst_upd_list hdr_upd_foot
  hdr_upd_list hdr_with_ctl ft_upd_head ft_upd_list ft_with_ctl lst_upd_head
  lst_upd_foot lst_with_ctl ctl_upd_head ctl_upd_foot ctl_upd_list
  ctl_with_ctl : el.

(** ** Rules for the loads and stores *)

Lemma wp_get_ctl Q w : Q (el_ctl w) w → wp get_ctl Q w.
Proof. done. Qed.

Lemma wp_put_ctl c Q w : Q tt (with_ctl c w) → wp (put_ctl c) Q w.
Proof. done. Qed.

Lemma wp_rd {A} (f : el_blockhead_t → A) p Q w :
  head_mapped w p = true → Q (f (hdr w p)) w → wp (rd f p) Q w.
Proof. unfold wp, rd. by intros ->. Qed.

Lemma wp_wr g p Q w :
  head_mapped w p = true → Q tt (upd_head p g w) → wp (wr g p) Q w.
Proof. unfold wp, wr. by intros ->. Qed.

Lemma wp_rd_foot p Q w :
  foot_mapped w p = true → Q (ft w p) w → wp (rd_foot p) Q w.
Proof. unfold wp, rd_foot. by intros ->. Qed.

Lemma wp_wr_foot v p Q w :
  foot_mapped w p = true → Q tt (upd_foot p v w) → wp (wr_foot v p) Q w.
Proof. unfold wp, wr_foot. by intros ->. Qed.

Lemma wp_rd_list {A} (f : el_blocklist_t → A) p Q w :
  list_mapped p = true → Q (f (lst w p)) w → wp (rd_list f p) Q w.
Proof. unfold wp, rd_list. by intros ->. Qed.

Lemma wp_wr_list g p Q w :
  list_mapped p = true → Q tt (upd_list p g w) → wp (wr_list g p) Q w.
Proof. unfold wp, wr_list. by intros ->. Qed.

(** Mapping only depends on the heap bounds. *)
Lemma head_mapped_ctl w w' p :
  el_ctl w' = el_ctl w → head_mapped w' p = head_mapped w p.
Proof. unfold head_mapped, in_heap. by intros ->. Qed.

Lemma foot_mapped_ctl w w' p :
  el_ctl w' = el_ctl w → foot_mapped w' p = foot_mapped w p.
Proof. unfold foot_mapped, in_heap. by intros ->. Qed.

Lemma head_mapped_upd_head w p g q :
  head_mapped (upd_head p g w) q = head_mapped w q.
Proof. done. Qed.
Lemma head_mapped_upd_foot w p v q :
  head_mapped (upd_foot p v w) q = head_mapped w q.
Proof. done. Qed.
Lemma head_mapped_upd_list w p g q :
  head_mapped (upd_list p g w) q = head_mapped w q.
Proof. done. Qed.
Lemma foot_mapped_upd_head w p g q :
  foot_mapped (upd_head p g w) q = foot_mapped w q.
Proof. done. Qed.
Lemma foot_mapped_upd_foot w p v q :
  foot_mapped (upd_foot p v w) q = foot_mapped w q.
Proof. done. Qed.
Lemma foot_mapped_upd_list w p g q :
  foot_mapped (upd_list p g w) q = foot_mapped w q.
Proof. done. Qed.

#[global] Hint Rewrite head_mapped_upd_head head_mapped_upd_foot
  head_mapped_upd_list foot_mapped_upd_head foot_mapped_upd_foot
  foot_mapped_upd_list : el.

(** One step of symbolic execution. *)
Ltac wp_step :=
  lazymatch goal with
  | |- wp (bind _ _) _ _ => apply wp_bind
  | |- wp (ret _) _ _ => apply wp_ret
  | |- wp get_ctl _ _ => apply wp_get_ctl
  | |- wp (put_ctl _) _ _ => apply wp_put_ctl
  | |- wp (rd _ _) _ _ => apply wp_rd
  | |- wp (wr _ _) _ _ => apply wp_wr
  | |- wp (rd_foot _) _ _ => apply wp_rd_foot
  | |- wp (wr_foot _ _) _ _ => apply wp_wr_foot
  | |- wp (rd_list _ _) _ _ => apply wp_rd_list
  | |- wp (wr_list _ _) _ _ => apply wp_wr_list
  end.

(** Settle the address comparisons left by the store lemmas. *)
Ltac dec_simpl :=
  repeat match goal with
  | |- context [decide (?a = ?b)] =>
      first [ rewrite (decide_True (P := a = b)) by (done || lia)
            | rewrite (decide_False (P := a = b)) by (done || lia) ]
  end.

Ltac wp_simpl := autorewrite with el; dec_simpl; simpl.

(** Compare a field after some stores with the field before, by cases on
    the addresses stored to. *)
Ltac hdr_cases :=
  autorewrite with el; repeat (case_decide; subst; simpl); try done;
  try congruence.

(** Run the next load or store; the mapping side condition is tried by
    assumption. *)
Ltac wp_next :=
  lazymatch goal with
  | |- wp (bind _ _) _ _ => apply wp_bind; wp_next
  | |- wp (ret _) _ _ => apply wp_ret
  | |- wp get_ctl _ _ => apply wp_get_ctl
  | |- wp (put_ctl _) _ _ => apply wp_put_ctl
  | |- wp (rd _ _) _ _ => apply wp_rd; [autorewrite with el; try done|]
  | |- wp (wr _ _) _ _ => apply wp_wr; [autorewrite with el; try done|]
  | |- wp (rd_foot _) _ _ => apply wp_rd_foot; [autorewrite with el; try done|]
  | |- wp (wr_foot _ _) _ _ =>
      apply wp_wr_foot; [autorewrite with el; try done|]
  | |- wp (rd_list _ _) _ _ => apply wp_rd_list; [try done|]
  | |- wp (wr_list _ _) _ _ => apply wp_wr_list; [try done|]
  end; wp_simpl.

(** ** Arithmetic of the layout *)

Lemma wrap_small z : 0 ≤ z < SIZE_MODULUS → wrap z = z.
Proof. intros. unfold wrap. by apply Z.mod_small. Qed.

Lemma wrap_range z : 0 ≤ wrap z < SIZE_MODULUS.
Proof. unfold wrap. apply Z.mod_pos_bound. done. Qed.

Ltac el_consts :=
  unfold PTR_PLUS_BYTES, PTR_MINUS_BYTES, beg_actual_of, end_actual_of in *;
  unfold avail_actual, used_actual, EL_BLOCK_OVERHEAD in *;
  unfold sizeof_blockhead, sizeof_blockfoot, EL_PAGE_BYTES,
    EL_HEAP_START_ADDRESS, EL_CTL_START_ADDRESS, NULL, SIZE_MODULUS in *.

Ltac el_lia := el_consts; lia.

(** ** Intrusive doubly linked lists *)

Definition upd_fun (f : Z → Z) (k v : Z) : Z → Z :=
  λ p, if decide (p = k) then v else f p.

(** [chain nxf pvf a l e]: following [nxf] from [a] visits the members [l]
    and then [e]; [pvf] leads back. *)
Fixpoint chain (nxf pvf : Z → Z) (a : Z) (l : list Z) (e : Z) : Prop :=
  match l with
  | [] => nxf a = e ∧ pvf e = a
  | b :: l' => nxf a = b ∧ pvf b = a ∧ chain nxf pvf b l' e
  end.

Lemma chain_frame nxf pvf nxf' pvf' a l e :
  chain nxf pvf a l e →
  (∀ p, p ∈ a :: l → nxf' p = nxf p) →
  (∀ p, p ∈ l ++ [e] → pvf' p = pvf p) →
  chain nxf' pvf' a l e.
Proof.
  revert a. induction l as [|b l IH]; simpl; intros a H Hn Hp.
  - destruct H as [H1 H2]. split.
    + rewrite Hn; [done|]. set_solver.
    + rewrite Hp; [done|]. set_solver.
  - destruct H as (H1 & H2 & H3). split_and!.
    + rewrite Hn; [done|]. set_solver.
    + rewrite Hp; [done|]. set_solver.
    + apply IH; [done| |]; intros p Hin; [apply Hn|apply Hp]; set_solver.
Qed.

Lemma chain_app nxf pvf a l1 b l2 e :
  chain nxf pvf a (l1 ++ b :: l2) e ↔
  chain nxf pvf a l1 b ∧ chain nxf pvf b l2 e.
Proof.
  revert a. induction l1 as [|c l1 IH]; simpl; intros a.
  - naive_solver.
  - rewrite IH. naive_solver.
Qed.

(** The last node of [a :: l]. *)
Fixpoint last_of (a : Z) (l : list Z) : Z :=
  match l with
  | [] => a
  | b :: l' => last_of b l'
  end.

(** The links around a member. *)
Lemma chain_links nxf pvf a l1 b l2 e :
  chain nxf pvf a (l1 ++ b :: l2) e →
  nxf b = hd e l2 ∧ pvf b = last_of a l1 ∧
  nxf (last_of a l1) = b ∧ pvf (hd e l2) = b.
Proof.
  revert a. induction l1 as [|c l1 IH]; intros a H.
  - simpl in H. destruct H as (H1 & H2 & H3).
    destruct l2 as [|c l2]; simpl in *; naive_solver.
  - simpl in H. destruct H as (H1 & H2 & H3).
    apply IH in H3. done.
Qed.

Lemma last_of_elem (a : Z) (l : list Z) : last_of a l ∈ a :: l.
Proof.
  revert a. induction l as [|b l IH]; intros a; [set_solver|].
  simpl. specialize (IH b). set_solver.
Qed.

Lemma hd_app_elem (e : Z) (l : list Z) : hd e l ∈ l ++ [e].
Proof. destruct l; set_solver. Qed.

Lemma chain_remove nxf pvf a l1 b l2 e :
  NoDup (a :: (l1 ++ b :: l2) ++ [e]) →
  chain nxf pvf a (l1 ++ b :: l2) e →
  chain (upd_fun nxf (pvf b) (nxf b)) (upd_fun pvf (nxf b) (pvf b))
        a (l1 ++ l2) e.
Proof.
  intros Hnd H.
  pose proof (chain_links _ _ _ _ _ _ _ H) as (Hn & Hp & _ & _).
  rewrite Hn, Hp. clear Hn Hp.
  revert a Hnd H. induction l1 as [|c l1 IH]; intros a Hnd H.
  - simpl in *. destruct H as (H1 & H2 & H3).
    apply NoDup_cons in Hnd as [Ha Hnd]. apply NoDup_cons in Hnd as [Hb Hnd].
    destruct l2 as [|c l2]; simpl in *.
    + unfold upd_fun. rewrite !decide_True by done. done.
    + destruct H3 as (H3 & H4 & H5). apply NoDup_cons in Hnd as [Hc Hnd].
      unfold upd_fun at 1 2. rewrite !decide_True by done. split_and!; try done.
      eapply chain_frame; [done| |]; intros p Hin; unfold upd_fun;
        rewrite decide_False; try done; set_solver.
  - simpl in H. destruct H as (H1 & H2 & H3).
    simpl in Hnd. simpl last_of. apply NoDup_cons in Hnd as [Ha Hnd].
    specialize (IH c Hnd H3).
    pose proof (last_of_elem c l1) as Hl.
    pose proof (hd_app_elem e l2) as Hh.
    assert (last_of c l1 ≠ a) by (intros E; rewrite E in Hl; set_solver).
    assert (hd e l2 ≠ c).
    { intros E. rewrite E in Hh. apply NoDup_cons in Hnd as [Hc _].
      apply Hc. set_solver. }
    simpl. split_and!; try done; unfold upd_fun; rewrite decide_False; done.
Qed.

Lemma chain_add_front nxf pvf a l e b :
  b ∉ a :: l ++ [e] → NoDup (a :: l ++ [e]) →
  chain nxf pvf a l e →
  chain (upd_fun (upd_fun nxf b (nxf a)) a b)
        (upd_fun (upd_fun pvf (nxf a) b) b a) a (b :: l) e.
Proof.
  intros Hb Hnd H.
  apply NoDup_cons in Hnd as [Ha Hnd].
  assert (a ≠ b) by set_solver.
  destruct l as [|c l]; simpl in *.
  - destruct H as [H1 H2]. subst e.
    assert (nxf a ≠ b) by set_solver.
    unfold upd_fun. repeat case_decide; done.
  - destruct H as (H1 & H2 & H3). subst c.
    apply NoDup_cons in Hnd as [Hc Hnd].
    assert (nxf a ≠ b) by set_solver.
    split_and!.
    + unfold upd_fun. repeat case_decide; done.
    + unfold upd_fun. repeat case_decide; done.
    + unfold upd_fun. repeat case_decide; done.
    + unfold upd_fun. repeat case_decide; done.
    + eapply chain_frame; [done| |]; intros p Hin; unfold upd_fun;
        repeat case_decide; subst; try done; exfalso; set_solver.
Qed.

(** ** Block lists in memory *)

Definition sum_bytes (w : world) (l : list Z) : Z :=
  foldr (λ b acc, sz w b + EL_BLOCK_OVERHEAD + acc) 0 l.

(** The list struct at [L] is initialised, its sentinels are linked through
    the members [l], and its counters agree with [l]. *)
Record dll (w : world) (L : Z) (l : list Z) : Prop := {
  dll_lst : lst w L = BlockList (beg_actual_of L) (end_actual_of L)
                                (Z.of_nat (length l)) (sum_bytes w l);
  dll_chain : chain (λ p, nx w p) (λ p, pv w p)
                    (beg_actual_of L) l (end_actual_of L) }.

(** What list surgery never touches. *)
Definition same_data (w w' : world) : Prop :=
  el_ctl w' = el_ctl w ∧ (∀ p, ft w' p = ft w p) ∧
  (∀ p, sz w' p = sz w p ∧ st w' p = st w p).

Lemma same_data_refl w : same_data w w.
Proof. done. Qed.

Lemma same_data_trans w1 w2 w3 :
  same_data w1 w2 → same_data w2 w3 → same_data w1 w3.
Proof.
  intros (H1 & H2 & H3) (H4 & H5 & H6). split_and!.
  - congruence.
  - intros p. rewrite H5. done.
  - intros p. destruct (H6 p) as [-> ->]. done.
Qed.

Lemma sum_bytes_app w l1 l2 :
  sum_bytes w (l1 ++ l2) = sum_bytes w l1 + sum_bytes w l2.
Proof. induction l1; simpl; lia. Qed.

Lemma sum_bytes_frame w w' l :
  (∀ p, p ∈ l → sz w' p = sz w p) → sum_bytes w' l = sum_bytes w l.
Proof.
  induction l as [|b l IH]; simpl; intros H; [done|].
  rewrite H, IH; [done| |]; set_solver.
Qed.

Lemma sum_bytes_lower w l :
  (∀ p, p ∈ l → 0 ≤ sz w p) →
  EL_BLOCK_OVERHEAD * Z.of_nat (length l) ≤ sum_bytes w l.
Proof.
  induction l as [|b l IH]; simpl length; simpl sum_bytes; intros H; [lia|].
  assert (0 ≤ sz w b) by (apply H; set_solver).
  assert (EL_BLOCK_OVERHEAD * Z.of_nat (length l) ≤ sum_bytes w l)
    by (apply IH; set_solver).
  lia.
Qed.

Lemma dll_frame w w' L l :
  dll w L l →
  lst w' L = lst w L →
  (∀ p, p ∈ beg_actual_of L :: end_actual_of L :: l → hdr w' p = hdr w p) →
  dll w' L l.
Proof.
  intros [H1 H2] Hl Hh. split.
  - rewrite Hl, H1. f_equal. apply sum_bytes_frame.
    intros p Hp. rewrite Hh; [done|set_solver].
  - eapply chain_frame; [done| |]; intros p Hp; simpl; rewrite Hh; [done| |done|];
      set_solver.
Qed.

Lemma list_sentinels_mapped w L :
  list_mapped L = true →
  head_mapped w (beg_actual_of L) = true ∧
  head_mapped w (end_actual_of L) = true.
Proof.
  unfold list_mapped, head_mapped, sentinel_mapped. intros H.
  apply orb_true_iff in H as [H|H]; apply Z.eqb_eq in H; subst L;
    rewrite !Z.eqb_refl; rewrite ?orb_true_r; done.
Qed.

Lemma el_remove_block_spec w L l1 b l2 :
  list_mapped L = true →
  dll w L (l1 ++ b :: l2) →
  NoDup (beg_actual_of L :: (l1 ++ b :: l2) ++ [end_actual_of L]) →
  (∀ x, x ∈ l1 ++ b :: l2 → head_mapped w x = true ∧ 0 ≤ sz w x) →
  sum_bytes w (l1 ++ b :: l2) < SIZE_MODULUS →
  wp (el_remove_block L b) (λ _ w',
    dll w' L (l1 ++ l2) ∧ same_data w w' ∧
    (∀ p, p ∉ beg_actual_of L :: end_actual_of L :: l1 ++ l2 →
          hdr w' p = hdr w p) ∧
    (∀ K, K ≠ L → lst w' K = lst w K)) w.
Proof.
  intros HL [Hlst Hch] Hnd Hmap Hsum.
  destruct (list_sentinels_mapped w L HL) as [Hmb Hme].
  pose proof (chain_links _ _ _ _ _ _ _ Hch) as (Hn & Hp & _ & _).
  simpl in Hn, Hp.
  pose proof (last_of_elem (beg_actual_of L) l1) as Hpin.
  pose proof (hd_app_elem (end_actual_of L) l2) as Hnin.
  set (prv := last_of (beg_actual_of L) l1) in *.
  set (nxt := hd (end_actual_of L) l2) in *.
  assert (Hmp : head_mapped w prv = true).
  { apply elem_of_cons in Hpin as [->|Hin]; [done|]. apply Hmap. set_solver. }
  assert (Hmn : head_mapped w nxt = true).
  { apply elem_of_app in Hnin as [Hin|Hin]; [apply Hmap; set_solver|].
    apply list_elem_of_singleton in Hin. by rewrite Hin. }
  assert (Hmbk : head_mapped w b = true) by (apply Hmap; set_solver).
  assert (Hbp : b ≠ prv).
  { intros ->. apply NoDup_cons in Hnd as [Hx Hnd].
    apply elem_of_cons in Hpin as [E|Hin].
    - apply Hx. rewrite <- E. set_solver.
    - rewrite <- app_assoc in Hnd. apply NoDup_app in Hnd as (_ & Hd & _).
      apply (Hd prv); set_solver. }
  assert (Hbn : b ≠ nxt).
  { intros ->. apply NoDup_cons in Hnd as [Hx Hnd].
    rewrite <- app_assoc in Hnd. apply NoDup_app in Hnd as (_ & _ & Hnd).
    apply NoDup_cons in Hnd as [Hy _]. done. }
  assert (Hpn : prv ≠ nxt).
  { intros E. rewrite E in Hpin. apply NoDup_cons in Hnd as [Hx Hnd].
    apply elem_of_cons in Hpin as [E'|Hin].
    - apply Hx. rewrite <- E'. set_solver.
    - rewrite <- app_assoc in Hnd. apply NoDup_app in Hnd as (_ & Hd & _).
      apply (Hd nxt); set_solver. }
  unfold el_remove_block.
  wp_next. rewrite Hn. wp_next. rewrite Hp. wp_next. wp_next. rewrite Hp.
  wp_next. rewrite Hn. wp_next. wp_next. rewrite Hlst; simpl. wp_next. wp_next.
  wp_next. rewrite Hlst; simpl. wp_next.
  assert (Hb0 : 0 ≤ sz w b) by (apply Hmap; set_solver).
  assert (H1 : EL_BLOCK_OVERHEAD * Z.of_nat (length l1) ≤ sum_bytes w l1).
  { apply sum_bytes_lower. intros x Hx. apply Hmap. set_solver. }
  assert (H2 : EL_BLOCK_OVERHEAD * Z.of_nat (length l2) ≤ sum_bytes w l2).
  { apply sum_bytes_lower. intros x Hx. apply Hmap. set_solver. }
  rewrite sum_bytes_app in Hsum |- *. simpl sum_bytes in Hsum |- *.
  rewrite length_app. simpl length.
  rewrite (wrap_small (sz w b + _)) by el_lia.
  rewrite !wrap_small by el_lia.
  split_and!.
  - split.
    + wp_simpl. rewrite Hlst. unfold set_bytes, set_length; simpl.
      f_equal; [rewrite length_app; lia|].
      rewrite sum_bytes_app.
      transitivity (sum_bytes w l1 + sum_bytes w l2); [lia|].
      f_equal; apply sum_bytes_frame; intros x Hx; hdr_cases.
    + eapply chain_frame; [apply (chain_remove _ _ _ _ _ _ _ Hnd Hch)| |];
        intros x Hx; simpl; rewrite Hn, Hp; unfold upd_fun; hdr_cases.
  - split_and!; [done|intros x; hdr_cases|intros x; hdr_cases].
  - intros x Hx. wp_simpl.
    assert (x ≠ prv).
    { intros ->. apply elem_of_cons in Hpin as [E|Hin]; [rewrite E in Hx|];
        set_solver. }
    assert (x ≠ nxt).
    { intros ->. apply elem_of_app in Hnin as [Hin|Hin]; [set_solver|].
      apply list_elem_of_singleton in Hin. rewrite Hin in Hx. set_solver. }
    by dec_simpl.
  - intros K HK. wp_simpl. done.
Qed.

Lemma el_add_block_front_spec w L l b :
  list_mapped L = true →
  dll w L l →
  NoDup (beg_actual_of L :: l ++ [end_actual_of L]) →
  b ∉ beg_actual_of L :: l ++ [end_actual_of L] →
  head_mapped w b = true → 0 ≤ sz w b →
  (∀ x, x ∈ l → head_mapped w x = true ∧ 0 ≤ sz w x) →
  sum_bytes w l + sz w b + EL_BLOCK_OVERHEAD < SIZE_MODULUS →
  wp (el_add_block_front L b) (λ _ w',
    dll w' L (b :: l) ∧ same_data w w' ∧
    (∀ p, p ∉ beg_actual_of L :: end_actual_of L :: b :: l →
          hdr w' p = hdr w p) ∧
    (∀ K, K ≠ L → lst w' K = lst w K)) w.
Proof.
  intros HL [Hlst Hch] Hnd Hb Hmb Hb0 Hmap Hsum.
  destruct (list_sentinels_mapped w L HL) as [Hmbeg Hmend].
  pose proof (hd_app_elem (end_actual_of L) l) as Hfin.
  assert (Hn : nx w (beg_actual_of L) = hd (end_actual_of L) l).
  { destruct l; simpl in Hch |- *; naive_solver. }
  set (first := hd (end_actual_of L) l) in *.
  assert (Hmf : head_mapped w first = true).
  { apply elem_of_app in Hfin as [Hin|Hin]; [by apply Hmap|].
    apply list_elem_of_singleton in Hin. by rewrite Hin. }
  assert (Hbb : b ≠ beg_actual_of L) by set_solver.
  assert (Hbf : b ≠ first) by (intros ->; set_solver).
  assert (Hfb : first ≠ beg_actual_of L).
  { intros E. rewrite E in Hfin. apply NoDup_cons in Hnd as [Hx _]. done. }
  assert (H1 : EL_BLOCK_OVERHEAD * Z.of_nat (length l) ≤ sum_bytes w l).
  { apply sum_bytes_lower. intros x Hx. by apply Hmap. }
  unfold el_add_block_front.
  wp_next. rewrite Hlst; simpl. wp_next. rewrite Hn. wp_next. wp_next.
  wp_next. wp_next. wp_next. wp_next. wp_next. rewrite Hlst; simpl.
  wp_next. wp_next. wp_next. rewrite Hlst; simpl. wp_next.
  rewrite (wrap_small (sz w b + _)) by el_lia.
  rewrite !wrap_small by el_lia.
  split_and!.
  - split.
    + wp_simpl. rewrite Hlst. unfold set_bytes, set_length; simpl.
      f_equal; [lia|].
      transitivity (sz w b + EL_BLOCK_OVERHEAD + sum_bytes w l); [lia|].
      f_equal; [f_equal; hdr_cases|].
      apply sum_bytes_frame; intros x Hx; hdr_cases.
    + eapply chain_frame; [apply (chain_add_front _ _ _ _ _ b Hb Hnd Hch)| |];
        intros x Hx; simpl; rewrite Hn; unfold upd_fun; hdr_cases.
  - split_and!; [done|intros x; hdr_cases|intros x; hdr_cases].
  - intros x Hx. wp_simpl.
    assert (x ≠ b) by set_solver.
    assert (x ≠ beg_actual_of L) by set_solver.
    assert (x ≠ first).
    { intros ->. apply elem_of_app in Hfin as [Hin|Hin]; [set_solver|].
      apply list_elem_of_singleton in Hin. rewrite Hin in Hx. set_solver. }
    by dec_simpl.
  - intros K HK. wp_simpl. done.
Qed.

(** ** The control struct and the two lists together *)

Definition ctl_ok (w : world) : Prop :=
  heap_start (el_ctl w) = EL_HEAP_START_ADDRESS ∧
  heap_end (el_ctl w) = heap_start (el_ctl w) + heap_bytes (el_ctl w) ∧
  0 ≤ heap_bytes (el_ctl w) ∧
  heap_end (el_ctl w) ≤ EL_CTL_START_ADDRESS ∧
  avail (el_ctl w) = avail_actual ∧
  used (el_ctl w) = used_actual.

(** The header at [b] lies inside the heap pages. *)
Definition blk_in_heap (w : world) (b : Z) : Prop :=
  heap_start (el_ctl w) ≤ b ∧ b + sizeof_blockhead ≤ heap_end (el_ctl w).

Lemma blk_in_heap_mapped w b : blk_in_heap w b → head_mapped w b = true.
Proof.
  intros [H1 H2]. unfold head_mapped, in_heap.
  apply orb_true_iff. left. apply andb_true_iff. split; by apply Z.leb_le.
Qed.

Record lists_ok (w : world) (la lu : list Z) : Prop := {
  lo_ctl : ctl_ok w;
  lo_avail : dll w avail_actual la;
  lo_used : dll w used_actual lu;
  lo_nodup : NoDup (la ++ lu);
  lo_heap : ∀ b, b ∈ la ++ lu → blk_in_heap w b ∧ 0 ≤ sz w b;
  lo_bytes : sum_bytes w la + sum_bytes w lu ≤ heap_bytes (el_ctl w) }.

Definition sentinels : list Z :=
  [beg_actual_of avail_actual; end_actual_of avail_actual;
   beg_actual_of used_actual; end_actual_of used_actual].

Lemma list_mapped_avail : list_mapped avail_actual = true.
Proof. done. Qed.
Lemma list_mapped_used : list_mapped used_actual = true.
Proof. done. Qed.

Lemma heap_bytes_bound w : ctl_ok w → heap_bytes (el_ctl w) < SIZE_MODULUS.
Proof. intros (H1 & H2 & H3 & H4 & _). el_lia. Qed.

Lemma nodup_with_sentinels w L l :
  ctl_ok w → list_mapped L = true → NoDup l →
  (∀ b, b ∈ l → blk_in_heap w b) →
  NoDup (beg_actual_of L :: l ++ [end_actual_of L]).
Proof.
  intros (H1 & H2 & H3 & H4 & _) HL Hnd Hh.
  assert (HL' : L = avail_actual ∨ L = used_actual).
  { unfold list_mapped in HL. apply orb_true_iff in HL as [E|E];
      apply Z.eqb_eq in E; auto. }
  assert (Hs : ∀ b, b ∈ l → b < L).
  { intros b Hb. destruct (Hh b Hb) as [Hb1 Hb2]. destruct HL'; el_lia. }
  apply NoDup_cons. split.
  - intros Hin. apply elem_of_app in Hin as [Hin|Hin].
    + apply Hs in Hin. el_lia.
    + apply list_elem_of_singleton in Hin. el_lia.
  - apply NoDup_app. split_and!; [done| |apply NoDup_singleton].
    intros b Hb Hin. apply list_elem_of_singleton in Hin. apply Hs in Hb. el_lia.
Qed.

Lemma not_sentinel w b :
  ctl_ok w → blk_in_heap w b → b ∉ sentinels.
Proof.
  intros (H1 & H2 & H3 & H4 & _) [Hb1 Hb2] Hin. unfold sentinels in Hin.
  repeat (apply elem_of_cons in Hin as [Hin|Hin]; [el_lia|]).
  by apply elem_of_nil in Hin.
Qed.

(** Memory that differs only away from the lists leaves them intact. *)
Lemma lists_ok_frame w w' la lu :
  lists_ok w la lu →
  el_ctl w' = el_ctl w →
  (∀ K, lst w' K = lst w K) →
  (∀ p, p ∈ sentinels ++ la ++ lu → hdr w' p = hdr w p) →
  lists_ok w' la lu.
Proof.
  intros [H1 H2 H3 H4 H5 H6] Hc Hl Hh.
  assert (Hsa : sum_bytes w' la = sum_bytes w la).
  { apply sum_bytes_frame. intros p Hp. rewrite Hh; [done|set_solver]. }
  assert (Hsu : sum_bytes w' lu = sum_bytes w lu).
  { apply sum_bytes_frame. intros p Hp. rewrite Hh; [done|set_solver]. }
  split.
  - unfold ctl_ok. by rewrite Hc.
  - eapply dll_frame; [done|done|]. intros p Hp. apply Hh.
    unfold sentinels. set_solver.
  - eapply dll_frame; [done|done|]. intros p Hp. apply Hh.
    unfold sentinels. set_solver.
  - done.
  - intros b Hb. unfold blk_in_heap. rewrite Hc, Hh; [|set_solver].
    by apply H5.
  - rewrite Hsa, Hsu, Hc. done.
Qed.

Lemma sum_bytes_same_data w w' l :
  same_data w w' → sum_bytes w' l = sum_bytes w l.
Proof. intros (_ & _ & H). apply sum_bytes_frame. intros p _. apply H. Qed.

Lemma avail_used_neq : avail_actual ≠ used_actual.
Proof. done. Qed.

Lemma sentinels_avail_used_disjoint p :
  p ∈ [beg_actual_of avail_actual; end_actual_of avail_actual] →
  p ∈ [beg_actual_of used_actual; end_actual_of used_actual] → False.
Proof.
  intros H1 H2.
  repeat (apply elem_of_cons in H1 as [H1|H1]; [|]);
    repeat (apply elem_of_cons in H2 as [H2|H2]; [|]);
    try (by apply elem_of_nil in H1); try (by apply elem_of_nil in H2);
    subst; done.
Qed.

Lemma list_mapped_cases L :
  list_mapped L = true → L = avail_actual ∨ L = used_actual.
Proof.
  unfold list_mapped. intros H. apply orb_true_iff in H as [E|E];
    apply Z.eqb_eq in E; auto.
Qed.

Lemma sentinel_of_list w L p :
  ctl_ok w → list_mapped L = true →
  p ∈ [beg_actual_of L; end_actual_of L] → ¬ blk_in_heap w p.
Proof.
  intros (H1 & H2 & H3 & H4 & _) HL Hp [Hb1 Hb2].
  apply list_mapped_cases in HL.
  apply elem_of_cons in Hp as [->|Hp];
    [|apply list_elem_of_singleton in Hp as ->]; destruct HL as [->| ->]; el_lia.
Qed.

(** An operation on the list at [L] leaves the list at [K] alone. *)
Lemma dll_other_frame w w' L K l k :
  ctl_ok w → list_mapped L = true → list_mapped K = true → L ≠ K →
  (∀ b, b ∈ l ++ k → blk_in_heap w b) →
  (∀ b, b ∈ k → b ∉ l) →
  dll w K k →
  (∀ p, p ∉ beg_actual_of L :: end_actual_of L :: l → hdr w' p = hdr w p) →
  (∀ K', K' ≠ L → lst w' K' = lst w K') →
  dll w' K k.
Proof.
  intros Hc HL HK Hne Hh Hd Hdll Hfr Hls.
  eapply dll_frame; [done|by apply Hls|].
  intros p Hp. apply Hfr. intros Hin.
  assert (Hp' : p ∈ [beg_actual_of K; end_actual_of K] ∨ p ∈ k) by set_solver.
  assert (Hin' : p ∈ [beg_actual_of L; end_actual_of L] ∨ p ∈ l) by set_solver.
  destruct Hp' as [Hp'|Hp'], Hin' as [Hin'|Hin'].
  - apply list_mapped_cases in HL, HK.
    apply elem_of_cons in Hp' as [->|Hp'];
      [|apply list_elem_of_singleton in Hp' as ->];
      (apply elem_of_cons in Hin' as [E|Hin'];
       [|apply list_elem_of_singleton in Hin' as E]);
      destruct HL as [->| ->], HK as [->| ->]; try done.
  - eapply sentinel_of_list; [done|apply HK|done|]. apply Hh. set_solver.
  - eapply sentinel_of_list; [done|apply HL|done|]. apply Hh. set_solver.
  - by apply (Hd p).
Qed.

Lemma sum_bytes_nonneg w l :
  (∀ p, p ∈ l → 0 ≤ sz w p) → 0 ≤ sum_bytes w l.
Proof.
  intros H. pose proof (sum_bytes_lower w l H). el_lia.
Qed.

(** The four list operations of the allocator, on the pair of lists. *)
Lemma remove_avail_spec w l1 b l2 lu :
  lists_ok w (l1 ++ b :: l2) lu →
  wp (el_remove_block avail_actual b) (λ _ w',
    lists_ok w' (l1 ++ l2) lu ∧ same_data w w' ∧
    (∀ p, p ∉ sentinels ++ (l1 ++ l2) ++ lu → hdr w' p = hdr w p)) w.
Proof.
  intros [H1 H2 H3 H4 H5 H6].
  pose proof (heap_bytes_bound w H1) as Hb.
  assert (0 ≤ sum_bytes w lu).
  { apply sum_bytes_nonneg. intros p Hp. apply H5. set_solver. }
  assert (Hnd : NoDup (l1 ++ b :: l2)) by (by apply NoDup_app in H4 as (? & _)).
  eapply wp_mono.
  { apply (el_remove_block_spec w avail_actual l1 b l2); try done.
    - eapply (nodup_with_sentinels w); try done.
      intros x Hx. apply H5. set_solver.
    - intros x Hx. split; [apply blk_in_heap_mapped|]; apply H5; set_solver.
    - lia. }
  simpl. intros _ w' (Hd & Hsd & Hfr & Hls).
  split_and!; [|done|]; cycle 1.
  { intros p Hp. apply Hfr. unfold sentinels in Hp. set_solver. }
  split.
  - destruct Hsd as (Hc & _). unfold ctl_ok. by rewrite Hc.
  - done.
  - eapply (dll_other_frame w w' avail_actual used_actual (l1 ++ l2) lu);
      try done.
    + intros x Hx. apply H5. set_solver.
    + intros p Hp Hin. apply NoDup_app in H4 as (_ & Hx & _).
      apply (Hx p); set_solver.
  - rewrite app_assoc_reverse in H4 |- *. simpl in H4.
    apply NoDup_app in H4 as (Ha & Hb' & Hc).
    apply NoDup_cons in Hc as [Hc1 Hc2].
    apply NoDup_app. split_and!; [done| |done]. set_solver.
  - intros x Hx. destruct Hsd as (Hc & _ & Hs). unfold blk_in_heap.
    rewrite Hc. destruct (Hs x) as [-> _]. apply H5. set_solver.
  - rewrite !(sum_bytes_same_data w w') by done.
    destruct Hsd as (Hc & _). rewrite Hc.
    rewrite sum_bytes_app in H6 |- *. simpl in H6.
    assert (0 ≤ sz w b) by (apply H5; set_solver). el_lia.
Qed.

Lemma remove_used_spec w la l1 b l2 :
  lists_ok w la (l1 ++ b :: l2) →
  wp (el_remove_block used_actual b) (λ _ w',
    lists_ok w' la (l1 ++ l2) ∧ same_data w w' ∧
    (∀ p, p ∉ sentinels ++ la ++ (l1 ++ l2) → hdr w' p = hdr w p)) w.
Proof.
  intros [H1 H2 H3 H4 H5 H6].
  pose proof (heap_bytes_bound w H1) as Hb.
  assert (0 ≤ sum_bytes w la).
  { apply sum_bytes_nonneg. intros p Hp. apply H5. set_solver. }
  assert (Hnd : NoDup (l1 ++ b :: l2)) by (by apply NoDup_app in H4 as (_ & _ & ?)).
  eapply wp_mono.
  { apply (el_remove_block_spec w used_actual l1 b l2); try done.
    - eapply (nodup_with_sentinels w); try done.
      intros x Hx. apply H5. set_solver.
    - intros x Hx. split; [apply blk_in_heap_mapped|]; apply H5; set_solver.
    - lia. }
  simpl. intros _ w' (Hd & Hsd & Hfr & Hls).
  split_and!; [|done|]; cycle 1.
  { intros p Hp. apply Hfr. unfold sentinels in Hp. set_solver. }
  split.
  - destruct Hsd as (Hc & _). unfold ctl_ok. by rewrite Hc.
  - eapply (dll_other_frame w w' used_actual avail_actual (l1 ++ l2) la);
      try done.
    + intros x Hx. apply H5. set_solver.
    + intros p Hp Hin. apply NoDup_app in H4 as (_ & Hx & _).
      apply (Hx p); set_solver.
  - done.
  - apply NoDup_app in H4 as (Ha & Hb' & Hc).
    apply NoDup_app in Hc as (Hc1 & Hc2 & Hc3).
    apply NoDup_cons in Hc3 as [Hc3 Hc4].
    apply NoDup_app. split_and!; [done|set_solver|].
    apply NoDup_app. split_and!; [done|set_solver|done].
  - intros x Hx. destruct Hsd as (Hc & _ & Hs). unfold blk_in_heap.
    rewrite Hc. destruct (Hs x) as [-> _]. apply H5. set_solver.
  - rewrite !(sum_bytes_same_data w w') by done.
    destruct Hsd as (Hc & _). rewrite Hc.
    rewrite sum_bytes_app in H6 |- *. simpl in H6.
    assert (0 ≤ sz w b) by (apply H5; set_solver). el_lia.
Qed.

Lemma add_avail_spec w la lu b :
  lists_ok w la lu →
  b ∉ la ++ lu → blk_in_heap w b → 0 ≤ sz w b →
  sum_bytes w la + sum_bytes w lu + sz w b + EL_BLOCK_OVERHEAD
    ≤ heap_bytes (el_ctl w) →
  wp (el_add_block_front avail_actual b) (λ _ w',
    lists_ok w' (b :: la) lu ∧ same_data w w' ∧
    (∀ p, p ∉ sentinels ++ (b :: la) ++ lu → hdr w' p = hdr w p)) w.
Proof.
  intros [H1 H2 H3 H4 H5 H6] Hb Hbh Hb0 Hsum.
  pose proof (heap_bytes_bound w H1) as Hbd.
  assert (0 ≤ sum_bytes w lu).
  { apply sum_bytes_nonneg. intros p Hp. apply H5. set_solver. }
  assert (Hnd : NoDup la) by (by apply NoDup_app in H4 as (? & _)).
  eapply wp_mono.
  { apply (el_add_block_front_spec w avail_actual la b); try done.
    - eapply (nodup_with_sentinels w); try done.
      intros x Hx. apply H5. set_solver.
    - intros Hin.
      assert (Hc : b ∈ [beg_actual_of avail_actual; end_actual_of avail_actual]
                   ∨ b ∈ la) by set_solver.
      destruct Hc as [Hc|Hc]; [|set_solver].
      exact (sentinel_of_list w avail_actual b H1 eq_refl Hc Hbh).
    - by apply blk_in_heap_mapped.
    - intros x Hx. split; [apply blk_in_heap_mapped|]; apply H5; set_solver.
    - lia. }
  simpl. intros _ w' (Hd & Hsd & Hfr & Hls).
  split_and!; [|done|]; cycle 1.
  { intros p Hp. apply Hfr. unfold sentinels in Hp. set_solver. }
  split.
  - destruct Hsd as (Hc & _). unfold ctl_ok. by rewrite Hc.
  - done.
  - eapply (dll_other_frame w w' avail_actual used_actual (b :: la) lu);
      try done.
    + intros x Hx. apply elem_of_app in Hx as [Hx|Hx];
        [apply elem_of_cons in Hx as [->|Hx]|]; [done| |]; apply H5; set_solver.
    + intros p Hp Hin. apply NoDup_app in H4 as (_ & Hx & _).
      apply elem_of_cons in Hin as [->|Hin]; [set_solver|]. by apply (Hx p).
  - simpl. apply NoDup_cons. split; done.
  - intros x Hx. destruct Hsd as (Hc & _ & Hs). unfold blk_in_heap.
    rewrite Hc. destruct (Hs x) as [-> _].
    simpl in Hx. apply elem_of_cons in Hx as [->|Hx]; [done|]. by apply H5.
  - rewrite !(sum_bytes_same_data w w') by done.
    destruct Hsd as (Hc & _). rewrite Hc. simpl. lia.
Qed.

Lemma add_used_spec w la lu b :
  lists_ok w la lu →
  b ∉ la ++ lu → blk_in_heap w b → 0 ≤ sz w b →
  sum_bytes w la + sum_bytes w lu + sz w b + EL_BLOCK_OVERHEAD
    ≤ heap_bytes (el_ctl w) →
  wp (el_add_block_front used_actual b) (λ _ w',
    lists_ok w' la (b :: lu) ∧ same_data w w' ∧
    (∀ p, p ∉ sentinels ++ la ++ (b :: lu) → hdr w' p = hdr w p)) w.
Proof.
  intros [H1 H2 H3 H4 H5 H6] Hb Hbh Hb0 Hsum.
  pose proof (heap_bytes_bound w H1) as Hbd.
  assert (0 ≤ sum_bytes w la).
  { apply sum_bytes_nonneg. intros p Hp. apply H5. set_solver. }
  assert (Hnd : NoDup lu) by (by apply NoDup_app in H4 as (_ & _ & ?)).
  eapply wp_mono.
  { apply (el_add_block_front_spec w used_actual lu b); try done.
    - eapply (nodup_with_sentinels w); try done.
      intros x Hx. apply H5. set_solver.
    - intros Hin.
      assert (Hc : b ∈ [beg_actual_of used_actual; end_actual_of used_actual]
                   ∨ b ∈ lu) by set_solver.
      destruct Hc as [Hc|Hc]; [|set_solver].
      exact (sentinel_of_list w used_actual b H1 eq_refl Hc Hbh).
    - by apply blk_in_heap_mapped.
    - intros x Hx. split; [apply blk_in_heap_mapped|]; apply H5; set_solver.
    - lia. }
  simpl. intros _ w' (Hd & Hsd & Hfr & Hls).
  split_and!; [|done|]; cycle 1.
  { intros p Hp. apply Hfr. unfold sentinels in Hp. set_solver. }
  split.
  - destruct Hsd as (Hc & _). unfold ctl_ok. by rewrite Hc.
  - eapply (dll_other_frame w w' used_actual avail_actual (b :: lu) la);
      try done.
    + intros x Hx. apply elem_of_app in Hx as [Hx|Hx];
        [apply elem_of_cons in Hx as [->|Hx]|]; [done| |]; apply H5; set_solver.
    + intros p Hp Hin. apply NoDup_app in H4 as (_ & Hx & _).
      apply elem_of_cons in Hin as [->|Hin]; [set_solver|]. by apply (Hx p).
  - done.
  - apply NoDup_app in H4 as (Ha & Hb' & Hc).
    apply NoDup_app.
    split_and!; [done| |apply NoDup_cons; split; [set_solver|done]].
    intros x Hx Hin. apply elem_of_cons in Hin as [->|Hin]; [set_solver|].
    by apply (Hb' x).
  - intros x Hx. destruct Hsd as (Hc & _ & Hs). unfold blk_in_heap.
    rewrite Hc. destruct (Hs x) as [-> _].
    apply elem_of_app in Hx as [Hx|Hx];
      [|apply elem_of_cons in Hx as [->|Hx]]; [|done|]; apply H5; set_solver.
  - rewrite !(sum_bytes_same_data w w') by done.
    destruct Hsd as (Hc & _). rewrite Hc. simpl. lia.
Qed.

(** ** The blocks tile the heap *)

(** [B] is the set of block addresses.  Each block lies in the heap with a
    footer that mirrors its size, blocks do not overlap, above every block is
    a block or the end of the heap, below every block is a block or the start
    of the heap, and some block ends the heap. *)
Record tiling (w : world) (B : list Z) : Prop := {
  til_block : ∀ b, b ∈ B →
    heap_start (el_ctl w) ≤ b ∧ 0 ≤ sz w b ∧
    b + sz w b + EL_BLOCK_OVERHEAD ≤ heap_end (el_ctl w) ∧
    ft w (b + sizeof_blockhead + sz w b) = sz w b;
  til_disj : ∀ b b', b ∈ B → b' ∈ B → b < b' →
    b + sz w b + EL_BLOCK_OVERHEAD ≤ b';
  til_above : ∀ b, b ∈ B →
    b + sz w b + EL_BLOCK_OVERHEAD = heap_end (el_ctl w) ∨
    b + sz w b + EL_BLOCK_OVERHEAD ∈ B;
  til_below : ∀ b, b ∈ B →
    b = heap_start (el_ctl w) ∨
    ∃ p, p ∈ B ∧ p + sz w p + EL_BLOCK_OVERHEAD = b;
  til_top : ∃ t, t ∈ B ∧ t + sz w t + EL_BLOCK_OVERHEAD = heap_end (el_ctl w) }.

Lemma tiling_equiv w B B' :
  (∀ x, x ∈ B' ↔ x ∈ B) → tiling w B → tiling w B'.
Proof.
  intros HB [H1 H2 H3 H4 H5]. split.
  - intros b Hb. apply H1. by apply HB.
  - intros b b' Hb Hb'. apply H2; by apply HB.
  - intros b Hb. destruct (H3 b) as [?|?]; [by apply HB|by left|].
    right. by apply HB.
  - intros b Hb. destruct (H4 b) as [?|(p & Hp & ?)]; [by apply HB|by left|].
    right. exists p. split; [by apply HB|done].
  - destruct H5 as (t & Ht & ?). exists t. split; [by apply HB|done].
Qed.

Lemma tiling_same_data w w' B :
  same_data w w' → tiling w B → tiling w' B.
Proof.
  intros (Hc & Hf & Hs) [H1 H2 H3 H4 H5].
  assert (Hsz : ∀ p, sz w' p = sz w p) by (intros p; apply Hs).
  split.
  - intros b Hb. rewrite Hc, Hf, Hsz. by apply H1.
  - intros b b' Hb Hb'. rewrite Hsz. by apply H2.
  - intros b Hb. rewrite Hc, Hsz. by apply H3.
  - intros b Hb. rewrite Hc. destruct (H4 b Hb) as [?|(p & Hp & ?)]; [by left|].
    right. exists p. by rewrite Hsz.
  - destruct H5 as (t & Ht & ?). exists t. by rewrite Hc, Hsz.
Qed.

Lemma tiling_in_heap w B b :
  tiling w B → b ∈ B → blk_in_heap w b.
Proof.
  intros [H1 _ _ _ _] Hb. destruct (H1 b Hb) as (? & ? & ? & _).
  unfold blk_in_heap. el_lia.
Qed.

Lemma tiling_foot_mapped w B b :
  tiling w B → b ∈ B →
  foot_mapped w (b + sizeof_blockhead + sz w b) = true.
Proof.
  intros [H1 _ _ _ _] Hb. destruct (H1 b Hb) as (? & ? & ? & _).
  unfold foot_mapped, in_heap. apply andb_true_iff.
  split; apply Z.leb_le; el_lia.
Qed.

(** Two blocks that end at the same address are the same block. *)
Lemma tiling_end_inj w B b b' :
  tiling w B → b ∈ B → b' ∈ B →
  b + sz w b = b' + sz w b' → b = b'.
Proof.
  intros [H1 H2 _ _ _] Hb Hb' E.
  destruct (H1 b Hb) as (? & ? & _), (H1 b' Hb') as (? & ? & _).
  destruct (Z.lt_trichotomy b b') as [Hlt|[?|Hlt]]; [|done|].
  - specialize (H2 b b' Hb Hb' Hlt). el_lia.
  - specialize (H2 b' b Hb' Hb Hlt). el_lia.
Qed.

(** ** Address arithmetic between neighbours *)

Lemma el_get_footer_spec w b Q :
  ctl_ok w → blk_in_heap w b → 0 ≤ sz w b →
  b + sz w b + EL_BLOCK_OVERHEAD ≤ heap_end (el_ctl w) →
  Q (b + sizeof_blockhead + sz w b) w →
  wp (el_get_footer b) Q w.
Proof.
  intros (H1 & H2 & H3 & H4 & _) Hb Hs He HQ. unfold el_get_footer.
  wp_next; [by apply blk_in_heap_mapped|]. wp_next.
  destruct Hb. unfold PTR_PLUS_BYTES.
  rewrite (wrap_small (_ + sz w b)) by el_lia.
  rewrite wrap_small by el_lia.
  replace (b + (sizeof_blockhead + sz w b)) with (b + sizeof_blockhead + sz w b)
    by lia. done.
Qed.

Lemma el_block_above_raw w b Q :
  ctl_ok w → blk_in_heap w b → 0 ≤ sz w b →
  b + sz w b + EL_BLOCK_OVERHEAD ≤ heap_end (el_ctl w) →
  Q (if decide (b + sz w b + EL_BLOCK_OVERHEAD = heap_end (el_ctl w))
     then NULL else b + sz w b + EL_BLOCK_OVERHEAD) w →
  wp (el_block_above b) Q w.
Proof.
  intros (H1 & H2 & H3 & H4 & _) Hb Hs He HQ. unfold el_block_above.
  wp_next; [by apply blk_in_heap_mapped|]. wp_next.
  destruct Hb. unfold PTR_PLUS_BYTES.
  rewrite (wrap_small (sz w b + _)) by el_lia.
  rewrite wrap_small by el_lia.
  replace (b + (sz w b + EL_BLOCK_OVERHEAD)) with (b + sz w b + EL_BLOCK_OVERHEAD)
    by lia.
  case_decide as E.
  - rewrite E, Z.leb_refl. by wp_next.
  - destruct (Z.leb_spec (heap_end (el_ctl w)) (b + sz w b + EL_BLOCK_OVERHEAD));
      [lia|]. by wp_next.
Qed.

Lemma el_block_above_spec w B b Q :
  ctl_ok w → tiling w B → b ∈ B →
  Q (if decide (b + sz w b + EL_BLOCK_OVERHEAD = heap_end (el_ctl w))
     then NULL else b + sz w b + EL_BLOCK_OVERHEAD) w →
  wp (el_block_above b) Q w.
Proof.
  intros Hc Ht Hb HQ. pose proof (tiling_in_heap _ _ _ Ht Hb).
  destruct (til_block _ _ Ht b Hb) as (? & ? & ? & _).
  by apply el_block_above_raw.
Qed.

(** [el_block_below] reads the footer that ends just under [x], whatever
    [x] is. *)
Lemma el_block_below_raw w x Q :
  ctl_ok w →
  heap_start (el_ctl w) + sizeof_blockfoot < x → x ≤ heap_end (el_ctl w) →
  0 ≤ ft w (x - sizeof_blockfoot) →
  ft w (x - sizeof_blockfoot) + EL_BLOCK_OVERHEAD ≤ x →
  Q (x - (ft w (x - sizeof_blockfoot) + EL_BLOCK_OVERHEAD)) w →
  wp (el_block_below x) Q w.
Proof.
  intros (H1 & H2 & H3 & H4 & _) Hx1 Hx2 Hf1 Hf2 HQ. unfold el_block_below.
  unfold PTR_MINUS_BYTES. rewrite (wrap_small (x - _)) by el_lia.
  wp_next.
  destruct (Z.leb_spec (x - sizeof_blockfoot) (heap_start (el_ctl w))); [lia|].
  wp_next.
  { unfold foot_mapped, in_heap. apply andb_true_iff.
    split; apply Z.leb_le; el_lia. }
  wp_next. rewrite (wrap_small (ft _ _ + _)) by el_lia.
  rewrite wrap_small by el_lia. done.
Qed.

Lemma el_block_below_first w Q :
  ctl_ok w → Q NULL w → wp (el_block_below (heap_start (el_ctl w))) Q w.
Proof.
  intros (H1 & H2 & H3 & H4 & _) HQ. unfold el_block_below.
  unfold PTR_MINUS_BYTES. rewrite (wrap_small (_ - _)) by el_lia.
  wp_next.
  destruct (Z.leb_spec (heap_start (el_ctl w) - sizeof_blockfoot)
                       (heap_start (el_ctl w))); [|el_lia].
  by wp_next.
Qed.

Lemma el_block_below_spec w B b Q :
  ctl_ok w → tiling w B → b ∈ B →
  (b = heap_start (el_ctl w) → Q NULL w) →
  (∀ p, p ∈ B → p + sz w p + EL_BLOCK_OVERHEAD = b → Q p w) →
  wp (el_block_below b) Q w.
Proof.
  intros Hc Ht Hb HQ1 HQ2.
  destruct (til_below _ _ Ht b Hb) as [->|(p & Hp & E)].
  - apply el_block_below_first; auto.
  - destruct (til_block _ _ Ht p Hp) as (? & ? & ? & Hf).
    destruct (til_block _ _ Ht b Hb) as (? & ? & ? & _).
    assert (E' : b - sizeof_blockfoot = p + sizeof_blockhead + sz w p) by el_lia.
    assert (heap_start (el_ctl w) + sizeof_blockfoot < b) by el_lia.
    assert (b ≤ heap_end (el_ctl w)) by el_lia.
    assert (sz w p + EL_BLOCK_OVERHEAD ≤ b).
    { pose proof Hc as (Hs & _). el_lia. }
    apply el_block_below_raw; try done; rewrite ?E', ?Hf; try done.
    replace (b - (sz w p + EL_BLOCK_OVERHEAD)) with p by lia. by apply HQ2.
Qed.

(** ** The allocator invariant *)

(** Every block is on exactly one list, the free blocks on the available
    list and the allocated blocks on the used list, and the blocks tile the
    heap. *)
Record heap_ok (w : world) (la lu : list Z) : Prop := {
  ok_lists : lists_ok w la lu;
  ok_tiling : tiling w (la ++ lu);
  ok_avail : ∀ b, b ∈ la → st w b = EL_AVAILABLE;
  ok_used : ∀ b, b ∈ lu → st w b = EL_USED;
  ok_bytes : sum_bytes w la + sum_bytes w lu = heap_bytes (el_ctl w) }.

(** Two free blocks are neighbours only at the very top of the heap. *)
Definition top_pair_only (w : world) (la : list Z) : Prop :=
  ∀ b b', b ∈ la → b' ∈ la →
    b' = b + sz w b + EL_BLOCK_OVERHEAD →
    b' + sz w b' + EL_BLOCK_OVERHEAD = heap_end (el_ctl w).

Definition inv (w : world) : Prop :=
  ∃ la lu, heap_ok w la lu ∧ top_pair_only w la.

(** ** First fit *)

(** The first member of [l] that is available and large enough. *)
Fixpoint first_fit (w : world) (size : Z) (l : list Z) : Z :=
  match l with
  | [] => NULL
  | b :: l' =>
      if is_available (st w b) && (size <=? sz w b) then b
      else first_fit w size l'
  end.

Lemma find_first_avail_loop_spec w size l : ∀ a fuel,
  avail (el_ctl w) = avail_actual →
  l_end (lst w avail_actual) = end_actual_of avail_actual →
  chain (λ p, nx w p) (λ p, pv w p) a l (end_actual_of avail_actual) →
  end_actual_of avail_actual ∉ l →
  head_mapped w a = true →
  (∀ b, b ∈ l → head_mapped w b = true) →
  (length l < fuel)%nat →
  find_first_avail_loop fuel size a w = Ok (first_fit w size l) w.
Proof.
  induction l as [|b l IH]; intros a fuel Hav Hend Hch Hne Hma Hml Hfuel;
    (destruct fuel as [|fuel]; [simpl in Hfuel; lia|]); simpl in Hch.
  - destruct Hch as [Hn _]. simpl. unfold hdr, lst in *.
    unfold bind, rd, get_ctl, rd_list. rewrite Hma, Hav. simpl.
    rewrite Hend, Hn, Z.eqb_refl. done.
  - destruct Hch as (Hn & _ & Hch).
    assert (Hb : b ≠ end_actual_of avail_actual) by set_solver.
    assert (Hmb : head_mapped w b = true) by (apply Hml; set_solver).
    assert (Hrec : find_first_avail_loop fuel size b w
                   = Ok (first_fit w size l) w).
    { apply IH; try done; [set_solver|set_solver|simpl in Hfuel; lia]. }
    simpl. unfold hdr, lst in *.
    unfold bind, rd, get_ctl, rd_list. rewrite Hma, Hav. simpl.
    rewrite Hend, Hn.
    destruct (Z.eqb_spec b (end_actual_of avail_actual)); [done|].
    rewrite Hmb.
    destruct (is_available (h_state (heads w !!! b))); simpl; [|done].
    rewrite Hmb. destruct (size <=? h_size (heads w !!! b)); done.
Qed.

Lemma el_find_first_avail_spec w la lu fuel size :
  lists_ok w la lu → (length la < fuel)%nat →
  el_find_first_avail fuel size w = Ok (first_fit w size la) w.
Proof.
  intros [H1 H2 H3 H4 H5 H6] Hfuel.
  destruct H2 as [Hlst Hch].
  pose proof H1 as (_ & _ & _ & _ & Hav & _).
  unfold el_find_first_avail, bind, get_ctl, rd_list. rewrite Hav. simpl.
  change (lists w !!! avail_actual) with (lst w avail_actual).
  rewrite Hlst. simpl.
  apply find_first_avail_loop_spec; try done.
  - by rewrite Hlst.
  - intros Hin.
    apply (sentinel_of_list w avail_actual (end_actual_of avail_actual));
      [done|done|set_solver|]. apply H5. set_solver.
  - apply (list_sentinels_mapped w avail_actual eq_refl).
  - intros b Hb. apply blk_in_heap_mapped. apply H5. set_solver.
Qed.

(** What [first_fit] returns. *)
Lemma first_fit_cases w size l :
  (first_fit w size l = NULL ∧
   ∀ b, b ∈ l → ¬ (st w b = EL_AVAILABLE ∧ size ≤ sz w b)) ∨
  (∃ l1 b l2, l = l1 ++ b :: l2 ∧ first_fit w size l = b ∧
     st w b = EL_AVAILABLE ∧ size ≤ sz w b ∧
     ∀ x, x ∈ l1 → ¬ (st w x = EL_AVAILABLE ∧ size ≤ sz w x)).
Proof.
  induction l as [|b l IH]; simpl.
  - left. split; [done|]. intros b Hb. by apply elem_of_nil in Hb.
  - destruct (is_available (st w b) && (size <=? sz w b)) eqn:E.
    + right. exists [], b, l. apply andb_true_iff in E as [E1 E2].
      apply Z.leb_le in E2. split_and!; try done.
      * by destruct (st w b).
      * intros x Hx. by apply elem_of_nil in Hx.
    + assert (Hb : ¬ (st w b = EL_AVAILABLE ∧ size ≤ sz w b)).
      { intros [Hs Hz]. apply andb_false_iff in E as [E|E].
        - by rewrite Hs in E.
        - apply Z.leb_gt in E. lia. }
      destruct IH as [[IH1 IH2]|(l1 & c & l2 & -> & IH1 & IH2 & IH3 & IH4)].
      * left. split; [done|]. intros x Hx.
        apply elem_of_cons in Hx as [->|Hx]; auto.
      * right. exists (b :: l1), c, l2. split_and!; try done.
        intros x Hx. apply elem_of_cons in Hx as [->|Hx]; auto.
Qed.

(** ** Splitting *)

(** The memory after a split of the block [b] at [N]. *)
Definition split_world (w : world) (b N : Z) : world :=
  let S := sz w b in
  let r := b + N + EL_BLOCK_OVERHEAD in
  upd_foot (b + sizeof_blockhead + S) (S - N - EL_BLOCK_OVERHEAD)
    (upd_head r (set_state EL_AVAILABLE)
       (upd_head r (set_size (S - N - EL_BLOCK_OVERHEAD))
          (upd_foot (b + sizeof_blockhead + N) N
             (upd_head b (set_size N) w)))).

Lemma el_split_block_split w b N Q :
  ctl_ok w →
  heap_start (el_ctl w) ≤ b →
  b + sz w b + EL_BLOCK_OVERHEAD ≤ heap_end (el_ctl w) →
  0 ≤ N → N + EL_BLOCK_OVERHEAD ≤ sz w b →
  Q (b + N + EL_BLOCK_OVERHEAD) (split_world w b N) →
  wp (el_split_block b N) Q w.
Proof.
  intros Hc Hb1 Hb2 HN HS HQ.
  pose proof Hc as (H1 & H2 & H3 & H4 & _).
  assert (Hbh : blk_in_heap w b) by (unfold blk_in_heap; el_lia).
  assert (Hmb : head_mapped w b = true) by by apply blk_in_heap_mapped.
  set (r := b + N + EL_BLOCK_OVERHEAD).
  assert (Hrh : blk_in_heap w r) by (unfold blk_in_heap, r; el_lia).
  assert (Hmr : head_mapped w r = true) by by apply blk_in_heap_mapped.
  assert (Hbr : b ≠ r) by (unfold r; el_lia).
  assert (Hf1 : foot_mapped w (b + sizeof_blockhead + sz w b) = true).
  { unfold foot_mapped, in_heap. apply andb_true_iff.
    split; apply Z.leb_le; el_lia. }
  assert (Hf2 : foot_mapped w (b + sizeof_blockhead + N) = true).
  { unfold foot_mapped, in_heap. apply andb_true_iff.
    split; apply Z.leb_le; el_lia. }
  unfold el_split_block.
  wp_next. rewrite (wrap_small (N + _)) by el_lia.
  destruct (Z.ltb_spec (sz w b) (N + EL_BLOCK_OVERHEAD)); [lia|].
  apply wp_bind. apply el_get_footer_spec; try done; [el_lia|].
  wp_next. wp_next. apply wp_bind.
  apply el_get_footer_spec; autorewrite with el; dec_simpl; simpl;
    try done; [el_lia|].
  wp_next. apply wp_bind.
  apply el_block_above_raw; autorewrite with el; dec_simpl; simpl;
    try done; [el_lia|].
  rewrite decide_False by el_lia. fold r.
  rewrite wrap_small by el_lia.
  wp_next. wp_next. wp_next. wp_next. wp_next.
  unfold split_world in HQ. fold r in HQ.
  replace (sz w b - (N + EL_BLOCK_OVERHEAD)) with (sz w b - N - EL_BLOCK_OVERHEAD)
    by lia. done.
Qed.

Lemma el_split_block_refuse w b N :
  head_mapped w b = true →
  0 ≤ N → N + EL_BLOCK_OVERHEAD < SIZE_MODULUS →
  sz w b < N + EL_BLOCK_OVERHEAD →
  el_split_block b N w = Ok NULL w.
Proof.
  intros Hm HN Hov HS. unfold el_split_block, bind, rd. rewrite Hm.
  rewrite wrap_small by el_lia. fold (hdr w b).
  destruct (Z.ltb_spec (sz w b) (N + EL_BLOCK_OVERHEAD)); [done|lia].
Qed.

Lemma wp_bind_eq {A B} (c : M A) (k : A → M B) Q w a w' :
  c w = Ok a w' → wp (k a) Q w' → wp (bind c k) Q w.
Proof. intros E H. unfold wp, bind in *. by rewrite E. Qed.

(** The fields of the memory after a split. *)
Lemma split_world_ctl w b N : el_ctl (split_world w b N) = el_ctl w.
Proof. done. Qed.

Lemma split_world_lst w b N K : lst (split_world w b N) K = lst w K.
Proof. done. Qed.

Lemma split_world_sz w b N p :
  0 < N + EL_BLOCK_OVERHEAD →
  sz (split_world w b N) p =
    if decide (p = b + N + EL_BLOCK_OVERHEAD)
    then sz w b - N - EL_BLOCK_OVERHEAD
    else if decide (p = b) then N else sz w p.
Proof.
  intros HN. unfold split_world. autorewrite with el.
  repeat case_decide; subst; simpl; try done; lia.
Qed.

Lemma split_world_st w b N p :
  st (split_world w b N) p =
    if decide (p = b + N + EL_BLOCK_OVERHEAD) then EL_AVAILABLE else st w p.
Proof.
  unfold split_world. autorewrite with el.
  repeat case_decide; subst; simpl; try done.
Qed.

Lemma split_world_links w b N p :
  nx (split_world w b N) p = nx w p ∧ pv (split_world w b N) p = pv w p.
Proof. split; unfold split_world; hdr_cases. Qed.

Lemma split_world_ft w b N q :
  ft (split_world w b N) q =
    if decide (q = b + sizeof_blockhead + sz w b)
    then sz w b - N - EL_BLOCK_OVERHEAD
    else if decide (q = b + sizeof_blockhead + N) then N else ft w q.
Proof. unfold split_world. by autorewrite with el. Qed.

Lemma split_world_hdr w b N p :
  p ≠ b → p ≠ b + N + EL_BLOCK_OVERHEAD → hdr (split_world w b N) p = hdr w p.
Proof.
  intros H1 H2. unfold split_world. autorewrite with el.
  by rewrite !decide_False by done.
Qed.

(** Geometry: what the tiling depends on. *)
Definition same_geom (w w' : world) : Prop :=
  el_ctl w' = el_ctl w ∧ (∀ p, ft w' p = ft w p) ∧ (∀ p, sz w' p = sz w p).

Lemma same_data_geom w w' : same_data w w' → same_geom w w'.
Proof. intros (H1 & H2 & H3). split_and!; [done|done|]. intros p. apply H3. Qed.

Lemma tiling_same_geom w w' B :
  same_geom w w' → tiling w B → tiling w' B.
Proof.
  intros (Hc & Hf & Hsz) [H1 H2 H3 H4 H5].
  split.
  - intros b Hb. rewrite Hc, Hf, Hsz. by apply H1.
  - intros b b' Hb Hb'. rewrite Hsz. by apply H2.
  - intros b Hb. rewrite Hc, Hsz. by apply H3.
  - intros b Hb. rewrite Hc. destruct (H4 b Hb) as [?|(p & Hp & ?)]; [by left|].
    right. exists p. by rewrite Hsz.
  - destruct H5 as (t & Ht & ?). exists t. by rewrite Hc, Hsz.
Qed.

Lemma tiling_split w w' B b N :
  tiling w B → b ∈ B → 0 ≤ N → N + EL_BLOCK_OVERHEAD ≤ sz w b →
  el_ctl w' = el_ctl w →
  (∀ p, sz w' p = if decide (p = b + N + EL_BLOCK_OVERHEAD)
                  then sz w b - N - EL_BLOCK_OVERHEAD
                  else if decide (p = b) then N else sz w p) →
  (∀ q, ft w' q = if decide (q = b + sizeof_blockhead + sz w b)
                  then sz w b - N - EL_BLOCK_OVERHEAD
                  else if decide (q = b + sizeof_blockhead + N) then N
                  else ft w q) →
  tiling w' ((b + N + EL_BLOCK_OVERHEAD) :: B).
Proof.
  intros [H1 H2 H3 H4 H5] Hb HN HS Hc Hsz Hft.
  set (r := b + N + EL_BLOCK_OVERHEAD) in *.
  destruct (H1 b Hb) as (Hb1 & Hb2 & Hb3 & Hb4).
  assert (Hr : ∀ p, p ∈ B → p ≠ r).
  { intros p Hp ->. destruct (Z.lt_trichotomy b r) as [Hlt|[?|Hlt]];
      [|unfold r in *; el_lia|unfold r in *; el_lia].
    pose proof (H2 b r Hb Hp Hlt). unfold r in *. el_lia. }
  assert (Hszr : sz w' r = sz w b - N - EL_BLOCK_OVERHEAD).
  { rewrite Hsz. by rewrite decide_True. }
  assert (Hszb : sz w' b = N).
  { rewrite Hsz. rewrite decide_False by (unfold r; el_lia).
    by rewrite decide_True. }
  assert (Hszo : ∀ p, p ∈ B → p ≠ b → sz w' p = sz w p).
  { intros p Hp Hne. rewrite Hsz. rewrite decide_False by by apply Hr.
    by rewrite decide_False. }
  split.
  - intros p Hp. rewrite Hc. apply elem_of_cons in Hp as [->|Hp].
    + rewrite Hszr, Hft. rewrite decide_True by (unfold r; el_lia).
      unfold r. el_lia.
    + destruct (decide (p = b)) as [->|Hne].
      * rewrite Hszb, Hft. rewrite decide_False by el_lia.
        rewrite decide_True by done. el_lia.
      * rewrite (Hszo p Hp Hne), Hft.
        destruct (H1 p Hp) as (? & ? & ? & ?).
        assert (p + sz w p ≠ b + sz w b).
        { intros E. apply Hne. by eapply tiling_end_inj. }
        destruct (Z.lt_trichotomy p b) as [Hlt|[?|Hlt]]; [|done|].
        -- pose proof (H2 p b Hp Hb Hlt).
           rewrite !decide_False by el_lia. done.
        -- pose proof (H2 b p Hb Hp Hlt).
           rewrite !decide_False by el_lia. done.
  - intros p p' Hp Hp' Hlt.
    apply elem_of_cons in Hp as [->|Hp]; apply elem_of_cons in Hp' as [->|Hp'].
    + lia.
    + rewrite Hszr. destruct (decide (p' = b)) as [->|Hne];
        [unfold r in *; el_lia|].
      destruct (Z.lt_trichotomy p' b) as [Hlt'|[?|Hlt']]; [|done|].
      * pose proof (H2 p' b Hp' Hb Hlt'). destruct (H1 p' Hp') as (? & ? & ? & ?).
        unfold r in *. el_lia.
      * pose proof (H2 b p' Hb Hp' Hlt'). unfold r in *. el_lia.
    + destruct (decide (p = b)) as [->|Hne]; [rewrite Hszb; unfold r; lia|].
      rewrite (Hszo p Hp Hne).
      destruct (Z.lt_trichotomy p b) as [Hlt'|[?|Hlt']]; [|done|].
      * pose proof (H2 p b Hp Hb Hlt'). unfold r in *. el_lia.
      * pose proof (H2 b p Hb Hp Hlt'). unfold r in *. el_lia.
    + destruct (decide (p = b)) as [->|Hne].
      * rewrite Hszb. pose proof (H2 b p' Hb Hp' Hlt). el_lia.
      * rewrite (Hszo p Hp Hne). by apply H2.
  - intros p Hp. rewrite Hc. apply elem_of_cons in Hp as [->|Hp].
    + rewrite Hszr. destruct (H3 b Hb) as [E|E].
      * left. unfold r. el_lia.
      * right. replace (r + _ + _) with (b + sz w b + EL_BLOCK_OVERHEAD)
          by (unfold r; lia). set_solver.
    + destruct (decide (p = b)) as [->|Hne].
      * rewrite Hszb. right. fold r. set_solver.
      * rewrite (Hszo p Hp Hne). destruct (H3 p Hp); [by left|right; set_solver].
  - intros p Hp. rewrite Hc. apply elem_of_cons in Hp as [->|Hp].
    + right. exists b. rewrite Hszb. split; [set_solver|done].
    + destruct (H4 p Hp) as [?|(q & Hq & E)]; [by left|]. right.
      destruct (decide (q = b)) as [->|Hne].
      * exists r. rewrite Hszr. split; [set_solver|]. unfold r. lia.
      * exists q. rewrite (Hszo q Hq Hne). split; [set_solver|done].
  - rewrite Hc. destruct H5 as (t & Ht & E).
    destruct (decide (t = b)) as [->|Hne].
    + exists r. rewrite Hszr. split; [set_solver|]. unfold r. lia.
    + exists t. rewrite (Hszo t Ht Hne). split; [set_solver|done].
Qed.

(** ** Allocation *)

Lemma heap_ok_block w la lu b :
  heap_ok w la lu → b ∈ la ++ lu →
  blk_in_heap w b ∧ 0 ≤ sz w b ∧
  b + sz w b + EL_BLOCK_OVERHEAD ≤ heap_end (el_ctl w) ∧ b ≠ NULL.
Proof.
  intros [Hl Ht _ _ _] Hb.
  destruct (til_block _ _ Ht b Hb) as (? & ? & ? & _).
  pose proof (lo_ctl _ _ _ Hl) as (Hs & _).
  split_and!; [by eapply tiling_in_heap|done|done|el_lia].
Qed.

Lemma tiling_inside_fresh w B b r :
  tiling w B → b ∈ B → b < r → r < b + sz w b + EL_BLOCK_OVERHEAD → r ∉ B.
Proof.
  intros Ht Hb H1 H2 Hr.
  pose proof (til_disj _ _ Ht b r Hb Hr H1). lia.
Qed.

Lemma el_malloc_split w la lu l1 b l2 fuel n :
  heap_ok w la lu → la = l1 ++ b :: l2 → first_fit w n la = b →
  0 ≤ n → n + EL_BLOCK_OVERHEAD ≤ sz w b → (length la < fuel)%nat →
  ∃ w', el_malloc fuel n w = Ok (b + sizeof_blockhead) w' ∧
    heap_ok w' ((b + n + EL_BLOCK_OVERHEAD) :: l1 ++ l2) (b :: lu) ∧
    el_ctl w' = el_ctl w ∧
    (∀ p, sz w' p = if decide (p = b + n + EL_BLOCK_OVERHEAD)
                    then sz w b - n - EL_BLOCK_OVERHEAD
                    else if decide (p = b) then n else sz w p) ∧
    (∀ p, st w' p = if decide (p = b + n + EL_BLOCK_OVERHEAD)
                    then EL_AVAILABLE
                    else if decide (p = b) then EL_USED else st w p) ∧
    (∀ q, ft w' q = if decide (q = b + sizeof_blockhead + sz w b)
                    then sz w b - n - EL_BLOCK_OVERHEAD
                    else if decide (q = b + sizeof_blockhead + n) then n
                    else ft w q).
Proof.
  intros Hok -> Hff Hn HS Hfuel.
  pose proof Hok as [Hl Ht Hsa Hsu Hby].
  pose proof (lo_ctl _ _ _ Hl) as Hc.
  pose proof Hc as (Hc1 & Hc2 & Hc3 & Hc4 & Hc5 & Hc6).
  assert (Hb : b ∈ (l1 ++ b :: l2) ++ lu) by set_solver +.
  destruct (heap_ok_block _ _ _ _ Hok Hb) as (Hbh & Hb0 & Hbe & HbN).
  pose proof Hbh as [Hbh1 Hbh2].
  set (r := b + n + EL_BLOCK_OVERHEAD) in *.
  assert (Hbr : b ≠ r) by (unfold r; el_lia).
  assert (HrB : r ∉ (l1 ++ b :: l2) ++ lu).
  { eapply tiling_inside_fresh; [done|done|unfold r; el_lia..]. }
  assert (HbB : b ∉ (l1 ++ l2) ++ lu).
  { pose proof (lo_nodup _ _ _ Hl) as Hnd.
    rewrite <- app_assoc in Hnd. apply NoDup_app in Hnd as (_ & Hd1 & Hnd).
    simpl in Hnd. apply NoDup_cons in Hnd as [Hd2 _].
    intros Hin. rewrite <- app_assoc in Hin.
    apply elem_of_app in Hin as [Hin|Hin]; [|done].
    apply (Hd1 b Hin). set_solver +. }
  assert (Hrh : blk_in_heap w r) by (destruct Hbh; unfold blk_in_heap, r; el_lia).
  assert (Hsum : sum_bytes w (l1 ++ b :: l2) =
                 sum_bytes w (l1 ++ l2) + sz w b + EL_BLOCK_OVERHEAD).
  { rewrite !sum_bytes_app. simpl. lia. }
  cut (wp (el_malloc fuel n) (λ a w', a = b + sizeof_blockhead ∧
    heap_ok w' (r :: l1 ++ l2) (b :: lu) ∧
    el_ctl w' = el_ctl w ∧
    (∀ p, sz w' p = if decide (p = r)
                    then sz w b - n - EL_BLOCK_OVERHEAD
                    else if decide (p = b) then n else sz w p) ∧
    (∀ p, st w' p = if decide (p = r)
                    then EL_AVAILABLE
                    else if decide (p = b) then EL_USED else st w p) ∧
    (∀ q, ft w' q = if decide (q = b + sizeof_blockhead + sz w b)
                    then sz w b - n - EL_BLOCK_OVERHEAD
                    else if decide (q = b + sizeof_blockhead + n) then n
                    else ft w q)) w).
  { intros H. apply wp_elim in H as (a & w' & E & -> & H). by exists w'. }
  unfold el_malloc.
  eapply wp_bind_eq; [by eapply el_find_first_avail_spec|]. rewrite Hff.
  destruct (Z.eqb_spec b NULL); [done|].
  wp_next. rewrite Hc5.
  apply wp_bind. eapply wp_mono; [by apply remove_avail_spec|].
  cbv beta. intros _ w1 (Hl1 & Hd1 & Hf1).
  pose proof Hd1 as (Hctl1 & Hft1 & Hdat1).
  assert (Hsz1 : ∀ p, sz w1 p = sz w p) by (intros p; apply Hdat1).
  assert (Hst1 : ∀ p, st w1 p = st w p) by (intros p; apply Hdat1).
  assert (Hc' : ctl_ok w1) by (by apply (lo_ctl _ _ _ Hl1)).
  apply wp_bind. apply el_split_block_split; rewrite ?Hctl1, ?Hsz1; try done.
  fold r. set (w2 := split_world w1 b n).
  assert (Hsz2 : ∀ p, sz w2 p = if decide (p = r)
                    then sz w b - n - EL_BLOCK_OVERHEAD
                    else if decide (p = b) then n else sz w p).
  { intros p. unfold w2. rewrite split_world_sz by el_lia. fold r.
    by rewrite !Hsz1. }
  assert (Hst2 : ∀ p, st w2 p = if decide (p = r) then EL_AVAILABLE
                                else st w p).
  { intros p. unfold w2. rewrite split_world_st. fold r. by rewrite Hst1. }
  assert (Hft2 : ∀ q, ft w2 q =
                    if decide (q = b + sizeof_blockhead + sz w b)
                    then sz w b - n - EL_BLOCK_OVERHEAD
                    else if decide (q = b + sizeof_blockhead + n) then n
                    else ft w q).
  { intros q. unfold w2. rewrite split_world_ft. by rewrite Hsz1, Hft1. }
  assert (Hl2 : lists_ok w2 (l1 ++ l2) lu).
  { eapply lists_ok_frame; [done|done|done|].
    intros p Hp. apply split_world_hdr.
    - intros ->. apply elem_of_app in Hp as [Hp|Hp]; [|done].
      by apply (not_sentinel w b Hc Hbh).
    - fold r. intros ->. apply elem_of_app in Hp as [Hp|Hp].
      + by apply (not_sentinel w r Hc Hrh).
      + apply HrB. set_solver + Hp. }
  destruct (Z.eqb_spec r NULL) as [E|_]; [unfold r in E; el_lia|].
  apply wp_bind. wp_next. change (el_ctl w2) with (el_ctl w1).
  rewrite Hctl1, Hc5.
  assert (Hs2 : ∀ l, r ∉ l → b ∉ l → sum_bytes w2 l = sum_bytes w l).
  { intros l Hr' Hb'. apply sum_bytes_frame. intros p Hp. rewrite Hsz2.
    rewrite !decide_False; [done|set_solver + Hp Hr' Hb'..]. }
  eapply wp_mono.
  { apply (add_avail_spec w2 (l1 ++ l2) lu r); try done.
    - set_solver + HrB.
    - unfold blk_in_heap. change (el_ctl w2) with (el_ctl w1). by rewrite Hctl1.
    - rewrite Hsz2. rewrite decide_True by done. el_lia.
    - change (el_ctl w2) with (el_ctl w1). rewrite Hctl1.
      rewrite !Hs2 by set_solver + HrB HbB. rewrite Hsz2, decide_True by done. el_lia. }
  cbv beta. intros _ w3 (Hl3 & Hd3 & Hf3).
  pose proof Hd3 as (Hctl3 & Hft3 & Hdat3).
  assert (Hsz3 : ∀ p, sz w3 p = sz w2 p) by (intros p; apply Hdat3).
  assert (Hst3 : ∀ p, st w3 p = st w2 p) by (intros p; apply Hdat3).
  assert (Hctl3' : el_ctl w3 = el_ctl w).
  { rewrite Hctl3. change (el_ctl w2) with (el_ctl w1). done. }
  wp_next.
  { rewrite (head_mapped_ctl w w3) by done. by apply blk_in_heap_mapped. }
  set (w4 := upd_head b (set_state EL_USED) w3).
  assert (Hl4 : lists_ok w4 (r :: l1 ++ l2) lu).
  { eapply lists_ok_frame; [done|done|done|].
    intros p Hp. unfold w4. rewrite hdr_upd_head. rewrite decide_False; [done|].
    intros ->. apply elem_of_app in Hp as [Hp|Hp].
    - by apply (not_sentinel w b Hc Hbh).
    - simpl in Hp. apply elem_of_cons in Hp as [?|Hp]; [done|].
      apply HbB. done. }
  wp_next. rewrite Hctl3', Hc6.
  assert (Hsz4 : ∀ p, sz w4 p = sz w2 p).
  { intros p. unfold w4. rewrite hdr_upd_head. case_decide; subst; simpl; done. }
  assert (Hs4 : ∀ l, r ∉ l → b ∉ l → sum_bytes w4 l = sum_bytes w l).
  { intros l Hr' Hb'. rewrite <- Hs2 by done. apply sum_bytes_frame.
    intros p _. apply Hsz4. }
  apply wp_bind. eapply wp_mono.
  { apply (add_used_spec w4 (r :: l1 ++ l2) lu b); try done.
    - simpl. intros Hin. apply elem_of_cons in Hin as [?|Hin]; done.
    - unfold blk_in_heap. change (el_ctl w4) with (el_ctl w3).
      rewrite Hctl3'. done.
    - rewrite Hsz4, Hsz2. rewrite decide_False by done.
      rewrite decide_True by done. done.
    - change (el_ctl w4) with (el_ctl w3). rewrite Hctl3'.
      simpl sum_bytes. rewrite !Hs4 by set_solver + HrB HbB.
      rewrite !Hsz4, !Hsz2. rewrite (decide_True (P := r = r)) by done.
      rewrite (decide_False (P := b = r)) by done.
      rewrite (decide_True (P := b = b)) by done. el_lia. }
  cbv beta. intros _ w5 (Hl5 & Hd5 & Hf5).
  pose proof Hd5 as (Hctl5 & Hft5 & Hdat5).
  assert (Hsz5 : ∀ p, sz w5 p = sz w2 p).
  { intros p. destruct (Hdat5 p) as [-> _]. apply Hsz4. }
  assert (Hst5 : ∀ p, st w5 p = if decide (p = b) then EL_USED else st w2 p).
  { intros p. destruct (Hdat5 p) as [_ ->]. unfold w4. rewrite hdr_upd_head.
    case_decide; simpl; [done|]. apply Hst3. }
  assert (Hctl5' : el_ctl w5 = el_ctl w).
  { rewrite Hctl5. done. }
  wp_next. unfold PTR_PLUS_BYTES. rewrite wrap_small by (destruct Hbh; el_lia).
  split_and!; try done.
  - split.
    + done.
    + eapply tiling_equiv; cycle 1.
      * eapply (tiling_split w w5 _ b n); try done.
        -- intros p. rewrite Hsz5. apply Hsz2.
        -- intros q. rewrite Hft5. unfold w4. rewrite ft_upd_head, Hft3.
           apply Hft2.
      * fold r. set_solver +.
    + intros p Hp. rewrite Hst5, Hst2.
      apply elem_of_cons in Hp as [->|Hp].
      * rewrite decide_False by done. by rewrite decide_True.
      * rewrite !decide_False; [apply Hsa; set_solver + Hp|set_solver + Hp HrB HbB..].
    + intros p Hp. rewrite Hst5, Hst2.
      apply elem_of_cons in Hp as [->|Hp].
      * by rewrite decide_True.
      * rewrite !decide_False; [by apply Hsu|set_solver + Hp HrB HbB..].
    + rewrite Hctl5'. rewrite <- Hby, Hsum. simpl sum_bytes.
      assert (Hs5 : ∀ l, r ∉ l → b ∉ l → sum_bytes w5 l = sum_bytes w l).
      { intros l Hr' Hb'. rewrite <- Hs4 by done. apply sum_bytes_frame.
        intros p _. apply Hdat5. }
      rewrite !Hs5 by set_solver + HrB HbB. rewrite !Hsz5, !Hsz2.
      rewrite (decide_True (P := r = r)) by done.
      rewrite (decide_False (P := b = r)) by done.
      rewrite (decide_True (P := b = b)) by done. el_lia.
  - intros p. rewrite Hsz5. apply Hsz2.
  - intros p. rewrite Hst5, Hst2. repeat case_decide; try done; congruence.
  - intros q. rewrite Hft5. unfold w4. rewrite ft_upd_head, Hft3. apply Hft2.
Qed.

Lemma el_malloc_nosplit w la lu l1 b l2 fuel n :
  heap_ok w la lu → la = l1 ++ b :: l2 → first_fit w n la = b →
  0 ≤ n → n ≤ sz w b → sz w b < n + EL_BLOCK_OVERHEAD →
  (length la < fuel)%nat →
  ∃ w', el_malloc fuel n w = Ok (b + sizeof_blockhead) w' ∧
    heap_ok w' (l1 ++ l2) (b :: lu) ∧
    el_ctl w' = el_ctl w ∧
    (∀ p, sz w' p = sz w p) ∧
    (∀ p, st w' p = if decide (p = b) then EL_USED else st w p) ∧
    (∀ q, ft w' q = ft w q).
Proof.
  intros Hok -> Hff Hn Hle HS Hfuel.
  pose proof Hok as [Hl Ht Hsa Hsu Hby].
  pose proof (lo_ctl _ _ _ Hl) as Hc.
  pose proof Hc as (Hc1 & Hc2 & Hc3 & Hc4 & Hc5 & Hc6).
  assert (Hb : b ∈ (l1 ++ b :: l2) ++ lu) by set_solver +.
  destruct (heap_ok_block _ _ _ _ Hok Hb) as (Hbh & Hb0 & Hbe & HbN).
  pose proof Hbh as [Hbh1 Hbh2].
  assert (HbB : b ∉ (l1 ++ l2) ++ lu).
  { pose proof (lo_nodup _ _ _ Hl) as Hnd.
    rewrite <- app_assoc in Hnd. apply NoDup_app in Hnd as (_ & Hd1 & Hnd).
    simpl in Hnd. apply NoDup_cons in Hnd as [Hd2 _].
    intros Hin. rewrite <- app_assoc in Hin.
    apply elem_of_app in Hin as [Hin|Hin]; [|done].
    apply (Hd1 b Hin). set_solver +. }
  assert (Hsum : sum_bytes w (l1 ++ b :: l2) =
                 sum_bytes w (l1 ++ l2) + sz w b + EL_BLOCK_OVERHEAD).
  { rewrite !sum_bytes_app. simpl. lia. }
  cut (wp (el_malloc fuel n) (λ a w', a = b + sizeof_blockhead ∧
    heap_ok w' (l1 ++ l2) (b :: lu) ∧
    el_ctl w' = el_ctl w ∧
    (∀ p, sz w' p = sz w p) ∧
    (∀ p, st w' p = if decide (p = b) then EL_USED else st w p) ∧
    (∀ q, ft w' q = ft w q)) w).
  { intros H. apply wp_elim in H as (a & w' & E & -> & H). by exists w'. }
  unfold el_malloc.
  eapply wp_bind_eq; [by eapply el_find_first_avail_spec|]. rewrite Hff.
  destruct (Z.eqb_spec b NULL); [done|].
  wp_next. rewrite Hc5.
  apply wp_bind. eapply wp_mono; [by apply remove_avail_spec|].
  cbv beta. intros _ w1 (Hl1 & Hd1 & Hf1).
  pose proof Hd1 as (Hctl1 & Hft1 & Hdat1).
  assert (Hsz1 : ∀ p, sz w1 p = sz w p) by (intros p; apply Hdat1).
  assert (Hst1 : ∀ p, st w1 p = st w p) by (intros p; apply Hdat1).
  assert (Hmb1 : head_mapped w1 b = true).
  { rewrite (head_mapped_ctl w w1) by done. by apply blk_in_heap_mapped. }
  eapply wp_bind_eq.
  { apply el_split_block_refuse; rewrite ?Hsz1; try done. el_lia. }
  rewrite Z.eqb_refl. apply wp_bind. wp_next. wp_next.
  set (w4 := upd_head b (set_state EL_USED) w1).
  assert (Hl4 : lists_ok w4 (l1 ++ l2) lu).
  { eapply lists_ok_frame; [done|done|done|].
    intros p Hp. unfold w4. rewrite hdr_upd_head. rewrite decide_False; [done|].
    intros ->. apply elem_of_app in Hp as [Hp|Hp]; [|done].
    by apply (not_sentinel w b Hc Hbh). }
  wp_next. rewrite Hctl1, Hc6.
  assert (Hsz4 : ∀ p, sz w4 p = sz w p).
  { intros p. unfold w4. rewrite hdr_upd_head. case_decide; subst; simpl; done. }
  assert (Hs4 : ∀ l, sum_bytes w4 l = sum_bytes w l).
  { intros l. apply sum_bytes_frame. intros p _. apply Hsz4. }
  apply wp_bind. eapply wp_mono.
  { apply (add_used_spec w4 (l1 ++ l2) lu b); try done.
    - unfold blk_in_heap. change (el_ctl w4) with (el_ctl w1).
      rewrite Hctl1. done.
    - by rewrite Hsz4.
    - change (el_ctl w4) with (el_ctl w1). rewrite Hctl1.
      rewrite !Hs4, Hsz4. lia. }
  cbv beta. intros _ w5 (Hl5 & Hd5 & Hf5).
  pose proof Hd5 as (Hctl5 & Hft5 & Hdat5).
  assert (Hsz5 : ∀ p, sz w5 p = sz w p).
  { intros p. destruct (Hdat5 p) as [-> _]. apply Hsz4. }
  assert (Hst5 : ∀ p, st w5 p = if decide (p = b) then EL_USED else st w p).
  { intros p. destruct (Hdat5 p) as [_ ->]. unfold w4. rewrite hdr_upd_head.
    case_decide; simpl; [done|]. apply Hst1. }
  assert (Hctl5' : el_ctl w5 = el_ctl w).
  { rewrite Hctl5. done. }
  assert (Hft5' : ∀ q, ft w5 q = ft w q).
  { intros q. rewrite Hft5. unfold w4. rewrite ft_upd_head. apply Hft1. }
  wp_next. unfold PTR_PLUS_BYTES. rewrite wrap_small by el_lia.
  split_and!; try done.
  split.
  - done.
  - eapply tiling_equiv; cycle 1.
    + eapply (tiling_same_geom w w5); [|done]. done.
    + set_solver +.
  - intros p Hp. rewrite Hst5.
    rewrite decide_False; [apply Hsa; set_solver + Hp|]. set_solver + Hp HbB.
  - intros p Hp. rewrite Hst5.
    apply elem_of_cons in Hp as [->|Hp].
    + by rewrite decide_True.
    + rewrite decide_False; [by apply Hsu|set_solver + Hp HbB].
  - rewrite Hctl5'. rewrite <- Hby, Hsum. simpl sum_bytes.
    assert (Hs5 : ∀ l, sum_bytes w5 l = sum_bytes w l).
    { intros l. apply sum_bytes_frame. intros p _. apply Hsz5. }
    rewrite !Hs5, Hsz5. lia.
Qed.

Lemma el_malloc_none w la lu fuel n :
  lists_ok w la lu → first_fit w n la = NULL → (length la < fuel)%nat →
  el_malloc fuel n w = Ok NULL w.
Proof.
  intros Hl Hff Hfuel. unfold el_malloc, bind.
  rewrite (el_find_first_avail_spec w la lu) by done. by rewrite Hff.
Qed.

(** ** Coalescing *)

Lemma tiling_merge w w' B B' x h :
  tiling w B → x ∈ B → h ∈ B → h = x + sz w x + EL_BLOCK_OVERHEAD →
  (∀ p, p ∈ B' ↔ p ∈ B ∧ p ≠ h) →
  el_ctl w' = el_ctl w →
  (∀ p, sz w' p = if decide (p = x)
                  then sz w x + sz w h + EL_BLOCK_OVERHEAD else sz w p) →
  (∀ q, ft w' q = if decide (q = h + sizeof_blockhead + sz w h)
                  then sz w x + sz w h + EL_BLOCK_OVERHEAD else ft w q) →
  tiling w' B'.
Proof.
  intros [H1 H2 H3 H4 H5] Hx Hh Hxh HB Hc Hsz Hft.
  destruct (H1 x Hx) as (Hx1 & Hx2 & Hx3 & Hx4).
  destruct (H1 h Hh) as (Hh1 & Hh2 & Hh3 & Hh4).
  assert (Hxneh : x ≠ h) by el_lia.
  assert (Hszx : sz w' x = sz w x + sz w h + EL_BLOCK_OVERHEAD).
  { rewrite Hsz. by rewrite decide_True. }
  assert (Hszo : ∀ p, p ≠ x → sz w' p = sz w p).
  { intros p Hne. rewrite Hsz. by rewrite decide_False. }
  assert (HxB' : x ∈ B') by (apply HB; done).
  split.
  - intros p Hp. apply HB in Hp as [Hp Hne]. rewrite Hc.
    destruct (decide (p = x)) as [->|Hnx].
    + rewrite Hszx, Hft. rewrite decide_True by el_lia. el_lia.
    + rewrite (Hszo p Hnx), Hft. destruct (H1 p Hp) as (? & ? & ? & ?).
      rewrite decide_False; [done|].
      intros E. apply Hne. eapply tiling_end_inj; [done..|]. el_lia.
  - intros p p' Hp Hp' Hlt.
    apply HB in Hp as [Hp Hne]. apply HB in Hp' as [Hp' Hne'].
    destruct (decide (p = x)) as [->|Hnx].
    + rewrite Hszx.
      assert (h < p').
      { pose proof (H2 x p' Hx Hp' Hlt). el_lia. }
      pose proof (H2 h p' Hh Hp' ltac:(done)). el_lia.
    + rewrite (Hszo p Hnx). by apply H2.
  - intros p Hp. apply HB in Hp as [Hp Hne]. rewrite Hc.
    destruct (decide (p = x)) as [->|Hnx].
    + rewrite Hszx. destruct (H3 h Hh) as [E|E]; [left; el_lia|].
      right. apply HB.
      replace (x + _ + _) with (h + sz w h + EL_BLOCK_OVERHEAD) by el_lia.
      split; [done|el_lia].
    + rewrite (Hszo p Hnx). destruct (H3 p Hp) as [E|E]; [by left|].
      right. apply HB. split; [done|]. intros E'. apply Hnx.
      eapply tiling_end_inj; [done..|]. el_lia.
  - intros p Hp. apply HB in Hp as [Hp Hne]. rewrite Hc.
    destruct (H4 p Hp) as [?|(q & Hq & E)]; [by left|]. right.
    destruct (decide (q = h)) as [->|Hnh].
    + exists x. rewrite Hszx. split; [done|el_lia].
    + destruct (decide (q = x)) as [->|Hnx]; [el_lia|].
      exists q. rewrite (Hszo q Hnx). split; [|done]. by apply HB.
  - rewrite Hc. destruct H5 as (t & Ht & E).
    destruct (decide (t = h)) as [->|Hnh].
    + exists x. rewrite Hszx. split; [done|el_lia].
    + destruct (decide (t = x)) as [->|Hnx]; [el_lia|].
      exists t. rewrite (Hszo t Hnx). split; [|done]. by apply HB.
Qed.

(** The state after [lower = x] has absorbed [higher = h]. *)
Definition merged (w : world) (la lu : list Z) (x h : Z)
    (w' : world) (la' : list Z) : Prop :=
  heap_ok w' la' lu ∧
  (∀ p, p ∈ la' ↔ p ∈ la ∧ p ≠ h) ∧
  el_ctl w' = el_ctl w ∧
  (∀ p, sz w' p = if decide (p = x)
                  then sz w x + sz w h + EL_BLOCK_OVERHEAD else sz w p) ∧
  (∀ p, st w' p = st w p) ∧
  (∀ q, ft w' q = if decide (q = h + sizeof_blockhead + sz w h)
                  then sz w x + sz w h + EL_BLOCK_OVERHEAD else ft w q).

Lemma elem_of_split_two (l : list Z) (a b : Z) :
  a ∈ l → b ∈ l → a ≠ b →
  ∃ l1 l2 l3 l4, l = l1 ++ a :: l2 ∧ l1 ++ l2 = l3 ++ b :: l4.
Proof.
  intros Ha Hb Hne.
  apply list_elem_of_split in Ha as (l1 & l2 & ->).
  assert (Hb' : b ∈ l1 ++ l2) by set_solver.
  apply list_elem_of_split in Hb' as (l3 & l4 & E).
  by exists l1, l2, l3, l4.
Qed.

Lemma merge_with_higher_avail w la lu x h self Q :
  heap_ok w la lu → x ∈ la → h ∈ la →
  h = x + sz w x + EL_BLOCK_OVERHEAD →
  (∀ w' la', merged w la lu x h w' la' → wp (self x) Q w') →
  wp (merge_with_higher self x h) Q w.
Proof.
  intros Hok Hx Hh Hxh HQ.
  pose proof Hok as [Hl Ht Hsa Hsu Hby].
  pose proof (lo_ctl _ _ _ Hl) as Hc.
  pose proof Hc as (Hc1 & Hc2 & Hc3 & Hc4 & Hc5 & Hc6).
  assert (HxA : x ∈ la ++ lu) by set_solver + Hx.
  assert (HhA : h ∈ la ++ lu) by set_solver + Hh.
  destruct (heap_ok_block _ _ _ _ Hok HxA) as (Hxh' & Hx0 & Hxe & HxN).
  destruct (heap_ok_block _ _ _ _ Hok HhA) as (Hhh & Hh0 & Hhe & HhN).
  pose proof Hxh' as [Hxh1 Hxh2]. pose proof Hhh as [Hhh1 Hhh2].
  assert (Hne : h ≠ x) by el_lia.
  destruct (elem_of_split_two la h x Hh Hx Hne) as (l1 & l2 & l3 & l4 & E1 & E2).
  subst la.
  assert (Hnd : NoDup ((l1 ++ h :: l2) ++ lu)) by apply (lo_nodup _ _ _ Hl).
  assert (Hnd2 : NoDup ((l3 ++ x :: l4) ++ lu)).
  { rewrite <- E2. rewrite <- app_assoc in Hnd |- *.
    apply NoDup_app in Hnd as (Ha & Hb & Hd). simpl in Hd.
    apply NoDup_cons in Hd as [Hd1 Hd2].
    apply NoDup_app. split_and!; [done| |done]. set_solver + Hb. }
  assert (HxB : x ∉ (l3 ++ l4) ++ lu).
  { rewrite <- app_assoc in Hnd2 |- *.
    apply NoDup_app in Hnd2 as (Ha & Hb & Hd). simpl in Hd.
    apply NoDup_cons in Hd as [Hd1 Hd2]. intros Hin.
    apply elem_of_app in Hin as [Hin|Hin]; [|done].
    apply (Hb x Hin). set_solver +. }
  assert (HhB : h ∉ (l3 ++ x :: l4) ++ lu).
  { rewrite <- E2. rewrite <- app_assoc in Hnd |- *.
    apply NoDup_app in Hnd as (Ha & Hb & Hd). simpl in Hd.
    apply NoDup_cons in Hd as [Hd1 Hd2]. intros Hin.
    apply elem_of_app in Hin as [Hin|Hin]; [|done].
    apply (Hb h Hin). set_solver +. }
  assert (Hmem : ∀ p, p ∈ l1 ++ h :: l2 ↔ p = h ∨ p = x ∨ p ∈ l3 ++ l4).
  { intros p. rewrite elem_of_app, elem_of_cons.
    assert (p ∈ l1 ∨ p ∈ l2 ↔ p ∈ l3 ++ x :: l4)
      by (rewrite <- E2; set_solver +).
    assert (p ∈ l3 ++ x :: l4 ↔ p = x ∨ p ∈ l3 ++ l4) by set_solver +.
    tauto. }
  assert (Hsum : sum_bytes w (l1 ++ h :: l2) =
                 sum_bytes w (l3 ++ l4) + (sz w x + EL_BLOCK_OVERHEAD)
                 + (sz w h + EL_BLOCK_OVERHEAD)).
  { transitivity (sum_bytes w (l1 ++ l2) + (sz w h + EL_BLOCK_OVERHEAD)).
    { rewrite !sum_bytes_app. simpl. lia. }
    rewrite E2. rewrite !sum_bytes_app. simpl. lia. }
  assert (0 ≤ sum_bytes w (l3 ++ l4)).
  { apply sum_bytes_nonneg. intros p Hp. apply (lo_heap _ _ _ Hl).
    apply elem_of_app. left. apply Hmem. auto. }
  assert (0 ≤ sum_bytes w lu).
  { apply sum_bytes_nonneg. intros p Hp. apply (lo_heap _ _ _ Hl).
    set_solver + Hp. }
  unfold merge_with_higher.
  wp_next; [by apply blk_in_heap_mapped|].
  rewrite (Hsa h Hh). simpl.
  wp_next. rewrite Hc5.
  apply wp_bind. eapply wp_mono; [by apply remove_avail_spec|].
  cbv beta. intros _ w1 (Hl1 & Hd1 & Hf1).
  pose proof Hd1 as (Hctl1 & Hft1 & Hdat1).
  wp_next. rewrite Hctl1, Hc5. rewrite E2 in Hl1.
  apply wp_bind. eapply wp_mono; [by apply remove_avail_spec|].
  cbv beta. intros _ w2 (Hl2 & Hd2 & Hf2).
  pose proof (same_data_trans _ _ _ Hd1 Hd2) as Hd02.
  pose proof Hd02 as (Hctl2 & Hft2 & Hdat2).
  assert (Hsz2 : ∀ p, sz w2 p = sz w p) by (intros p; apply Hdat2).
  assert (Hst2 : ∀ p, st w2 p = st w p) by (intros p; apply Hdat2).
  assert (Hm2 : ∀ p, blk_in_heap w p → head_mapped w2 p = true).
  { intros p Hp. rewrite (head_mapped_ctl w w2) by done.
    by apply blk_in_heap_mapped. }
  wp_next; [by apply Hm2|]. wp_next; [by apply Hm2|].
  rewrite !Hsz2.
  rewrite (wrap_small (sz w x + sz w h)) by el_lia.
  rewrite wrap_small by el_lia.
  set (ns := sz w x + sz w h + EL_BLOCK_OVERHEAD).
  wp_next; [by apply Hm2|].
  set (w3 := upd_head x (set_size ns) w2).
  assert (Hsz3 : ∀ p, sz w3 p = if decide (p = x) then ns else sz w p).
  { intros p. unfold w3. rewrite hdr_upd_head. case_decide; [done|].
    apply Hsz2. }
  assert (Hctl3 : el_ctl w3 = el_ctl w) by exact Hctl2.
  assert (Hc3' : ctl_ok w3) by (unfold ctl_ok; by rewrite Hctl3).
  apply wp_bind. apply el_get_footer_spec; try done.
  { unfold blk_in_heap. by rewrite Hctl3. }
  { rewrite Hsz3, decide_True by done. unfold ns. el_lia. }
  { rewrite Hsz3, decide_True by done. rewrite Hctl3. unfold ns. el_lia. }
  rewrite Hsz3, decide_True by done.
  replace (x + sizeof_blockhead + ns) with (h + sizeof_blockhead + sz w h)
    by (unfold ns; el_lia).
  wp_next.
  { rewrite (foot_mapped_ctl w w3) by done.
    eapply tiling_foot_mapped; [done|]. done. }
  set (w4 := upd_foot (h + sizeof_blockhead + sz w h) ns w3).
  assert (Hl4 : lists_ok w4 (l3 ++ l4) lu).
  { eapply lists_ok_frame; [done|done|done|].
    intros p Hp. unfold w4, w3. rewrite hdr_upd_foot, hdr_upd_head.
    rewrite decide_False; [done|]. intros ->.
    apply elem_of_app in Hp as [Hp|Hp]; [|done].
    by apply (not_sentinel w x Hc Hxh'). }
  assert (Hsz4 : ∀ p, sz w4 p = if decide (p = x) then ns else sz w p).
  { intros p. apply Hsz3. }
  assert (Hs4 : ∀ l, x ∉ l → sum_bytes w4 l = sum_bytes w l).
  { intros l Hx'. apply sum_bytes_frame. intros p Hp. rewrite Hsz4.
    rewrite decide_False; [done|set_solver + Hp Hx']. }
  assert (Hctl4 : el_ctl w4 = el_ctl w) by exact Hctl2.
  wp_next. rewrite Hctl2, Hc5.
  apply wp_bind. eapply wp_mono.
  { apply (add_avail_spec w4 (l3 ++ l4) lu x); try done.
    - unfold blk_in_heap. by rewrite Hctl4.
    - rewrite Hsz4, decide_True by done. unfold ns. el_lia.
    - rewrite Hctl4.
      rewrite !Hs4 by set_solver + HxB. rewrite Hsz4, decide_True by done.
      unfold ns. el_lia. }
  cbv beta. intros _ w5 (Hl5 & Hd5 & Hf5).
  pose proof Hd5 as (Hctl5 & Hft5 & Hdat5).
  assert (Hsz5 : ∀ p, sz w5 p = if decide (p = x) then ns else sz w p).
  { intros p. destruct (Hdat5 p) as [-> _]. apply Hsz4. }
  assert (Hst5 : ∀ p, st w5 p = st w p).
  { intros p. destruct (Hdat5 p) as [_ ->]. unfold w4, w3.
    rewrite hdr_upd_foot, hdr_upd_head. case_decide; subst; simpl; apply Hst2. }
  assert (Hft5' : ∀ q, ft w5 q =
     if decide (q = h + sizeof_blockhead + sz w h) then ns else ft w q).
  { intros q. rewrite Hft5. unfold w4. rewrite ft_upd_foot.
    case_decide; [done|]. unfold w3. rewrite ft_upd_head. apply Hft2. }
  assert (HB' : ∀ p, p ∈ x :: l3 ++ l4 ↔ p ∈ l1 ++ h :: l2 ∧ p ≠ h).
  { intros p. rewrite Hmem, elem_of_cons. split.
    - intros [->|Hp]; [split; [auto|done]|].
      split; [auto|]. intros ->. apply HhB. set_solver + Hp.
    - intros [[?|[?|?]] ?]; [done|auto|auto]. }
  apply (HQ w5 (x :: l3 ++ l4)).
  split_and!; try done; [|by rewrite Hctl5].
  split.
  - done.
  - eapply (tiling_merge w w5 ((l1 ++ h :: l2) ++ lu) _ x h);
      [done|done|done|done| |by rewrite Hctl5|done|done].
    intros p.
    rewrite (elem_of_app (x :: l3 ++ l4)), (elem_of_app (l1 ++ h :: l2)), HB'.
    assert (p ∈ lu → p ≠ h).
    { intros Hp ->. apply HhB. set_solver + Hp. }
    tauto.
  - intros p Hp. rewrite Hst5. apply Hsa. by apply HB'.
  - intros p Hp. rewrite Hst5. by apply Hsu.
  - rewrite Hctl5, Hctl4.
    rewrite <- Hby, Hsum. simpl sum_bytes.
    assert (Hs5 : ∀ l, x ∉ l → sum_bytes w5 l = sum_bytes w l).
    { intros l Hx'. rewrite <- Hs4 by done. apply sum_bytes_frame.
      intros p _. apply Hdat5. }
    rewrite !Hs5 by set_solver + HxB. rewrite Hsz5, decide_True by done.
    unfold ns. lia.
Qed.

Lemma merge_with_higher_skip w h x self Q :
  head_mapped w h = true → st w h ≠ EL_AVAILABLE → Q tt w →
  wp (merge_with_higher self x h) Q w.
Proof.
  intros Hm Hs HQ. unfold merge_with_higher. wp_next.
  destruct (st w h); done.
Qed.

(** A block that is not on the available list is allocated. *)
Lemma heap_ok_not_avail w la lu b :
  heap_ok w la lu → b ∈ la ++ lu → b ∉ la → st w b = EL_USED.
Proof.
  intros Hok Hb Hn. apply (ok_used _ _ _ Hok).
  apply elem_of_app in Hb as [?|?]; done.
Qed.

Lemma heap_ok_mapped w la lu b :
  heap_ok w la lu → b ∈ la ++ lu → head_mapped w b = true.
Proof.
  intros Hok Hb. apply blk_in_heap_mapped.
  eapply tiling_in_heap; [apply (ok_tiling _ _ _ Hok)|done].
Qed.

Lemma heap_ok_ctl w la lu : heap_ok w la lu → ctl_ok w.
Proof. intros Hok. apply (lo_ctl _ _ _ (ok_lists _ _ _ Hok)). Qed.

(** *** The look at the block below *)

Lemma lowerer_none w la lu x self Q :
  heap_ok w la lu → x ∈ la ++ lu →
  (∀ p, p ∈ la → p + sz w p + EL_BLOCK_OVERHEAD ≠ x) →
  Q tt w →
  wp (merge_with_lowerer self x) Q w.
Proof.
  intros Hok Hx Hno HQ. unfold merge_with_lowerer.
  apply wp_bind.
  eapply el_block_below_spec;
    [by eapply heap_ok_ctl|apply (ok_tiling _ _ _ Hok)|done|..].
  - intros _. simpl. by wp_next.
  - intros p Hp E.
    destruct (heap_ok_block _ _ _ _ Hok Hp) as (_ & _ & _ & HpN).
    destruct (Z.eqb_spec p NULL); [done|].
    wp_next; [by eapply heap_ok_mapped|].
    rewrite (heap_ok_not_avail w la lu p); [simpl; by wp_next|done..|].
    intros Hin. by apply (Hno p).
Qed.

Lemma lowerer_live w la lu x p self Q :
  heap_ok w la lu → x ∈ la ++ lu → p ∈ la →
  p + sz w p + EL_BLOCK_OVERHEAD = x →
  wp (self p) Q w →
  wp (merge_with_lowerer self x) Q w.
Proof.
  intros Hok Hx Hp E HQ. unfold merge_with_lowerer.
  assert (HpB : p ∈ la ++ lu) by set_solver + Hp.
  destruct (heap_ok_block _ _ _ _ Hok HpB) as ([Hp1 _] & Hp0 & _ & HpN).
  apply wp_bind.
  eapply el_block_below_spec;
    [by eapply heap_ok_ctl|apply (ok_tiling _ _ _ Hok)|done|..].
  - intros ->. el_lia.
  - intros p' Hp' E'.
    assert (p' = p) as ->.
    { eapply tiling_end_inj; [apply (ok_tiling _ _ _ Hok)|done..|lia]. }
    destruct (Z.eqb_spec p NULL); [done|].
    wp_next; [by eapply heap_ok_mapped|].
    by rewrite (ok_avail _ _ _ Hok p Hp).
Qed.

(** The same when [x] is no longer a block: the footer under [x] still
    holds the size [s] that the block [p] had when it absorbed [x]. *)
Lemma lowerer_stale w la lu x p s self Q :
  heap_ok w la lu → p ∈ la →
  x ≤ heap_end (el_ctl w) →
  ft w (x - sizeof_blockfoot) = s → 0 ≤ s →
  p + s + EL_BLOCK_OVERHEAD = x →
  wp (self p) Q w →
  wp (merge_with_lowerer self x) Q w.
Proof.
  intros Hok Hp Hxe Hft Hs E HQ. unfold merge_with_lowerer.
  assert (HpB : p ∈ la ++ lu) by set_solver + Hp.
  destruct (heap_ok_block _ _ _ _ Hok HpB) as ([Hp1 _] & Hp0 & _ & HpN).
  pose proof (heap_ok_ctl _ _ _ Hok) as Hc.
  pose proof Hc as (Hc1 & _).
  apply wp_bind.
  apply el_block_below_raw; rewrite ?Hft; try done; try el_lia.
  replace (x - (s + EL_BLOCK_OVERHEAD)) with p by lia.
  destruct (Z.eqb_spec p NULL); [done|].
  wp_next; [by eapply heap_ok_mapped|].
  by rewrite (ok_avail _ _ _ Hok p Hp).
Qed.

(** *** One call of the merge *)

Lemma merge_unfold f lower :
  el_merge_block_with_above (S f) lower =
    if lower =? NULL then ret tt
    else
      st <- rd h_state lower ;;
      if is_available st then
        higher <- el_block_above lower ;;
        if higher =? NULL then ret tt
        else
          merge_with_higher (el_merge_block_with_above f) lower higher ;;;
          merge_with_lowerer (el_merge_block_with_above f) lower
      else ret tt.
Proof. done. Qed.

#[global] Arguments el_merge_block_with_above : simpl never.

(** [M] has nothing to merge with: it ends the heap (the call returns before
    it looks below), or neither neighbour is free. *)
Definition quiet (w : world) (la : list Z) (M : Z) : Prop :=
  M + sz w M + EL_BLOCK_OVERHEAD = heap_end (el_ctl w) ∨
  ((M + sz w M + EL_BLOCK_OVERHEAD) ∉ la ∧
   ∀ p, p ∈ la → p + sz w p + EL_BLOCK_OVERHEAD ≠ M).

Lemma merge_quiet w la lu M f Q :
  heap_ok w la lu → M ∈ la → quiet w la M → Q tt w →
  wp (el_merge_block_with_above (S f) M) Q w.
Proof.
  intros Hok HM Hq HQ.
  assert (HMB : M ∈ la ++ lu) by set_solver + HM.
  destruct (heap_ok_block _ _ _ _ Hok HMB) as (_ & _ & _ & HMN).
  pose proof (heap_ok_ctl _ _ _ Hok) as Hc.
  rewrite merge_unfold. destruct (Z.eqb_spec M NULL); [done|].
  wp_next; [by eapply heap_ok_mapped|].
  rewrite (ok_avail _ _ _ Hok M HM). simpl.
  apply wp_bind.
  eapply el_block_above_spec; [done|apply (ok_tiling _ _ _ Hok)|done|].
  case_decide as E.
  - simpl. by wp_next.
  - destruct Hq as [?|[Hq1 Hq2]]; [done|].
    destruct (til_above _ _ (ok_tiling _ _ _ Hok) M HMB) as [?|Hh]; [done|].
    destruct (heap_ok_block _ _ _ _ Hok Hh) as (_ & _ & _ & HhN).
    destruct (Z.eqb_spec (M + sz w M + EL_BLOCK_OVERHEAD) NULL); [done|].
    apply wp_bind. apply merge_with_higher_skip.
    + by eapply heap_ok_mapped.
    + by rewrite (heap_ok_not_avail w la lu _ Hok Hh Hq1).
    + by eapply lowerer_none.
Qed.

(** Nothing free above [x], a free block [p] below: the call passes on to
    [p]. *)
Lemma merge_descend w la lu x p f Q :
  heap_ok w la lu → x ∈ la → p ∈ la →
  p + sz w p + EL_BLOCK_OVERHEAD = x →
  x + sz w x + EL_BLOCK_OVERHEAD ≠ heap_end (el_ctl w) →
  (x + sz w x + EL_BLOCK_OVERHEAD) ∉ la →
  wp (el_merge_block_with_above f p) Q w →
  wp (el_merge_block_with_above (S f) x) Q w.
Proof.
  intros Hok Hx Hp E Hnt Hna HQ.
  assert (HxB : x ∈ la ++ lu) by set_solver + Hx.
  destruct (heap_ok_block _ _ _ _ Hok HxB) as (_ & _ & _ & HxN).
  pose proof (heap_ok_ctl _ _ _ Hok) as Hc.
  rewrite merge_unfold. destruct (Z.eqb_spec x NULL); [done|].
  wp_next; [by eapply heap_ok_mapped|].
  rewrite (ok_avail _ _ _ Hok x Hx). simpl.
  apply wp_bind.
  eapply el_block_above_spec; [done|apply (ok_tiling _ _ _ Hok)|done|].
  rewrite decide_False by done.
  destruct (til_above _ _ (ok_tiling _ _ _ Hok) x HxB) as [?|Hh]; [done|].
  destruct (heap_ok_block _ _ _ _ Hok Hh) as (_ & _ & _ & HhN).
  destruct (Z.eqb_spec (x + sz w x + EL_BLOCK_OVERHEAD) NULL); [done|].
  apply wp_bind. apply merge_with_higher_skip.
  - by eapply heap_ok_mapped.
  - by rewrite (heap_ok_not_avail w la lu _ Hok Hh Hna).
  - by eapply lowerer_live.
Qed.

(** A free block [h] above [x]: [x] absorbs it, the call recurses on [x] and
    then looks below [x]. *)
Lemma merge_up w la lu x h f Q :
  heap_ok w la lu → x ∈ la → h ∈ la →
  h = x + sz w x + EL_BLOCK_OVERHEAD →
  (∀ w' la', merged w la lu x h w' la' →
     wp (el_merge_block_with_above f x)
        (λ _ w'', wp (merge_with_lowerer (el_merge_block_with_above f) x)
                     Q w'') w') →
  wp (el_merge_block_with_above (S f) x) Q w.
Proof.
  intros Hok Hx Hh E HQ.
  assert (HxB : x ∈ la ++ lu) by set_solver + Hx.
  assert (HhB : h ∈ la ++ lu) by set_solver + Hh.
  destruct (heap_ok_block _ _ _ _ Hok HxB) as (_ & _ & _ & HxN).
  destruct (heap_ok_block _ _ _ _ Hok HhB) as (_ & Hh0 & Hhe & HhN).
  pose proof (heap_ok_ctl _ _ _ Hok) as Hc.
  rewrite merge_unfold. destruct (Z.eqb_spec x NULL); [done|].
  wp_next; [by eapply heap_ok_mapped|].
  rewrite (ok_avail _ _ _ Hok x Hx). simpl.
  apply wp_bind.
  eapply el_block_above_spec; [done|apply (ok_tiling _ _ _ Hok)|done|].
  rewrite decide_False by el_lia. rewrite <- E.
  destruct (Z.eqb_spec h NULL); [done|].
  apply wp_bind. by eapply merge_with_higher_avail.
Qed.

(** [p] absorbs [x], after which nothing around [p] is free. *)
Lemma merge_down_quiet w la lu p x f Q :
  heap_ok w la lu → p ∈ la → x ∈ la →
  x = p + sz w p + EL_BLOCK_OVERHEAD →
  (x + sz w x + EL_BLOCK_OVERHEAD = heap_end (el_ctl w) ∨
   (x + sz w x + EL_BLOCK_OVERHEAD) ∉ la) →
  (∀ q, q ∈ la → q + sz w q + EL_BLOCK_OVERHEAD ≠ p) →
  (∀ w' la', merged w la lu p x w' la' → quiet w' la' p → Q tt w') →
  wp (el_merge_block_with_above (S (S f)) p) Q w.
Proof.
  intros Hok Hp Hx E Hab Hbe HQ.
  assert (HpB : p ∈ la ++ lu) by set_solver + Hp.
  assert (HxB : x ∈ la ++ lu) by set_solver + Hx.
  destruct (heap_ok_block _ _ _ _ Hok HpB) as (_ & Hp0 & _ & _).
  destruct (heap_ok_block _ _ _ _ Hok HxB) as (_ & Hx0 & _ & _).
  eapply merge_up; [done..|].
  intros w' la' Hm. pose proof Hm as (Hok' & Hla' & Hctl' & Hsz' & Hst' & Hft').
  assert (Hp' : p ∈ la') by (apply Hla'; split; [done|el_lia]).
  assert (Hszp : sz w' p = sz w p + sz w x + EL_BLOCK_OVERHEAD).
  { rewrite Hsz'. by rewrite decide_True. }
  assert (Hno : ∀ q, q ∈ la' → q + sz w' q + EL_BLOCK_OVERHEAD ≠ p).
  { intros q Hq. apply Hla' in Hq as [Hq Hqx].
    rewrite Hsz'. case_decide as Eq; [subst q; el_lia|]. by apply Hbe. }
  assert (Hqt : quiet w' la' p).
  { unfold quiet. rewrite Hszp, Hctl'.
    replace (p + (sz w p + sz w x + EL_BLOCK_OVERHEAD) + EL_BLOCK_OVERHEAD)
      with (x + sz w x + EL_BLOCK_OVERHEAD) by lia.
    destruct Hab as [?|Hab]; [by left|]. right. split; [|done].
    intros Hin. apply Hla' in Hin as [Hin _]. done. }
  eapply merge_quiet; [done..|].
  eapply lowerer_none; [done|set_solver + Hp'|done|].
  by apply (HQ w' la').
Qed.

(** What has become of the freed block [x] of the state [w0]: it is part
    of the free block [M], which spans at least [lo .. hi]; all other blocks
    are as they were. *)
Definition grown (w0 : world) (la0 lu : list Z) (lo hi : Z)
    (w' : world) (la' : list Z) (M : Z) : Prop :=
  heap_ok w' la' lu ∧ M ∈ la' ∧ (∀ p, p ∈ la' → p ∈ la0) ∧
  el_ctl w' = el_ctl w0 ∧
  (∀ p, p ∈ la' ++ lu → p ≠ M → sz w' p = sz w0 p) ∧
  (∀ p, st w' p = st w0 p) ∧
  (∀ q, q < lo → ft w' q = ft w0 q) ∧
  M ≤ lo ∧ lo + EL_BLOCK_OVERHEAD ≤ hi ∧
  hi ≤ M + sz w' M + EL_BLOCK_OVERHEAD.

Lemma grown_refl w la lu x :
  heap_ok w la lu → x ∈ la →
  grown w la lu x (x + sz w x + EL_BLOCK_OVERHEAD) w la x.
Proof.
  intros Hok Hx. assert (HxB : x ∈ la ++ lu) by set_solver + Hx.
  destruct (heap_ok_block _ _ _ _ Hok HxB) as (_ & Hx0 & _ & _).
  unfold grown. split_and!; try done; lia.
Qed.

Lemma grown_up w0 la0 lu lo hi w la M h w' la' :
  grown w0 la0 lu lo hi w la M →
  h ∈ la → h = M + sz w M + EL_BLOCK_OVERHEAD →
  merged w la lu M h w' la' →
  grown w0 la0 lu lo (h + sz w h + EL_BLOCK_OVERHEAD) w' la' M.
Proof.
  intros (Hok & HM & Hsub & Hctl & Hsz & Hst & Hft & Hlo & Hlh & Hhi) Hh E.
  intros (Hok' & Hla' & Hctl' & Hsz' & Hst' & Hft').
  assert (HhB : h ∈ la ++ lu) by set_solver + Hh.
  destruct (heap_ok_block _ _ _ _ Hok HhB) as (_ & Hh0 & _ & _).
  unfold grown. split_and!; try done.
  - apply Hla'. split; [done|]. el_lia.
  - intros p Hp. apply Hsub. by apply Hla'.
  - congruence.
  - intros p Hp Hne. rewrite Hsz', decide_False by done. apply Hsz; [|done].
    apply elem_of_app in Hp as [Hp|Hp]; [|set_solver + Hp].
    apply Hla' in Hp as [Hp _]. set_solver + Hp.
  - intros p. by rewrite Hst'.
  - intros q Hq. rewrite Hft'. rewrite decide_False by el_lia. by apply Hft.
  - el_lia.
  - rewrite Hsz', decide_True by done. lia.
Qed.

Lemma grown_down w0 la0 lu lo hi w la M p w' la' :
  grown w0 la0 lu lo hi w la M →
  p ∈ la → M = p + sz w p + EL_BLOCK_OVERHEAD →
  merged w la lu p M w' la' →
  grown w0 la0 lu lo hi w' la' p.
Proof.
  intros (Hok & HM & Hsub & Hctl & Hsz & Hst & Hft & Hlo & Hlh & Hhi) Hp E.
  intros (Hok' & Hla' & Hctl' & Hsz' & Hst' & Hft').
  assert (HpB : p ∈ la ++ lu) by set_solver + Hp.
  destruct (heap_ok_block _ _ _ _ Hok HpB) as (_ & Hp0 & _ & _).
  assert (HMB : M ∈ la ++ lu) by set_solver + HM.
  destruct (heap_ok_block _ _ _ _ Hok HMB) as (_ & HM0 & _ & _).
  unfold grown. split_and!; try done.
  - apply Hla'. split; [done|]. el_lia.
  - intros q Hq. apply Hsub. by apply Hla'.
  - congruence.
  - intros q Hq Hne. rewrite Hsz', decide_False by done.
    assert (q ≠ M).
    { intros ->. apply elem_of_app in Hq as [Hq|Hq].
      - apply Hla' in Hq as [_ ?]. done.
      - pose proof (lo_nodup _ _ _ (ok_lists _ _ _ Hok)) as Hnd.
        apply NoDup_app in Hnd as (_ & Hd & _). by apply (Hd M). }
    apply Hsz; [|done].
    apply elem_of_app in Hq as [Hq|Hq]; [|set_solver + Hq].
    apply Hla' in Hq as [Hq _]. set_solver + Hq.
  - intros q. by rewrite Hst'.
  - intros q Hq. rewrite Hft'. rewrite decide_False by el_lia. by apply Hft.
  - el_lia.
  - rewrite Hsz', decide_True by done. lia.
Qed.

(** The outcome of the look below [x]: nothing free there, or the free block
    [p] below has absorbed [x]. *)
Definition settled (w : world) (la lu : list Z) (x : Z)
    (w' : world) (la' : list Z) (M : Z) : Prop :=
  (w' = w ∧ la' = la ∧ M = x ∧
   ∀ p, p ∈ la → p + sz w p + EL_BLOCK_OVERHEAD ≠ x) ∨
  (∃ p, p ∈ la ∧ x = p + sz w p + EL_BLOCK_OVERHEAD ∧
        merged w la lu p x w' la' ∧ M = p).

Lemma grown_settled w0 la0 lu lo hi w la x w' la' M :
  grown w0 la0 lu lo hi w la x →
  settled w la lu x w' la' M →
  grown w0 la0 lu lo hi w' la' M.
Proof.
  intros Hg [(-> & -> & -> & _)|(p & Hp & E & Hm & ->)]; [done|].
  by eapply grown_down.
Qed.

(** Whether a free block ends at [x]. *)
Lemma free_below_dec w (la : list Z) x :
  (∃ p, p ∈ la ∧ x = p + sz w p + EL_BLOCK_OVERHEAD) ∨
  (∀ p, p ∈ la → p + sz w p + EL_BLOCK_OVERHEAD ≠ x).
Proof.
  induction la as [|a la IH].
  - right. intros p Hp. by apply elem_of_nil in Hp.
  - destruct (decide (x = a + sz w a + EL_BLOCK_OVERHEAD)) as [E|E].
    + left. exists a. split; [set_solver +|done].
    + destruct IH as [(p & Hp & Ep)|IH].
      * left. exists p. split; [set_solver + Hp|done].
      * right. intros p Hp. apply elem_of_cons in Hp as [->|Hp]; [done|].
        by apply IH.
Qed.

Lemma lowerer_settle w la lu x f Q :
  heap_ok w la lu → x ∈ la →
  (x + sz w x + EL_BLOCK_OVERHEAD = heap_end (el_ctl w) ∨
   (x + sz w x + EL_BLOCK_OVERHEAD) ∉ la) →
  (∀ p q, p ∈ la → x = p + sz w p + EL_BLOCK_OVERHEAD → q ∈ la →
          q + sz w q + EL_BLOCK_OVERHEAD ≠ p) →
  (∀ w' la' M, settled w la lu x w' la' M → quiet w' la' M → Q tt w') →
  wp (merge_with_lowerer (el_merge_block_with_above (S (S f))) x) Q w.
Proof.
  intros Hok Hx Hab Hbb HQ.
  assert (HxB : x ∈ la ++ lu) by set_solver + Hx.
  destruct (free_below_dec w la x) as [(p & Hp & E)|Hno].
  - eapply (lowerer_live w la lu x p); [done|done|done|by rewrite E|].
    eapply (merge_down_quiet w la lu p x); [done|done|done|done|done| |].
    + intros q Hq. by eapply Hbb.
    + intros w' la' Hm Hq. apply (HQ w' la' p); [|done].
      right. by exists p.
  - eapply lowerer_none; [done..|].
    apply (HQ w la x); [by left|].
    destruct Hab as [?|?]; [by left|by right].
Qed.

Lemma merge_used_above w la lu x f Q :
  heap_ok w la lu → x ∈ la →
  x + sz w x + EL_BLOCK_OVERHEAD ≠ heap_end (el_ctl w) →
  (x + sz w x + EL_BLOCK_OVERHEAD) ∉ la →
  (∀ p q, p ∈ la → x = p + sz w p + EL_BLOCK_OVERHEAD → q ∈ la →
          q + sz w q + EL_BLOCK_OVERHEAD ≠ p) →
  (∀ w' la' M, settled w la lu x w' la' M → quiet w' la' M → Q tt w') →
  wp (el_merge_block_with_above (S (S (S f))) x) Q w.
Proof.
  intros Hok Hx Hnt Hab Hbb HQ.
  destruct (free_below_dec w la x) as [(p & Hp & E)|Hno].
  - eapply (merge_descend w la lu x p); [done|done|done|by rewrite E|done|done|].
    eapply (merge_down_quiet w la lu p x); [done|done|done|done|by right| |].
    + intros q Hq. by eapply Hbb.
    + intros w' la' Hm Hq. apply (HQ w' la' p); [|done].
      right. by exists p.
  - eapply merge_quiet; [done|done|by right|].
    apply (HQ w la x); [by left|by right].
Qed.

(** An enclosing call looks below [x] once more, after the inner calls have
    settled [x]; by then [x] may be inside [M]. *)
Lemma lowerer_again w la lu x w' la' M f Q :
  heap_ok w la lu → x ∈ la →
  settled w la lu x w' la' M → quiet w' la' M →
  Q tt w' →
  wp (merge_with_lowerer (el_merge_block_with_above (S f)) x) Q w'.
Proof.
  intros Hok Hx [(-> & -> & -> & Hno)|(p & Hp & E & Hm & ->)] Hq HQ.
  - eapply lowerer_none; [done|set_solver + Hx|done|done].
  - pose proof Hm as (Hok' & Hla' & Hctl' & Hsz' & Hst' & Hft').
    assert (HpB : p ∈ la ++ lu) by set_solver + Hp.
    assert (HxB : x ∈ la ++ lu) by set_solver + Hx.
    destruct (heap_ok_block _ _ _ _ Hok HpB) as (_ & Hp0 & _ & _).
    destruct (heap_ok_block _ _ _ _ Hok HxB) as (_ & Hx0 & Hxe & _).
    destruct (til_block _ _ (ok_tiling _ _ _ Hok) p HpB) as (_ & _ & _ & Hfp).
    assert (Hp' : p ∈ la') by (apply Hla'; split; [done|el_lia]).
    eapply (lowerer_stale w' la' lu x p (sz w p)); try done.
    + rewrite Hctl'. el_lia.
    + rewrite Hft'. rewrite decide_False by el_lia.
      rewrite <- Hfp. f_equal. el_lia.
    + by eapply merge_quiet.
Qed.

(** ** Releasing a block *)

(** The state after the merge that follows a release of [x]. *)
Definition freed_result (w0 : world) (la0 lu : list Z) (x : Z) (w' : world)
  : Prop :=
  ∃ la' M hi,
    grown w0 la0 lu x hi w' la' M ∧ quiet w' la' M ∧
    x + sz w0 x + EL_BLOCK_OVERHEAD ≤ hi ∧
    (∀ h, h ∈ la0 → h = x + sz w0 x + EL_BLOCK_OVERHEAD →
          h + sz w0 h + EL_BLOCK_OVERHEAD ≤ hi) ∧
    (x + sz w0 x + EL_BLOCK_OVERHEAD ≠ heap_end (el_ctl w0) →
     ∀ q, q ∈ la' → q + sz w' q + EL_BLOCK_OVERHEAD ≠ M).

(** Below a free block that ends at [x], no free block. *)
Lemma free_pair_below w0 la lu x lo hi w la' p q :
  heap_ok w0 (x :: la) lu → top_pair_only w0 la →
  grown w0 (x :: la) lu lo hi w la' x →
  p ∈ la' → x = p + sz w p + EL_BLOCK_OVERHEAD → q ∈ la' →
  q + sz w q + EL_BLOCK_OVERHEAD ≠ p.
Proof.
  intros Hok0 Htp (Hok & HM & Hsub & Hctl & Hsz & Hst & Hft & _) Hp E Hq Eq.
  assert (HpB : p ∈ la' ++ lu) by set_solver + Hp.
  assert (HqB : q ∈ la' ++ lu) by set_solver + Hq.
  assert (HxB : x ∈ la' ++ lu) by set_solver + HM.
  destruct (heap_ok_block _ _ _ _ Hok HpB) as (_ & Hp0 & _ & _).
  destruct (heap_ok_block _ _ _ _ Hok HqB) as (_ & Hq0 & _ & _).
  destruct (heap_ok_block _ _ _ _ Hok HxB) as (_ & Hx0 & _ & _).
  assert (Hpx : p ≠ x) by el_lia.
  assert (Hqx : q ≠ x) by el_lia.
  assert (Hp' : p ∈ la).
  { apply Hsub in Hp. apply elem_of_cons in Hp as [?|?]; done. }
  assert (Hq' : q ∈ la).
  { apply Hsub in Hq. apply elem_of_cons in Hq as [?|?]; done. }
  rewrite (Hsz p HpB Hpx) in E. rewrite (Hsz q HqB Hqx) in Eq.
  pose proof (Htp q p Hq' Hp' (eq_sym Eq)) as Ht.
  assert (Hx0B : x ∈ (x :: la) ++ lu) by set_solver +.
  destruct (heap_ok_block _ _ _ _ Hok0 Hx0B) as (_ & Hx00 & Hxe & _).
  el_lia.
Qed.

(** Once the look below [x] has settled, no free block ends where [M]
    starts. *)
Lemma settled_no_free_below w0 la lu x lo hi w1 la1 w' la' M :
  heap_ok w0 (x :: la) lu → top_pair_only w0 la →
  grown w0 (x :: la) lu lo hi w1 la1 x →
  settled w1 la1 lu x w' la' M →
  ∀ q, q ∈ la' → q + sz w' q + EL_BLOCK_OVERHEAD ≠ M.
Proof.
  intros Hok0 Htp G [(-> & -> & -> & Hno)|(p & Hp & E & Hm & ->)] q Hq.
  - by apply Hno.
  - pose proof G as (Hok1 & Hx1 & _).
    destruct Hm as (Hok' & Hla' & Hctl' & Hsz' & Hst' & Hft').
    apply Hla' in Hq as [Hq Hqx].
    assert (HpB : p ∈ la1 ++ lu) by set_solver + Hp.
    assert (HxB : x ∈ la1 ++ lu) by set_solver + Hx1.
    destruct (heap_ok_block _ _ _ _ Hok1 HpB) as (_ & Hp0 & _ & _).
    destruct (heap_ok_block _ _ _ _ Hok1 HxB) as (_ & Hx0 & _ & _).
    rewrite Hsz'. case_decide as Eq; [subst q; el_lia|].
    by eapply (free_pair_below w0 la lu x lo hi w1 la1 p q).
Qed.

Lemma merge_freed w la lu x f :
  heap_ok w (x :: la) lu → top_pair_only w la →
  wp (el_merge_block_with_above (S (S (S (S f)))) x)
     (λ _ w', freed_result w (x :: la) lu x w') w.
Proof.
  intros Hok Htp.
  assert (Hx : x ∈ x :: la) by set_solver +.
  assert (HxB : x ∈ (x :: la) ++ lu) by set_solver +.
  destruct (heap_ok_block _ _ _ _ Hok HxB) as (_ & Hx0 & Hxe & _).
  pose proof (grown_refl w (x :: la) lu x Hok Hx) as G0.
  set (e0 := x + sz w x + EL_BLOCK_OVERHEAD) in *.
  destruct (til_above _ _ (ok_tiling _ _ _ Hok) x HxB) as [Htop|Hh].
  { (* the freed block ends the heap *)
    eapply merge_quiet; [done|done|by left|].
    exists (x :: la), x, e0. split_and!; [done|by left|done| |done].
    intros h Hh ->.
    assert (HhB : e0 ∈ (x :: la) ++ lu) by set_solver + Hh.
    destruct (heap_ok_block _ _ _ _ Hok HhB) as (_ & ? & ? & _).
    fold e0 in Htop. el_lia. }
  fold e0 in Hh.
  assert (Hnt : e0 ≠ heap_end (el_ctl w)).
  { destruct (heap_ok_block _ _ _ _ Hok Hh) as (_ & ? & ? & _). el_lia. }
  destruct (decide (e0 ∈ x :: la)) as [Hin|Hnin].
  2:{ (* the block above is allocated *)
    eapply (merge_used_above w (x :: la) lu x (S f)); [done..| |].
    - intros p q Hp E Hq. by eapply (free_pair_below w la lu x).
    - intros w' la' M Hs Hq. exists la', M, e0.
      split_and!; [by eapply grown_settled|done|done| |].
      + intros h Hh' ->. done.
      + intros _. by eapply (settled_no_free_below w la lu x). }
  (* the block above is free: absorb it *)
  assert (Hh' : e0 ∈ la).
  { apply elem_of_cons in Hin as [E|?]; [unfold e0 in E; el_lia|done]. }
  eapply (merge_up w (x :: la) lu x e0); [done..|].
  intros w1 la1 Hm1.
  pose proof (grown_up _ _ _ _ _ _ _ _ _ _ _ G0 Hin eq_refl Hm1) as G1.
  pose proof Hm1 as (Hok1 & Hla1 & Hctl1 & Hsz1 & Hst1 & Hft1).
  assert (Hx1 : x ∈ la1) by (apply Hla1; split; [done|unfold e0; el_lia]).
  assert (Hx1B : x ∈ la1 ++ lu) by set_solver + Hx1.
  assert (Hszx1 : sz w1 x = sz w x + sz w e0 + EL_BLOCK_OVERHEAD).
  { rewrite Hsz1. by rewrite decide_True. }
  set (e1 := e0 + sz w e0 + EL_BLOCK_OVERHEAD) in *.
  assert (He1 : x + sz w1 x + EL_BLOCK_OVERHEAD = e1).
  { rewrite Hszx1. unfold e1, e0. lia. }
  assert (Hle : e0 ≤ e1).
  { destruct (heap_ok_block _ _ _ _ Hok Hh) as (_ & ? & _). unfold e1. el_lia. }
  assert (Hfin : ∀ w' la' M hi, grown w (x :: la) lu x hi w' la' M →
            e1 ≤ hi → quiet w' la' M →
            (∀ q, q ∈ la' → q + sz w' q + EL_BLOCK_OVERHEAD ≠ M) →
            freed_result w (x :: la) lu x w').
  { intros w' la' M hi Hg Hhi Hq Hnb. exists la', M, hi.
    split_and!; [done|done|fold e0; lia| |done].
    intros h Hh0 ->. fold e0 e1. done. }
  destruct (til_above _ _ (ok_tiling _ _ _ Hok1) x Hx1B) as [Htop1|Hh2].
  { (* now the merged block ends the heap *)
    eapply merge_quiet; [done|done|by left|].
    eapply (lowerer_settle w1 la1 lu x (S f)); [done|done|by left| |].
    - intros p q Hp E Hq. by eapply (free_pair_below w la lu x).
    - intros w' la' M Hs Hq. eapply (Hfin w' la' M e1); [|done|done|].
      + by eapply grown_settled.
      + by eapply (settled_no_free_below w la lu x). }
  rewrite He1 in Hh2.
  assert (Hnt1 : x + sz w1 x + EL_BLOCK_OVERHEAD ≠ heap_end (el_ctl w1)).
  { rewrite He1.
    destruct (heap_ok_block _ _ _ _ Hok1 Hh2) as (_ & ? & ? & _). el_lia. }
  destruct (decide (e1 ∈ la1)) as [Hin1|Hnin1].
  2:{ (* an allocated block above the merged block *)
    eapply (merge_used_above w1 la1 lu x f); [done|done|done|by rewrite He1| |].
    - intros p q Hp E Hq. by eapply (free_pair_below w la lu x).
    - intros w2 la2 M Hs Hq.
      eapply (lowerer_again w1 la1 lu x w2 la2 M); [done..|].
      eapply (Hfin w2 la2 M e1); [|done|done|].
      + by eapply grown_settled.
      + by eapply (settled_no_free_below w la lu x). }
  (* a second free block above: it ends the heap *)
  eapply (merge_up w1 la1 lu x e1); [done|done|done|by rewrite He1|].
  intros w2 la2 Hm2.
  assert (G2 := grown_up _ _ _ _ _ _ _ _ _ _ _ G1 Hin1 (eq_sym He1) Hm2).
  pose proof Hm2 as (Hok2 & Hla2 & Hctl2 & Hsz2 & Hst2 & Hft2).
  assert (Hx2 : x ∈ la2).
  { apply Hla2; split; [done|]. rewrite <- He1.
    destruct (heap_ok_block _ _ _ _ Hok1 Hx1B) as (_ & ? & _). el_lia. }
  assert (He1la : e1 ∈ la).
  { apply Hla1 in Hin1 as [Hin1 _].
    apply elem_of_cons in Hin1 as [E|?]; [|done].
    unfold e1 in E. destruct (heap_ok_block _ _ _ _ Hok Hh) as (_ & ? & _).
    el_lia. }
  assert (Hsze1 : sz w1 e1 = sz w e1).
  { rewrite Hsz1. rewrite decide_False; [done|].
    destruct (heap_ok_block _ _ _ _ Hok Hh) as (_ & ? & _). el_lia. }
  assert (Htop2 : x + sz w2 x + EL_BLOCK_OVERHEAD = heap_end (el_ctl w2)).
  { rewrite Hsz2, decide_True by done. rewrite Hctl2, Hctl1, Hsze1.
    pose proof (Htp e0 e1 Hh' He1la eq_refl). lia. }
  assert (Hhi2 : e1 ≤ e1 + sz w1 e1 + EL_BLOCK_OVERHEAD).
  { assert (HeB : e1 ∈ la1 ++ lu) by set_solver + Hin1.
    destruct (heap_ok_block _ _ _ _ Hok1 HeB) as (_ & ? & _). el_lia. }
  eapply merge_quiet; [done|done|by left|].
  eapply (lowerer_settle w2 la2 lu x f); [done|done|by left| |].
  - intros p q Hp E Hq. by eapply (free_pair_below w la lu x).
  - intros w3 la3 M Hs Hq.
    eapply (lowerer_again w2 la2 lu x w3 la3 M); [done..|].
    eapply (Hfin w3 la3 M); [|done|done|].
    + by eapply grown_settled.
    + by eapply (settled_no_free_below w la lu x).
Qed.

Lemma freed_top_pair_only w0 la lu x hi w' la' M :
  heap_ok w0 (x :: la) lu → top_pair_only w0 la →
  grown w0 (x :: la) lu x hi w' la' M → quiet w' la' M →
  top_pair_only w' la'.
Proof.
  intros Hok0 Htp (Hok & HM & Hsub & Hctl & Hsz & Hst & Hft & Hlo & Hlh & Hhi) Hq.
  assert (Hblk : ∀ p, p ∈ la' →
            0 ≤ sz w' p ∧ p + sz w' p + EL_BLOCK_OVERHEAD ≤ heap_end (el_ctl w')).
  { intros p Hp. assert (HpB : p ∈ la' ++ lu) by set_solver + Hp.
    destruct (heap_ok_block _ _ _ _ Hok HpB) as (_ & ? & ? & _). done. }
  assert (Hold : ∀ p, p ∈ la' → p ≠ M → p ∈ la ∧ sz w' p = sz w0 p).
  { intros p Hp Hne. assert (HpB : p ∈ la' ++ lu) by set_solver + Hp.
    split; [|by apply Hsz].
    apply Hsub in Hp as Hp0. apply elem_of_cons in Hp0 as [->|?]; [|done].
    exfalso. assert (HMB : M ∈ la' ++ lu) by set_solver + HM.
    assert (M < x) by lia.
    pose proof (til_disj _ _ (ok_tiling _ _ _ Hok) M x HMB HpB ltac:(done)).
    el_lia. }
  intros b b' Hb Hb' E.
  destruct (Hblk b Hb) as [Hb0 Hbe]. destruct (Hblk b' Hb') as [Hb'0 Hb'e].
  destruct (decide (b' = M)) as [->|Hne'].
  { destruct Hq as [?|[_ Hq]]; [done|]. exfalso. by apply (Hq b Hb). }
  destruct (decide (b = M)) as [->|Hne].
  { exfalso. destruct Hq as [Hq|[Hq _]]; [el_lia|]. apply Hq. by rewrite <- E. }
  destruct (Hold b Hb Hne) as [Hbl Hbs].
  destruct (Hold b' Hb' Hne') as [Hbl' Hbs'].
  rewrite Hbs', Hctl. apply (Htp b b'); [done|done|]. by rewrite <- Hbs.
Qed.

(** The state after [el_free] of the block [b]. *)
Definition released (w : world) (la lu : list Z) (b : Z)
    (w' : world) (la' lu' : list Z) : Prop :=
  heap_ok w' la' lu' ∧ top_pair_only w' la' ∧
  el_ctl w' = el_ctl w ∧
  (∀ p, p ∈ lu' ↔ p ∈ lu ∧ p ≠ b) ∧
  (∀ p, p ∈ la' → p = b ∨ p ∈ la) ∧
  (∀ p, st w' p = if decide (p = b) then EL_AVAILABLE else st w p) ∧
  ∃ M hi,
    M ∈ la' ∧ quiet w' la' M ∧
    (∀ p, p ∈ la' ++ lu' → p ≠ M → sz w' p = sz w p) ∧
    M ≤ b ∧ b + sz w b + EL_BLOCK_OVERHEAD ≤ hi ∧
    hi ≤ M + sz w' M + EL_BLOCK_OVERHEAD ∧
    (∀ h, h ∈ la → h = b + sz w b + EL_BLOCK_OVERHEAD →
          h + sz w h + EL_BLOCK_OVERHEAD ≤ hi) ∧
    (b + sz w b + EL_BLOCK_OVERHEAD ≠ heap_end (el_ctl w) →
     ∀ q, q ∈ la' → q + sz w' q + EL_BLOCK_OVERHEAD ≠ M).

(** [el_free] up to the call of [el_merge_block_with_above]: the block has
    moved from the used list to the front of the available list, and
    nothing else has changed. *)
Lemma el_free_wp w la l1 b l2 fuel Q :
  heap_ok w la (l1 ++ b :: l2) →
  (∀ w3, heap_ok w3 (b :: la) (l1 ++ l2) → el_ctl w3 = el_ctl w →
         (∀ p, sz w3 p = sz w p) →
         (∀ p, st w3 p = if decide (p = b) then EL_AVAILABLE else st w p) →
         (∀ q, ft w3 q = ft w q) →
         wp (el_merge_block_with_above fuel b) Q w3) →
  wp (el_free fuel (b + sizeof_blockhead)) Q w.
Proof.
  intros Hok HQ.
  pose proof Hok as [Hl Ht Hsa Hsu Hby].
  pose proof (lo_ctl _ _ _ Hl) as Hc.
  pose proof Hc as (Hc1 & Hc2 & Hc3 & Hc4 & Hc5 & Hc6).
  assert (Hb : b ∈ la ++ l1 ++ b :: l2) by set_solver +.
  destruct (heap_ok_block _ _ _ _ Hok Hb) as (Hbh & Hb0 & Hbe & HbN).
  pose proof Hbh as [Hbh1 Hbh2].
  pose proof (lo_nodup _ _ _ Hl) as Hnd.
  assert (HbB : b ∉ la ++ l1 ++ l2).
  { apply NoDup_app in Hnd as (_ & Hd1 & Hnd).
    apply NoDup_app in Hnd as (_ & Hd2 & Hnd).
    apply NoDup_cons in Hnd as [Hd3 _].
    intros Hin. apply elem_of_app in Hin as [Hin|Hin].
    - apply (Hd1 b Hin). set_solver +.
    - apply elem_of_app in Hin as [Hin|Hin]; [|done].
      apply (Hd2 b Hin). set_solver +. }
  assert (Hsum : sum_bytes w (l1 ++ b :: l2) =
                 sum_bytes w (l1 ++ l2) + sz w b + EL_BLOCK_OVERHEAD).
  { rewrite !sum_bytes_app. simpl. lia. }
  unfold el_free, PTR_MINUS_BYTES.
  replace (b + sizeof_blockhead - sizeof_blockhead) with b by lia.
  rewrite wrap_small by el_lia.
  wp_next. rewrite Hc6.
  apply wp_bind. eapply wp_mono; [by apply remove_used_spec|].
  cbv beta. intros _ w1 (Hl1 & Hd1 & Hf1).
  pose proof Hd1 as (Hctl1 & Hft1 & Hdat1).
  assert (Hsz1 : ∀ p, sz w1 p = sz w p) by (intros p; apply Hdat1).
  assert (Hst1 : ∀ p, st w1 p = st w p) by (intros p; apply Hdat1).
  wp_next.
  { rewrite (head_mapped_ctl w w1) by done. by apply blk_in_heap_mapped. }
  set (w2 := upd_head b (set_state EL_AVAILABLE) w1).
  assert (Hl2 : lists_ok w2 la (l1 ++ l2)).
  { eapply lists_ok_frame; [done|done|done|].
    intros p Hp. unfold w2. rewrite hdr_upd_head. rewrite decide_False; [done|].
    intros ->. apply elem_of_app in Hp as [Hp|Hp]; [|done].
    by apply (not_sentinel w b Hc Hbh). }
  assert (Hsz2 : ∀ p, sz w2 p = sz w p).
  { intros p. unfold w2. rewrite hdr_upd_head. case_decide; subst; simpl; done. }
  assert (Hs2 : ∀ l, sum_bytes w2 l = sum_bytes w l).
  { intros l. apply sum_bytes_frame. intros p _. apply Hsz2. }
  assert (Hctl2 : el_ctl w2 = el_ctl w) by exact Hctl1.
  wp_next. rewrite Hctl1, Hc5.
  apply wp_bind. eapply wp_mono.
  { apply (add_avail_spec w2 la (l1 ++ l2) b); try done.
    - unfold blk_in_heap. by rewrite Hctl2.
    - by rewrite Hsz2.
    - rewrite Hctl2, !Hs2, Hsz2. lia. }
  cbv beta. intros _ w3 (Hl3 & Hd3 & Hf3).
  pose proof Hd3 as (Hctl3 & Hft3 & Hdat3).
  assert (Hsz3 : ∀ p, sz w3 p = sz w p).
  { intros p. destruct (Hdat3 p) as [-> _]. apply Hsz2. }
  assert (Hst3 : ∀ p, st w3 p = if decide (p = b) then EL_AVAILABLE else st w p).
  { intros p. destruct (Hdat3 p) as [_ ->]. unfold w2. rewrite hdr_upd_head.
    case_decide; simpl; [done|]. apply Hst1. }
  assert (Hctl3' : el_ctl w3 = el_ctl w) by (by rewrite Hctl3).
  assert (Hft3' : ∀ q, ft w3 q = ft w q).
  { intros q. rewrite Hft3. unfold w2. rewrite ft_upd_head. apply Hft1. }
  assert (Hs3 : ∀ l, sum_bytes w3 l = sum_bytes w l).
  { intros l. apply sum_bytes_frame. intros p _. apply Hsz3. }
  assert (Hok3 : heap_ok w3 (b :: la) (l1 ++ l2)).
  { split.
    - done.
    - eapply tiling_equiv; cycle 1.
      + eapply (tiling_same_geom w w3); [|done]. done.
      + set_solver +.
    - intros p Hp. rewrite Hst3. case_decide; [done|].
      apply Hsa. apply elem_of_cons in Hp as [?|?]; done.
    - intros p Hp. rewrite Hst3. rewrite decide_False; [|set_solver + Hp HbB].
      apply Hsu. set_solver + Hp.
    - rewrite Hctl3', <- Hby, Hsum. simpl sum_bytes. rewrite !Hs3, Hsz3. lia. }
  by apply HQ.
Qed.

Lemma el_free_spec w la l1 b l2 f :
  heap_ok w la (l1 ++ b :: l2) → top_pair_only w la →
  ∃ w' la',
    el_free (S (S (S (S f)))) (b + sizeof_blockhead) w = Ok tt w' ∧
    released w la (l1 ++ b :: l2) b w' la' (l1 ++ l2).
Proof.
  intros Hok Htp.
  assert (HbB : b ∉ la ++ l1 ++ l2).
  { pose proof (lo_nodup _ _ _ (ok_lists _ _ _ Hok)) as Hnd.
    apply NoDup_app in Hnd as (_ & Hd1 & Hnd).
    apply NoDup_app in Hnd as (_ & Hd2 & Hnd).
    apply NoDup_cons in Hnd as [Hd3 _].
    intros Hin. apply elem_of_app in Hin as [Hin|Hin].
    - apply (Hd1 b Hin). set_solver +.
    - apply elem_of_app in Hin as [Hin|Hin]; [|done].
      apply (Hd2 b Hin). set_solver +. }
  cut (wp (el_free (S (S (S (S f)))) (b + sizeof_blockhead))
          (λ _ w', ∃ la', released w la (l1 ++ b :: l2) b w' la' (l1 ++ l2)) w).
  { intros H. apply wp_elim in H as ([] & w' & E & la' & H). by exists w', la'. }
  apply (el_free_wp w la l1 b l2); [done|].
  intros w3 Hok3 Hctl3' Hsz3 Hst3 Hft3'.
  assert (Htp3 : top_pair_only w3 la).
  { intros p p' Hp Hp'. rewrite !Hsz3, Hctl3'. by apply Htp. }
  eapply wp_mono; [by apply merge_freed|].
  cbv beta. intros _ w' (la' & M & hi & Hg & Hq & Hhi1 & Hhi2 & Hnb).
  exists la'. pose proof Hg as
    (Hok' & HM & Hsub & Hctl' & Hsz' & Hst' & Hft' & Hlo & Hlh & Hhi).
  unfold released. split_and!.
  - done.
  - by eapply freed_top_pair_only.
  - congruence.
  - intros p. split; [|set_solver +]. intros Hp. split; [set_solver + Hp|].
    intros ->. apply HbB. set_solver + Hp.
  - intros p Hp. apply Hsub in Hp. by apply elem_of_cons in Hp.
  - intros p. rewrite Hst'. apply Hst3.
  - exists M, hi. split_and!; try done.
    + intros p Hp Hne. rewrite Hsz' by done. apply Hsz3.
    + by rewrite <- Hsz3.
    + intros h Hh E. rewrite <- (Hsz3 h). apply Hhi2; [set_solver + Hh|].
      by rewrite Hsz3.
    + intros Hnt. apply Hnb. by rewrite Hsz3, Hctl3'.
Qed.

(** ** Growing the heap *)

Lemma lists_ok_ctl w w' la lu :
  lists_ok w la lu → ctl_ok w' →
  heap_start (el_ctl w') = heap_start (el_ctl w) →
  heap_end (el_ctl w) ≤ heap_end (el_ctl w') →
  heap_bytes (el_ctl w) ≤ heap_bytes (el_ctl w') →
  (∀ K, lst w' K = lst w K) → (∀ p, hdr w' p = hdr w p) →
  lists_ok w' la lu.
Proof.
  intros [H1 H2 H3 H4 H5 H6] Hc Hs He Hb Hl Hh.
  assert (Hsum : ∀ l, sum_bytes w' l = sum_bytes w l).
  { intros l. apply sum_bytes_frame. intros p _. by rewrite Hh. }
  split; try done.
  - eapply dll_frame; [done|done|]. intros p _. apply Hh.
  - eapply dll_frame; [done|done|]. intros p _. apply Hh.
  - intros b Hb'. destruct (H5 b Hb') as [[? ?] ?]. rewrite Hh.
    unfold blk_in_heap. split; [|done]. lia.
  - rewrite !Hsum. lia.
Qed.

Lemma tiling_grow w w' B N :
  tiling w B → EL_BLOCK_OVERHEAD ≤ N →
  heap_start (el_ctl w') = heap_start (el_ctl w) →
  heap_end (el_ctl w') = heap_end (el_ctl w) + N →
  heap_start (el_ctl w) ≤ heap_end (el_ctl w) →
  (∀ p, p ∈ B → sz w' p = sz w p) →
  sz w' (heap_end (el_ctl w)) = N - EL_BLOCK_OVERHEAD →
  (∀ q, q < heap_end (el_ctl w) → ft w' q = ft w q) →
  ft w' (heap_end (el_ctl w) + sizeof_blockhead + (N - EL_BLOCK_OVERHEAD))
    = N - EL_BLOCK_OVERHEAD →
  tiling w' (heap_end (el_ctl w) :: B).
Proof.
  intros [H1 H2 H3 H4 H5] HN Hs He Hse Hsz Hszn Hft Hftn.
  set (nb := heap_end (el_ctl w)) in *.
  assert (HnB : ∀ p, p ∈ B → p ≠ nb).
  { intros p Hp ->. destruct (H1 nb Hp) as (? & ? & ? & _). el_lia. }
  split.
  - intros p Hp. rewrite Hs, He. apply elem_of_cons in Hp as [->|Hp].
    + rewrite Hszn. split_and!; [done|el_lia|el_lia|done].
    + destruct (H1 p Hp) as (? & ? & ? & ?). rewrite (Hsz p Hp).
      rewrite Hft by el_lia. split_and!; [done|done|el_lia|done].
  - intros p p' Hp Hp' Hlt.
    apply elem_of_cons in Hp as [->|Hp]; apply elem_of_cons in Hp' as [->|Hp'].
    + el_lia.
    + destruct (H1 p' Hp') as (? & ? & ? & _). el_lia.
    + destruct (H1 p Hp) as (? & ? & ? & _). rewrite (Hsz p Hp). done.
    + rewrite (Hsz p Hp). by apply H2.
  - intros p Hp. rewrite He. apply elem_of_cons in Hp as [->|Hp].
    + left. rewrite Hszn. el_lia.
    + right. rewrite (Hsz p Hp).
      destruct (H3 p Hp) as [E|E]; [rewrite E; set_solver +|set_solver + E].
  - intros p Hp. rewrite Hs. apply elem_of_cons in Hp as [->|Hp].
    + right. destruct H5 as (t & Ht & E). exists t.
      rewrite (Hsz t Ht). split; [set_solver + Ht|done].
    + destruct (H4 p Hp) as [?|(q & Hq & E)]; [by left|]. right.
      exists q. rewrite (Hsz q Hq). split; [set_solver + Hq|done].
  - exists nb. rewrite He, Hszn. split; [set_solver +|el_lia].
Qed.

(** The state after a successful growth by [N] bytes: [w5] is the memory
    once the new block is formatted and on the available list; then either
    the old top block is not free, or it has absorbed the new block and the
    look below it has settled. *)
Definition appended (w : world) (la lu : list Z) (N : Z)
    (w' : world) (la' : list Z) : Prop :=
  let nb := heap_end (el_ctl w) in
  ∃ w5,
    heap_ok w5 (nb :: la) lu ∧
    heap_start (el_ctl w5) = heap_start (el_ctl w) ∧
    heap_end (el_ctl w5) = nb + N ∧
    heap_bytes (el_ctl w5) = heap_bytes (el_ctl w) + N ∧
    (∀ p, p ≠ nb → sz w5 p = sz w p ∧ st w5 p = st w p) ∧
    sz w5 nb = N - EL_BLOCK_OVERHEAD ∧
    (∀ q, q < nb → ft w5 q = ft w q) ∧
    (((∀ t, t ∈ la → t + sz w t + EL_BLOCK_OVERHEAD ≠ nb) ∧
      w' = w5 ∧ la' = nb :: la) ∨
     (∃ t w6 la6 M,
        t ∈ la ∧ t + sz w t + EL_BLOCK_OVERHEAD = nb ∧
        merged w5 (nb :: la) lu t nb w6 la6 ∧
        settled w6 la6 lu t w' la' M ∧ quiet w' la' M)).

Lemma MAP_FAILED_value : MAP_FAILED = SIZE_MODULUS - 1.
Proof. reflexivity. Qed.

Lemma el_append_pages_spec w la lu npages f :
  heap_ok w la lu → top_pair_only w la →
  1 ≤ npages →
  heap_end (el_ctl w) + npages * EL_PAGE_BYTES ≤ EL_CTL_START_ADDRESS →
  ∃ w' la',
    el_append_pages_to_heap (S (S (S f))) npages (heap_end (el_ctl w)) w
      = Ok 0 w' ∧
    appended w la lu (npages * EL_PAGE_BYTES) w' la'.
Proof.
  intros Hok Htp Hnp Hfit.
  pose proof Hok as [Hl Ht Hsa Hsu Hby].
  pose proof (lo_ctl _ _ _ Hl) as Hc.
  pose proof Hc as (Hc1 & Hc2 & Hc3 & Hc4 & Hc5 & Hc6).
  set (N := npages * EL_PAGE_BYTES) in *.
  set (nb := heap_end (el_ctl w)) in *.
  assert (HN : EL_BLOCK_OVERHEAD ≤ N) by (unfold N; el_lia).
  cut (wp (el_append_pages_to_heap (S (S (S f))) npages nb)
          (λ r w', r = 0 ∧ ∃ la', appended w la lu N w' la') w).
  { intros H. apply wp_elim in H as (r & w' & E & -> & la' & H).
    by exists w', la'. }
  unfold el_append_pages_to_heap. fold N.
  rewrite (wrap_small N) by el_lia.
  destruct (Z.eqb_spec nb MAP_FAILED) as [E|_].
  { rewrite MAP_FAILED_value in E. el_lia. }
  wp_next. fold nb. rewrite Z.eqb_refl. simpl negb. cbv iota.
  wp_next. wp_next. wp_next.
  unfold PTR_PLUS_BYTES. fold nb.
  rewrite !wrap_small by el_lia.
  match goal with |- wp _ _ ?w0 => set (w1 := w0) end.
  assert (Hctl1 : el_ctl w1 = Ctl (heap_bytes (el_ctl w) + N)
                    (heap_start (el_ctl w)) (nb + N) (avail (el_ctl w))
                    (used (el_ctl w))) by done.
  assert (Hc1' : ctl_ok w1).
  { unfold ctl_ok. rewrite Hctl1. simpl. split_and!; try done; el_lia. }
  assert (Hl1 : lists_ok w1 la lu).
  { eapply (lists_ok_ctl w w1); try done; rewrite Hctl1; simpl; el_lia. }
  assert (Hnbh : ∀ w', el_ctl w' = el_ctl w1 → blk_in_heap w' nb).
  { intros w' E. unfold blk_in_heap. rewrite E, Hctl1. simpl. el_lia. }
  assert (HnbB : nb ∉ la ++ lu).
  { intros Hin. destruct (heap_ok_block _ _ _ _ Hok Hin) as (_ & ? & ? & _).
    el_lia. }
  wp_next; [by apply blk_in_heap_mapped, Hnbh|].
  wp_next; [by apply blk_in_heap_mapped, Hnbh|].
  match goal with |- wp _ _ ?w0 => set (w3 := w0) end.
  assert (Hhdr3 : ∀ p, p ≠ nb → hdr w3 p = hdr w p).
  { intros p Hp. unfold w3. rewrite !hdr_upd_head. by rewrite !decide_False. }
  assert (Hsz3 : sz w3 nb = N - EL_BLOCK_OVERHEAD).
  { unfold w3. rewrite !hdr_upd_head. by rewrite !decide_True. }
  assert (Hst3 : st w3 nb = EL_AVAILABLE).
  { unfold w3. rewrite !hdr_upd_head. by rewrite !decide_True. }
  apply wp_bind. apply el_get_footer_spec.
  { done. }
  { by apply Hnbh. }
  { rewrite Hsz3. lia. }
  { rewrite Hsz3. change (el_ctl w3) with (el_ctl w1). rewrite Hctl1. simpl. lia. }
  rewrite Hsz3.
  wp_next; [by apply blk_in_heap_mapped, Hnbh|]. fold w3. rewrite Hsz3.
  wp_next.
  { unfold foot_mapped, in_heap. change (el_ctl w3) with (el_ctl w1).
    rewrite Hctl1. simpl. apply andb_true_iff. split; apply Z.leb_le; el_lia. }
  fold w3.
  match goal with |- wp _ _ ?w0 => set (w4 := w0) end.
  assert (Hl4 : lists_ok w4 la lu).
  { eapply lists_ok_frame; [done|done|done|].
    intros q Hq. unfold w4. rewrite hdr_upd_foot. unfold w3.
    rewrite !hdr_upd_head. rewrite !decide_False; [done|..].
    all: intros ->; apply elem_of_app in Hq as [Hq|Hq]; [|done].
    all: by apply (not_sentinel w1 nb Hc1' (Hnbh w1 eq_refl)). }
  assert (Hhdr4 : ∀ p, hdr w4 p = hdr w3 p) by done.
  assert (Hs4 : ∀ l, nb ∉ l → sum_bytes w4 l = sum_bytes w l).
  { intros l Hnl. apply sum_bytes_frame. intros q Hq. rewrite Hhdr4, Hhdr3.
    - done.
    - intros ->. done. }
  wp_next. fold w3 w4. rewrite Hc5.
  apply wp_bind. eapply wp_mono.
  { apply (add_avail_spec w4 la lu nb); try done.
    - by apply Hnbh.
    - rewrite Hhdr4, Hsz3. lia.
    - rewrite !Hs4 by set_solver + HnbB. rewrite Hhdr4, Hsz3.
      change (el_ctl w4) with (el_ctl w1). rewrite Hctl1. simpl. lia. }
  cbv beta. intros _ w5 (Hl5 & Hd5 & Hf5).
  pose proof Hd5 as (Hctl5 & Hft5 & Hdat5).
  assert (Hctl5' : el_ctl w5 = el_ctl w1) by (by rewrite Hctl5).
  assert (Hdat5' : ∀ p, p ≠ nb → sz w5 p = sz w p ∧ st w5 p = st w p).
  { intros p Hp. destruct (Hdat5 p) as [-> ->]. by rewrite Hhdr4, Hhdr3. }
  assert (Hsz5 : sz w5 nb = N - EL_BLOCK_OVERHEAD).
  { destruct (Hdat5 nb) as [-> _]. by rewrite Hhdr4. }
  assert (Hst5 : st w5 nb = EL_AVAILABLE).
  { destruct (Hdat5 nb) as [_ ->]. by rewrite Hhdr4. }
  assert (Hft5' : ∀ q, q < nb → ft w5 q = ft w q).
  { intros q Hq. rewrite Hft5. unfold w4. rewrite ft_upd_foot.
    rewrite decide_False by el_lia. done. }
  assert (Hs5 : ∀ l, nb ∉ l → sum_bytes w5 l = sum_bytes w l).
  { intros l Hnl. apply sum_bytes_frame. intros q Hq. apply Hdat5'.
    intros ->. done. }
  assert (Hok5 : heap_ok w5 (nb :: la) lu).
  { split.
    - done.
    - eapply (tiling_grow w w5 (la ++ lu) N); try done.
      + by rewrite Hctl5', Hctl1.
      + by rewrite Hctl5', Hctl1.
      + lia.
      + intros q Hq. apply Hdat5'. intros ->. done.
      + rewrite Hft5. unfold w4. rewrite ft_upd_foot. by rewrite decide_True.
    - intros q Hq. apply elem_of_cons in Hq as [->|Hq]; [done|].
      destruct (Hdat5' q) as [_ ->]; [|by apply Hsa].
      intros ->. apply HnbB. set_solver + Hq.
    - intros q Hq. destruct (Hdat5' q) as [_ ->]; [|by apply Hsu].
      intros ->. apply HnbB. set_solver + Hq.
    - simpl sum_bytes. rewrite !Hs5 by set_solver + HnbB.
      rewrite Hsz5, Hctl5', Hctl1. simpl. lia. }
  assert (Hfacts : heap_start (el_ctl w5) = heap_start (el_ctl w) ∧
                   heap_end (el_ctl w5) = nb + N ∧
                   heap_bytes (el_ctl w5) = heap_bytes (el_ctl w) + N).
  { rewrite Hctl5', Hctl1. done. }
  destruct Hfacts as (Hhs5 & Hhe5 & Hhb5).
  assert (HnbB5 : nb ∈ (nb :: la) ++ lu) by set_solver +.
  apply wp_bind. apply wp_bind.
  eapply (el_block_below_spec w5 _ nb);
    [by eapply heap_ok_ctl|apply (ok_tiling _ _ _ Hok5)|done|..].
  { intros E. exfalso. rewrite Hhs5 in E.
    destruct (til_top _ _ Ht) as (t & HtB & Et).
    destruct (heap_ok_block _ _ _ _ Hok HtB) as ([? ?] & ? & ? & _).
    fold nb in Et. el_lia. }
  intros t HtB5 Et.
  assert (Htnb : t ≠ nb).
  { intros ->. rewrite Hsz5 in Et. el_lia. }
  assert (HtB : t ∈ la ++ lu).
  { apply elem_of_app in HtB5 as [Hin|Hin]; [|set_solver + Hin].
    apply elem_of_cons in Hin as [?|Hin]; [done|set_solver + Hin]. }
  destruct (Hdat5' t Htnb) as [Hszt Hstt]. rewrite Hszt in Et.
  destruct (heap_ok_block _ _ _ _ Hok HtB) as (_ & Ht0 & _ & HtN).
  destruct (Z.eqb_spec t NULL); [done|].
  wp_next; [by eapply heap_ok_mapped|]. rewrite Hstt.
  destruct (decide (t ∈ la)) as [Htla|Htla].
  2:{ (* the old top block is allocated *)
    rewrite (heap_ok_not_avail w la lu t Hok HtB Htla). simpl.
    wp_next. wp_next. split; [done|]. exists (nb :: la), w5.
    split_and!; try done. left. split_and!; try done.
    intros t' Ht' E'. apply Htla.
    assert (t' = t) as ->; [|done].
    eapply (tiling_end_inj w (la ++ lu)); [done|set_solver + Ht'|done|lia]. }
  (* the old top block is free: it absorbs the new block *)
  rewrite (Hsa t Htla). simpl.
  assert (Htla5 : t ∈ nb :: la) by set_solver + Htla.
  assert (Hnbla5 : nb ∈ nb :: la) by set_solver +.
  eapply (merge_up w5 (nb :: la) lu t nb); [done|done|done|by rewrite Hszt|].
  intros w6 la6 Hm6.
  pose proof Hm6 as (Hok6 & Hla6 & Hctl6 & Hsz6 & Hst6 & Hft6).
  assert (Ht6 : t ∈ la6) by (by apply Hla6).
  assert (Htop6 : t + sz w6 t + EL_BLOCK_OVERHEAD = heap_end (el_ctl w6)).
  { rewrite Hsz6, decide_True by done. rewrite Hszt, Hsz5, Hctl6, Hhe5. lia. }
  eapply merge_quiet; [done|done|by left|].
  eapply (lowerer_settle w6 la6 lu t f); [done|done|by left| |].
  - intros p q Hp E Hq Eq.
    assert (HpB6 : p ∈ la6 ++ lu) by set_solver + Hp.
    assert (HqB6 : q ∈ la6 ++ lu) by set_solver + Hq.
    destruct (heap_ok_block _ _ _ _ Hok6 HpB6) as (_ & Hp0 & _ & _).
    destruct (heap_ok_block _ _ _ _ Hok6 HqB6) as (_ & Hq0 & _ & _).
    assert (Hpt : p ≠ t) by el_lia.
    assert (Hqt : q ≠ t) by el_lia.
    apply Hla6 in Hp as [Hp Hpn]. apply Hla6 in Hq as [Hq Hqn].
    apply elem_of_cons in Hp as [?|Hp]; [done|].
    apply elem_of_cons in Hq as [?|Hq]; [done|].
    rewrite Hsz6, decide_False in E by done.
    rewrite Hsz6, decide_False in Eq by done.
    destruct (Hdat5' p Hpn) as [Hszp _]. destruct (Hdat5' q Hqn) as [Hszq _].
    rewrite Hszp in E. rewrite Hszq in Eq.
    pose proof (Htp q p Hq Hp (eq_sym Eq)) as Hpt'. fold nb in Hpt'. el_lia.
  - intros w' la' M Hs Hq. wp_next. split; [done|].
    exists la', w5. split_and!; try done. right.
    exists t, w6, la6, M. done.
Qed.

(** Free neighbours after a merge around [lo .. hi]: pairs that were there
    before, outside that span. *)
Lemma grown_top_pair_only w0 la0 lu lo hi w' la' M :
  grown w0 la0 lu lo hi w' la' M → quiet w' la' M →
  (∀ b b', b ∈ la0 → b' ∈ la0 → b' = b + sz w0 b + EL_BLOCK_OVERHEAD →
     lo ≤ b < hi ∨ lo ≤ b' < hi ∨
     b' + sz w0 b' + EL_BLOCK_OVERHEAD = heap_end (el_ctl w0)) →
  top_pair_only w' la'.
Proof.
  intros (Hok & HM & Hsub & Hctl & Hsz & Hst & Hft & Hlo & Hlh & Hhi) Hq Hpairs.
  assert (HMB : M ∈ la' ++ lu) by set_solver + HM.
  assert (Hblk : ∀ p, p ∈ la' →
            0 ≤ sz w' p ∧ p + sz w' p + EL_BLOCK_OVERHEAD ≤ heap_end (el_ctl w')).
  { intros p Hp. assert (HpB : p ∈ la' ++ lu) by set_solver + Hp.
    destruct (heap_ok_block _ _ _ _ Hok HpB) as (_ & ? & ? & _). done. }
  assert (Hout : ∀ p, p ∈ la' → p ≠ M → ¬ (lo ≤ p < hi)).
  { intros p Hp Hne [? ?]. assert (HpB : p ∈ la' ++ lu) by set_solver + Hp.
    destruct (Hblk p Hp) as [? _]. destruct (Hblk M HM) as [? _].
    destruct (Z.lt_trichotomy p M) as [Hlt|[?|Hlt]]; [lia|done|].
    pose proof (til_disj _ _ (ok_tiling _ _ _ Hok) M p HMB HpB Hlt). lia. }
  intros b b' Hb Hb' E.
  destruct (Hblk b Hb) as [Hb0 Hbe]. destruct (Hblk b' Hb') as [Hb'0 Hb'e].
  destruct (decide (b' = M)) as [->|Hne'].
  { destruct Hq as [?|[_ Hq]]; [done|]. exfalso. by apply (Hq b Hb). }
  destruct (decide (b = M)) as [->|Hne].
  { exfalso. destruct Hq as [Hq|[Hq _]]; [el_lia|]. apply Hq. by rewrite <- E. }
  assert (Hbs : sz w' b = sz w0 b) by (apply Hsz; [set_solver + Hb|done]).
  assert (Hbs' : sz w' b' = sz w0 b') by (apply Hsz; [set_solver + Hb'|done]).
  rewrite Hbs in E.
  destruct (Hpairs b b' (Hsub b Hb) (Hsub b' Hb') E) as [?|[?|Ht]].
  - exfalso. by apply (Hout b Hb Hne).
  - exfalso. by apply (Hout b' Hb' Hne').
  - by rewrite Hbs', Hctl.
Qed.

Lemma appended_inv w la lu N w' la' :
  heap_ok w la lu → top_pair_only w la → EL_BLOCK_OVERHEAD ≤ N →
  appended w la lu N w' la' →
  heap_ok w' la' lu ∧ top_pair_only w' la'.
Proof.
  intros Hok Htp HN (w5 & Hok5 & Hhs5 & Hhe5 & Hhb5 & Hdat5 & Hsz5 & Hft5 & Hcase).
  set (nb := heap_end (el_ctl w)) in *.
  assert (HnbB : nb ∉ la ++ lu).
  { intros Hin. destruct (heap_ok_block _ _ _ _ Hok Hin) as (_ & ? & ? & _).
    fold nb in H0. el_lia. }
  assert (Hszla : ∀ p, p ∈ la → sz w5 p = sz w p).
  { intros p Hp. apply Hdat5. intros ->. apply HnbB. set_solver + Hp. }
  assert (Hblk : ∀ p, p ∈ la →
     0 ≤ sz w p ∧ p + sz w p + EL_BLOCK_OVERHEAD ≤ nb).
  { intros p Hp. assert (HpB : p ∈ la ++ lu) by set_solver + Hp.
    destruct (heap_ok_block _ _ _ _ Hok HpB) as (_ & ? & ? & _). done. }
  destruct Hcase as [(Hno & -> & ->)|(t & w6 & la6 & M & Ht & Et & Hm6 & Hs & Hq)].
  - split; [done|]. intros b b' Hb Hb' E. rewrite Hhe5.
    apply elem_of_cons in Hb' as [->|Hb']; [rewrite Hsz5; lia|].
    exfalso. destruct (Hblk b' Hb') as [? ?].
    apply elem_of_cons in Hb as [->|Hb]; [rewrite Hsz5 in E; el_lia|].
    rewrite (Hszla b Hb) in E. pose proof (Htp b b' Hb Hb' E) as Et.
    by apply (Hno b' Hb').
  - assert (Htla5 : t ∈ nb :: la) by set_solver + Ht.
    assert (Hnbla5 : nb ∈ nb :: la) by set_solver +.
    destruct (Hblk t Ht) as [Ht0 _].
    pose proof (grown_refl w5 (nb :: la) lu t Hok5 Htla5) as G5.
    assert (Etn : nb = t + sz w5 t + EL_BLOCK_OVERHEAD).
    { rewrite (Hszla t Ht). lia. }
    pose proof (grown_up _ _ _ _ _ _ _ _ _ _ _ G5 Hnbla5 Etn Hm6) as G6.
    pose proof (grown_settled _ _ _ _ _ _ _ _ _ _ _ G6 Hs) as G'.
    split; [apply G'|].
    eapply grown_top_pair_only; [done|done|].
    intros b b' Hb Hb' E. rewrite Hsz5.
    apply elem_of_cons in Hb' as [->|Hb']; [right; left; el_lia|].
    destruct (Hblk b' Hb') as [? ?].
    apply elem_of_cons in Hb as [->|Hb]; [rewrite Hsz5 in E; el_lia|].
    rewrite (Hszla b Hb) in E. pose proof (Htp b b' Hb Hb' E) as Et'.
    fold nb in Et'. right. left.
    assert (b' = t) as ->; [|el_lia].
    eapply (tiling_end_inj w (la ++ lu));
      [apply (ok_tiling _ _ _ Hok)|set_solver + Hb'|set_solver + Ht|lia].
Qed.

(** ** Initialisation *)

(** Comparisons between the fixed addresses. *)
Ltac dec_fixed :=
  repeat match goal with
  | |- context [decide (?a = ?b)] =>
      first [ rewrite (decide_True (P := a = b)) by (vm_compute; reflexivity)
            | rewrite (decide_False (P := a = b)) by (vm_compute; discriminate) ]
  end.

Lemma hdr_fresh p : hdr fresh_world p = BlockHead 0 EL_UNSET NULL NULL.
Proof. unfold hdr, fresh_world. simpl. by rewrite lookup_total_empty. Qed.

Lemma lst_fresh p : lst fresh_world p = BlockList NULL NULL 0 0.
Proof. unfold lst, fresh_world. simpl. by rewrite lookup_total_empty. Qed.

Lemma ft_fresh p : ft fresh_world p = 0.
Proof. unfold ft, fresh_world. simpl. by rewrite lookup_total_empty. Qed.

(** Look a struct up in a memory given by its stores, outermost store
    first. *)
Ltac look :=
  repeat (first [ rewrite hdr_upd_head | rewrite lst_upd_list
                | rewrite hdr_upd_foot | rewrite hdr_upd_list
                | rewrite hdr_with_ctl | rewrite lst_upd_head
                | rewrite lst_upd_foot | rewrite lst_with_ctl
                | rewrite hdr_fresh | rewrite lst_fresh ];
          dec_fixed).

Lemma sentinel_head_mapped w p :
  sentinel_mapped p = true → head_mapped w p = true.
Proof. intros H. unfold head_mapped. rewrite H. apply orb_true_r. Qed.

Lemma el_init_blocklist_spec w L Q :
  list_mapped L = true →
  Q tt (upd_list L (set_bytes 0)
        (upd_list L (set_length 0)
        (upd_head (end_actual_of L) (set_prev (beg_actual_of L))
        (upd_head (end_actual_of L) (set_next NULL)
        (upd_head (beg_actual_of L) (set_prev NULL)
        (upd_head (beg_actual_of L) (set_next (end_actual_of L))
        (upd_head (end_actual_of L) (set_size EL_UNINITIALIZED)
        (upd_head (end_actual_of L) (set_state EL_END_BLOCK)
        (upd_list L (set_end (end_actual_of L))
        (upd_head (beg_actual_of L) (set_size EL_UNINITIALIZED)
        (upd_head (beg_actual_of L) (set_state EL_BEGIN_BLOCK)
        (upd_list L (set_beg (beg_actual_of L)) w)))))))))))) →
  wp (el_init_blocklist L) Q w.
Proof.
  intros HL HQ.
  assert (Hb : ∀ w', head_mapped w' (beg_actual_of L) = true).
  { intros w'. apply (list_sentinels_mapped w' L HL). }
  assert (He : ∀ w', head_mapped w' (end_actual_of L) = true).
  { intros w'. apply (list_sentinels_mapped w' L HL). }
  unfold el_init_blocklist.
  wp_next. wp_next. unfold set_beg at 1. simpl l_beg.
  wp_next. wp_next. wp_next. wp_next. unfold set_end at 1. simpl l_end.
  wp_next. wp_next. wp_next. wp_next. wp_next. wp_next. wp_next. wp_next.
  done.
Qed.

Lemma el_init_spec n :
  EL_BLOCK_OVERHEAD ≤ n →
  EL_HEAP_START_ADDRESS + n ≤ EL_CTL_START_ADDRESS →
  ∃ w, el_init n fresh_world = Ok 0 w ∧
       heap_ok w [EL_HEAP_START_ADDRESS] [] ∧
       top_pair_only w [EL_HEAP_START_ADDRESS] ∧
       sz w EL_HEAP_START_ADDRESS = n - EL_BLOCK_OVERHEAD ∧
       el_ctl w = Ctl n EL_HEAP_START_ADDRESS (EL_HEAP_START_ADDRESS + n)
                      avail_actual used_actual.
Proof.
  intros Hn Hfit.
  set (Q := λ (r : Z) (w : world), r = 0 ∧
       heap_ok w [EL_HEAP_START_ADDRESS] [] ∧
       top_pair_only w [EL_HEAP_START_ADDRESS] ∧
       sz w EL_HEAP_START_ADDRESS = n - EL_BLOCK_OVERHEAD ∧
       el_ctl w = Ctl n EL_HEAP_START_ADDRESS (EL_HEAP_START_ADDRESS + n)
                      avail_actual used_actual).
  cut (wp (el_init n) Q fresh_world).
  { intros H. apply wp_elim in H as (r & w & E & -> & H). by exists w. }
  unfold el_init.
  wp_next. wp_next. wp_next. wp_next. wp_next.
  unfold PTR_PLUS_BYTES. rewrite (wrap_small (_ + n)) by el_lia.
  destruct (Z.ltb_spec n EL_BLOCK_OVERHEAD); [lia|].
  apply wp_bind. apply el_init_blocklist_spec; [done|].
  apply wp_bind. apply el_init_blocklist_spec; [done|].
  wp_next. wp_next. wp_next. wp_next. wp_next.
  rewrite (wrap_small (n - _)) by el_lia.
  assert (Hbh : ∀ w', heap_start (el_ctl w') = EL_HEAP_START_ADDRESS →
                      heap_end (el_ctl w') = EL_HEAP_START_ADDRESS + n →
                      head_mapped w' EL_HEAP_START_ADDRESS = true).
  { intros w' Hs He. apply blk_in_heap_mapped. unfold blk_in_heap.
    rewrite Hs, He. el_lia. }
  wp_next; [by apply Hbh|]. wp_next; [by apply Hbh|].
  match goal with |- wp _ _ ?w0 => set (w3 := w0) end.
  assert (Hsz3 : sz w3 EL_HEAP_START_ADDRESS = n - EL_BLOCK_OVERHEAD).
  { unfold w3. rewrite !hdr_upd_head. by rewrite !decide_True. }
  assert (Hctl3 : el_ctl w3 = Ctl n EL_HEAP_START_ADDRESS
                    (EL_HEAP_START_ADDRESS + n) avail_actual used_actual)
    by done.
  assert (Hc3 : ctl_ok w3).
  { unfold ctl_ok. rewrite Hctl3. simpl. split_and!; try done; el_lia. }
  apply wp_bind. apply el_get_footer_spec.
  { done. }
  { unfold blk_in_heap. rewrite Hctl3. simpl. el_lia. }
  { rewrite Hsz3. lia. }
  { rewrite Hsz3, Hctl3. simpl. lia. }
  rewrite Hsz3.
  wp_next.
  { unfold foot_mapped, in_heap. rewrite Hctl3. simpl.
    apply andb_true_iff. split; apply Z.leb_le; el_lia. }
  assert (Hla3 : lst w3 avail_actual =
            BlockList (beg_actual_of avail_actual) (end_actual_of avail_actual)
                      0 0).
  { unfold w3. look. done. }
  assert (Hlu3 : lst w3 used_actual =
            BlockList (beg_actual_of used_actual) (end_actual_of used_actual)
                      0 0).
  { unfold w3. look. done. }
  assert (Hab3 : hdr w3 (beg_actual_of avail_actual) =
            BlockHead EL_UNINITIALIZED EL_BEGIN_BLOCK
                      (end_actual_of avail_actual) NULL).
  { unfold w3. look. done. }
  assert (Hae3 : hdr w3 (end_actual_of avail_actual) =
            BlockHead EL_UNINITIALIZED EL_END_BLOCK
                      NULL (beg_actual_of avail_actual)).
  { unfold w3. look. done. }
  assert (Hub3 : hdr w3 (beg_actual_of used_actual) =
            BlockHead EL_UNINITIALIZED EL_BEGIN_BLOCK
                      (end_actual_of used_actual) NULL).
  { unfold w3. look. done. }
  assert (Hue3 : hdr w3 (end_actual_of used_actual) =
            BlockHead EL_UNINITIALIZED EL_END_BLOCK
                      NULL (beg_actual_of used_actual)).
  { unfold w3. look. done. }
  assert (Hh3 : hdr w3 EL_HEAP_START_ADDRESS =
            BlockHead (n - EL_BLOCK_OVERHEAD) EL_AVAILABLE NULL NULL).
  { unfold w3. look. done. }
  assert (Hm3 : ∀ w', el_ctl w' = el_ctl w3 →
                     head_mapped w' EL_HEAP_START_ADDRESS = true).
  { intros w' E. apply Hbh; rewrite E, Hctl3; done. }
  clearbody w3.
  wp_next. rewrite Hctl3. simpl avail.
  wp_next. rewrite Hla3. simpl l_beg.
  wp_next; [by apply Hm3|].
  apply wp_bind. apply wp_rd; [by apply sentinel_head_mapped|].
  look. rewrite Hab3. simpl h_next.
  wp_next; [by apply Hm3|].
  apply wp_bind. apply wp_rd; [by apply Hm3|].
  look. simpl h_prev.
  apply wp_bind. apply wp_wr; [by apply sentinel_head_mapped|].
  apply wp_bind. apply wp_rd; [by apply Hm3|].
  look. simpl h_next.
  apply wp_bind. apply wp_wr; [by apply sentinel_head_mapped|].
  apply wp_bind. apply wp_rd_list; [done|].
  look. rewrite Hla3. simpl l_length.
  apply wp_bind. apply wp_wr_list; [done|].
  apply wp_bind. apply wp_rd; [by apply Hm3|].
  look. rewrite Hh3. simpl h_size.
  apply wp_bind. apply wp_rd_list; [done|].
  look. rewrite Hla3. simpl l_bytes.
  apply wp_bind. apply wp_wr_list; [done|].
  apply wp_ret.
  rewrite (wrap_small (0 + 1)) by done.
  rewrite (wrap_small (n - _ + _)) by el_lia.
  rewrite (wrap_small (0 + _)) by el_lia.
  match goal with |- Q _ ?w0 => set (wF := w0) end.
  assert (HhF : hdr wF EL_HEAP_START_ADDRESS =
            BlockHead (n - EL_BLOCK_OVERHEAD) EL_AVAILABLE
              (end_actual_of avail_actual) (beg_actual_of avail_actual)).
  { unfold wF. look. by rewrite Hh3. }
  assert (HabF : hdr wF (beg_actual_of avail_actual) =
            BlockHead EL_UNINITIALIZED EL_BEGIN_BLOCK
                      EL_HEAP_START_ADDRESS NULL).
  { unfold wF. look. by rewrite Hab3. }
  assert (HaeF : hdr wF (end_actual_of avail_actual) =
            BlockHead EL_UNINITIALIZED EL_END_BLOCK
                      NULL EL_HEAP_START_ADDRESS).
  { unfold wF. look. by rewrite Hae3. }
  assert (HubF : hdr wF (beg_actual_of used_actual) =
            BlockHead EL_UNINITIALIZED EL_BEGIN_BLOCK
                      (end_actual_of used_actual) NULL).
  { unfold wF. look. by rewrite Hub3. }
  assert (HueF : hdr wF (end_actual_of used_actual) =
            BlockHead EL_UNINITIALIZED EL_END_BLOCK
                      NULL (beg_actual_of used_actual)).
  { unfold wF. look. by rewrite Hue3. }
  assert (HlaF : lst wF avail_actual =
            BlockList (beg_actual_of avail_actual) (end_actual_of avail_actual)
                      1 n).
  { unfold wF. look. rewrite Hla3. unfold set_bytes, set_length. simpl.
    f_equal. lia. }
  assert (HluF : lst wF used_actual =
            BlockList (beg_actual_of used_actual) (end_actual_of used_actual)
                      0 0).
  { unfold wF. look. by rewrite Hlu3. }
  assert (HftF : ft wF (EL_HEAP_START_ADDRESS + sizeof_blockhead +
                        (n - EL_BLOCK_OVERHEAD)) = n - EL_BLOCK_OVERHEAD).
  { unfold wF. autorewrite with el. by rewrite decide_True. }
  assert (HctlF : el_ctl wF = Ctl n EL_HEAP_START_ADDRESS
                    (EL_HEAP_START_ADDRESS + n) avail_actual used_actual)
    by exact Hctl3.
  clearbody wF. unfold Q.
  assert (HcF : ctl_ok wF).
  { unfold ctl_ok. rewrite HctlF. simpl. split_and!; try done; el_lia. }
  assert (Hone : ∀ b, b ∈ [EL_HEAP_START_ADDRESS] → b = EL_HEAP_START_ADDRESS).
  { intros b Hb. by apply list_elem_of_singleton in Hb. }
  split_and!; [done| | |by rewrite HhF|done].
  - split.
    + split.
      * done.
      * split; [rewrite HlaF; simpl; rewrite HhF; simpl; f_equal; lia|].
        simpl. rewrite HabF, HhF, HaeF. done.
      * split; [by rewrite HluF|]. simpl. rewrite HubF, HueF. done.
      * apply NoDup_singleton.
      * intros b Hb. apply Hone in Hb as ->. rewrite HhF. simpl.
        unfold blk_in_heap. rewrite HctlF. simpl. el_lia.
      * simpl. rewrite HhF, HctlF. simpl. lia.
    + split.
      * intros b Hb. apply Hone in Hb as ->. rewrite HhF, HctlF. simpl.
        split_and!; [done|el_lia|el_lia|].
        exact HftF.
      * intros b b' Hb Hb'. apply Hone in Hb as ->. apply Hone in Hb' as ->. lia.
      * intros b Hb. apply Hone in Hb as ->. left. rewrite HhF, HctlF. simpl. lia.
      * intros b Hb. apply Hone in Hb as ->. left. by rewrite HctlF.
      * exists EL_HEAP_START_ADDRESS. split; [set_solver +|].
        rewrite HhF, HctlF. simpl. lia.
    + intros b Hb. apply Hone in Hb as ->. by rewrite HhF.
    + intros b Hb. by apply elem_of_nil in Hb.
    + simpl. rewrite HhF, HctlF. simpl. lia.
  - intros b b' Hb Hb' E. apply Hone in Hb as ->. apply Hone in Hb' as ->.
    rewrite HhF, HctlF. simpl. lia.
Qed.

(** ** More fuel does not change a result *)

Lemma bind_inv {A B} (c : M A) (k : A → M B) w r w' :
  bind c k w = Ok r w' → ∃ a w1, c w = Ok a w1 ∧ k a w1 = Ok r w'.
Proof. unfold bind. destruct (c w) as [a w1| |]; [|done..]. by exists a, w1. Qed.

Lemma bind_mono {A B} (c : M A) (k k' : A → M B) w r w' :
  bind c k w = Ok r w' →
  (∀ a w1, k a w1 = Ok r w' → k' a w1 = Ok r w') →
  bind c k' w = Ok r w'.
Proof.
  intros H Hk. apply bind_inv in H as (a & w1 & E & H).
  unfold bind. rewrite E. by apply Hk.
Qed.

Lemma find_first_avail_loop_mono f : ∀ size b w r w',
  find_first_avail_loop f size b w = Ok r w' →
  find_first_avail_loop (S f) size b w = Ok r w'.
Proof.
  induction f as [|f IH]; intros size b w r w' H; [done|].
  change (find_first_avail_loop (S f) size b) with
    (nxt <- rd h_next b ;;
     c <- get_ctl ;;
     end_ <- rd_list l_end (avail c) ;;
     if nxt =? end_ then ret NULL
     else
       st <- rd h_state nxt ;;
       if is_available st then
         sz <- rd h_size nxt ;;
         if size <=? sz then ret nxt
         else find_first_avail_loop f size nxt
       else find_first_avail_loop f size nxt) in H.
  change (find_first_avail_loop (S (S f)) size b) with
    (nxt <- rd h_next b ;;
     c <- get_ctl ;;
     end_ <- rd_list l_end (avail c) ;;
     if nxt =? end_ then ret NULL
     else
       st <- rd h_state nxt ;;
       if is_available st then
         sz <- rd h_size nxt ;;
         if size <=? sz then ret nxt
         else find_first_avail_loop (S f) size nxt
       else find_first_avail_loop (S f) size nxt).
  eapply bind_mono; [exact H|]; cbv beta. intros nxt w1 H1.
  eapply bind_mono; [exact H1|]; cbv beta. intros c w2 H2.
  eapply bind_mono; [exact H2|]; cbv beta. intros e w3 H3.
  destruct (nxt =? e); [done|].
  eapply bind_mono; [exact H3|]; cbv beta. intros s w4 H4.
  destruct (is_available s); [|by apply IH].
  eapply bind_mono; [exact H4|]; cbv beta. intros z w5 H5.
  destruct (size <=? z); [done|by apply IH].
Qed.

Lemma find_first_avail_loop_mono_le f f' size b w r w' :
  (f ≤ f')%nat →
  find_first_avail_loop f size b w = Ok r w' →
  find_first_avail_loop f' size b w = Ok r w'.
Proof.
  induction 1 as [|f' Hle IH]; [done|]. intros H.
  by apply find_first_avail_loop_mono, IH.
Qed.

Lemma el_malloc_mono f f' n w r w' :
  (f ≤ f')%nat →
  el_malloc f n w = Ok r w' → el_malloc f' n w = Ok r w'.
Proof.
  intros Hle H. unfold el_malloc in *.
  apply bind_inv in H as (b & w1 & E & H).
  unfold bind at 1. 
  assert (E' : el_find_first_avail f' n w = Ok b w1).
  { unfold el_find_first_avail in *.
    eapply bind_mono; [exact E|]. intros c w2 H2.
    eapply bind_mono; [exact H2|]; cbv beta. intros p w3 H3.
    by eapply find_first_avail_loop_mono_le. }
  by rewrite E'.
Qed.

Lemma merge_with_higher_mono (self self' : Z → M unit) x h w r w' :
  (∀ y w1, self y w1 = Ok r w' → self' y w1 = Ok r w') →
  merge_with_higher self x h w = Ok r w' →
  merge_with_higher self' x h w = Ok r w'.
Proof.
  intros Hs H. unfold merge_with_higher in *.
  eapply bind_mono; [exact H|]; cbv beta. intros s w1 H1.
  destruct (is_available s); [|done].
  repeat (eapply bind_mono; [eassumption|]; cbv beta; intros ? ? ?).
  by apply Hs.
Qed.

Lemma merge_with_lowerer_mono (self self' : Z → M unit) x w r w' :
  (∀ y w1, self y w1 = Ok r w' → self' y w1 = Ok r w') →
  merge_with_lowerer self x w = Ok r w' →
  merge_with_lowerer self' x w = Ok r w'.
Proof.
  intros Hs H. unfold merge_with_lowerer in *.
  eapply bind_mono; [exact H|]; cbv beta. intros l w1 H1.
  destruct (l =? NULL); [done|].
  eapply bind_mono; [exact H1|]; cbv beta. intros s w2 H2.
  destruct (is_available s); [by apply Hs|done].
Qed.

Lemma el_merge_mono f : ∀ x w r w',
  el_merge_block_with_above f x w = Ok r w' →
  el_merge_block_with_above (S f) x w = Ok r w'.
Proof.
  induction f as [|f IH]; intros x w r w' H; [done|].
  rewrite merge_unfold in H |- *.
  destruct (x =? NULL); [done|].
  eapply bind_mono; [exact H|]; cbv beta. intros s w1 H1.
  destruct (is_available s); [|done].
  eapply bind_mono; [exact H1|]; cbv beta. intros h w2 H2.
  destruct (h =? NULL); [done|].
  apply bind_inv in H2 as ([] & w3 & E & H3).
  unfold bind.
  assert (E' : merge_with_higher (el_merge_block_with_above (S f)) x h w2
               = Ok tt w3).
  { eapply merge_with_higher_mono; [|exact E]. intros y w4. apply IH. }
  rewrite E'.
  eapply merge_with_lowerer_mono; [|exact H3]. intros y w4. apply IH.
Qed.

Lemma el_merge_mono_le f f' x w r w' :
  (f ≤ f')%nat →
  el_merge_block_with_above f x w = Ok r w' →
  el_merge_block_with_above f' x w = Ok r w'.
Proof.
  induction 1 as [|f' Hle IH]; [done|]. intros H.
  by apply el_merge_mono, IH.
Qed.

Lemma el_free_mono f f' p w r w' :
  (f ≤ f')%nat →
  el_free f p w = Ok r w' → el_free f' p w = Ok r w'.
Proof.
  intros Hle H. unfold el_free in *.
  repeat (eapply bind_mono; [eassumption|]; cbv beta; intros ? ? ?).
  by eapply el_merge_mono_le.
Qed.

Lemma el_append_pages_mono f f' npages m w r w' :
  (f ≤ f')%nat →
  el_append_pages_to_heap f npages m w = Ok r w' →
  el_append_pages_to_heap f' npages m w = Ok r w'.
Proof.
  intros Hle H. unfold el_append_pages_to_heap in *.
  destruct (m =? MAP_FAILED); [done|].
  eapply bind_mono; [exact H|]; cbv beta. intros c w1 H1.
  destruct (negb (m =? heap_end c)); [done|].
  repeat (eapply bind_mono; [eassumption|]; cbv beta; intros ? ? ?).
  match goal with H : bind _ _ ?w0 = _ |- bind _ _ ?w0 = _ =>
    apply bind_inv in H as ([] & wm & E & Hm) end.
  unfold bind at 1.
  match type of E with (if ?pb =? NULL then _ else _) ?w0 = _ =>
    assert (E' : (if pb =? NULL then ret tt
       else pst <- rd h_state pb ;;
            if is_available pst
            then el_merge_block_with_above f' pb
            else ret tt) w0 = Ok tt wm);
    [destruct (pb =? NULL); [done|]|] end.
  { eapply bind_mono; [exact E|]; cbv beta. intros s ws Hs.
    destruct (is_available s); [|done]. by eapply el_merge_mono_le. }
  by rewrite E'.
Qed.

(** ** Allocation, all cases *)

Lemma malloc_split_top_pair w l1 b l2 lu n w' :
  heap_ok w (l1 ++ b :: l2) lu → top_pair_only w (l1 ++ b :: l2) →
  0 ≤ n → n + EL_BLOCK_OVERHEAD ≤ sz w b →
  el_ctl w' = el_ctl w →
  (∀ p, sz w' p = if decide (p = b + n + EL_BLOCK_OVERHEAD)
                  then sz w b - n - EL_BLOCK_OVERHEAD
                  else if decide (p = b) then n else sz w p) →
  top_pair_only w' ((b + n + EL_BLOCK_OVERHEAD) :: l1 ++ l2).
Proof.
  intros Hok Htp Hn HS Hctl Hsz x x' Hx Hx' E.
  pose proof Hok as [Hl Ht _ _ _].
  set (r := b + n + EL_BLOCK_OVERHEAD) in *.
  assert (HbB : b ∈ (l1 ++ b :: l2) ++ lu) by set_solver +.
  assert (Hbl : b ∉ l1 ++ l2).
  { pose proof (lo_nodup _ _ _ Hl) as Hnd.
    apply NoDup_app in Hnd as (Hnd & _ & _).
    apply NoDup_app in Hnd as (_ & Hd & Hnd2).
    apply NoDup_cons in Hnd2 as [Hb2 _].
    intros Hin. apply elem_of_app in Hin as [Hin|Hin]; [|done].
    apply (Hd b Hin). set_solver +. }
  assert (Hr : r ∉ (l1 ++ b :: l2) ++ lu).
  { apply (tiling_inside_fresh w _ b); [done|done|unfold r; el_lia|unfold r; el_lia]. }
  assert (Hold : ∀ y, y ∈ l1 ++ l2 → y ∈ l1 ++ b :: l2 ∧ y ≠ b ∧ y ≠ r ∧
                      sz w' y = sz w y).
  { intros y Hy.
    assert (y ∈ l1 ++ b :: l2) by set_solver + Hy.
    assert (y ≠ b) by (intros ->; done).
    assert (y ≠ r) by (intros ->; apply Hr; set_solver + H).
    split_and!; try done. rewrite Hsz. by rewrite !decide_False. }
  assert (Hszr : sz w' r = sz w b - n - EL_BLOCK_OVERHEAD).
  { rewrite Hsz. by rewrite decide_True. }
  rewrite Hctl.
  apply elem_of_cons in Hx as [->|Hx].
  - rewrite Hszr in E.
    apply elem_of_cons in Hx' as [Ex'|Hx']; [unfold r in *; el_lia|].
    destruct (Hold x' Hx') as (Hx'1 & Hx'2 & Hx'3 & Hx'4).
    rewrite Hx'4. apply (Htp b x'); [set_solver +|done|unfold r in E; lia].
  - destruct (Hold x Hx) as (Hx1 & Hx2 & Hx3 & Hx4). rewrite Hx4 in E.
    assert (HxB : x ∈ (l1 ++ b :: l2) ++ lu) by set_solver + Hx1.
    apply elem_of_cons in Hx' as [Ex'|Hx'].
    + exfalso.
      destruct (til_block _ _ Ht x HxB) as (_ & Hx0 & _ & _).
      destruct (Z.lt_total x b) as [Hlt|[Heq|Hgt]]; [|done|].
      * pose proof (til_disj _ _ Ht x b HxB HbB Hlt). unfold r in *. el_lia.
      * pose proof (til_disj _ _ Ht b x HbB HxB Hgt). unfold r in *. el_lia.
    + destruct (Hold x' Hx') as (Hx'1 & Hx'2 & Hx'3 & Hx'4).
      rewrite Hx'4. by apply (Htp x x').
Qed.

(** [el_malloc] on a state that satisfies the invariant: no member of the
    available list is large enough and nothing happens, or the first one
    that is large enough is handed out, split when it has room for a
    second block. *)
Lemma el_malloc_total w la lu fuel n :
  heap_ok w la lu → 0 ≤ n → (length la < fuel)%nat →
  ((∀ x, x ∈ la → sz w x < n) ∧ el_malloc fuel n w = Ok NULL w) ∨
  (∃ l1 b l2 w' la',
     la = l1 ++ b :: l2 ∧ (∀ x, x ∈ l1 → sz w x < n) ∧ n ≤ sz w b ∧
     el_malloc fuel n w = Ok (b + sizeof_blockhead) w' ∧
     heap_ok w' la' (b :: lu) ∧
     (top_pair_only w la → top_pair_only w' la') ∧
     el_ctl w' = el_ctl w ∧ st w' b = EL_USED ∧
     (∀ p, p ≠ b → p ≠ b + n + EL_BLOCK_OVERHEAD → sz w' p = sz w p) ∧
     ((n + EL_BLOCK_OVERHEAD ≤ sz w b ∧ sz w' b = n ∧
       la' = (b + n + EL_BLOCK_OVERHEAD) :: l1 ++ l2 ∧
       sz w' (b + n + EL_BLOCK_OVERHEAD) = sz w b - n - EL_BLOCK_OVERHEAD ∧
       st w' (b + n + EL_BLOCK_OVERHEAD) = EL_AVAILABLE) ∨
      (sz w b < n + EL_BLOCK_OVERHEAD ∧ la' = l1 ++ l2 ∧
       ∀ p, sz w' p = sz w p))).
Proof.
  intros Hok Hn Hfuel.
  assert (Hsmall : ∀ l : list Z, (∀ x, x ∈ l → x ∈ la) →
            (∀ x, x ∈ l → ¬ (st w x = EL_AVAILABLE ∧ n ≤ sz w x)) →
            ∀ x, x ∈ l → sz w x < n).
  { intros l Hsub Hl x Hx.
    destruct (Z.lt_ge_cases (sz w x) n) as [|Hge]; [done|].
    exfalso. apply (Hl x Hx). split; [|done].
    apply (ok_avail _ _ _ Hok). by apply Hsub. }
  destruct (first_fit_cases w n la)
    as [[E Hall]|(l1 & b & l2 & Ela & E & Hst & Hsz & Hall)].
  - left. split; [by apply (Hsmall la)|].
    apply (el_malloc_none w la lu); [apply Hok|done|done].
  - right. exists l1, b, l2.
    assert (Hl1 : ∀ x, x ∈ l1 → sz w x < n).
    { apply Hsmall; [|done]. intros x Hx. rewrite Ela. set_solver + Hx. }
    destruct (Z.lt_ge_cases (sz w b) (n + EL_BLOCK_OVERHEAD)) as [Hlt|Hge].
    + destruct (el_malloc_nosplit w la lu l1 b l2 fuel n)
        as (w' & Em & Hok' & Hctl & Hsz' & Hst' & Hft'); try done.
      exists w', (l1 ++ l2). split_and!; try done.
      * intros Htp x x' Hx Hx' Ex. rewrite Hctl, Hsz'. rewrite Hsz' in Ex.
        apply (Htp x x'); [rewrite Ela; set_solver + Hx
                          |rewrite Ela; set_solver + Hx'|done].
      * rewrite Hst'. by rewrite decide_True.
      * right. done.
    + destruct (el_malloc_split w la lu l1 b l2 fuel n)
        as (w' & Em & Hok' & Hctl & Hsz' & Hst' & Hft'); try done.
      exists w', ((b + n + EL_BLOCK_OVERHEAD) :: l1 ++ l2).
      split_and!; try done.
      * intros Htp. subst la. by eapply malloc_split_top_pair.
      * rewrite Hst'. rewrite decide_False by el_lia. by rewrite decide_True.
      * intros p Hp1 Hp2. rewrite Hsz'. by rewrite !decide_False.
      * left. split_and!; try done.
        -- rewrite Hsz'. rewrite decide_False by el_lia. by rewrite decide_True.
        -- rewrite Hsz'. by rewrite decide_True.
        -- rewrite Hst'. by rewrite decide_True.
Qed.

(** ** The paths that give up *)

Lemma el_init_too_small n :
  n < EL_BLOCK_OVERHEAD →
  el_init n fresh_world =
    Ok 1 (with_ctl (Ctl n EL_HEAP_START_ADDRESS
                        (PTR_PLUS_BYTES EL_HEAP_START_ADDRESS n) NULL NULL)
                   fresh_world).
Proof.
  intros Hn. unfold el_init, bind, put_ctl, get_ctl. simpl.
  destruct (Z.ltb_spec n EL_BLOCK_OVERHEAD); [done|lia].
Qed.

Lemma el_append_pages_fail fuel npages m w :
  m = MAP_FAILED ∨ m ≠ heap_end (el_ctl w) →
  el_append_pages_to_heap fuel npages m w = Ok 1 w.
Proof.
  intros H. unfold el_append_pages_to_heap.
  destruct (Z.eqb_spec m MAP_FAILED) as [|Hm]; [done|].
  destruct H as [|H]; [done|].
  unfold bind, get_ctl.
  destruct (Z.eqb_spec m (heap_end (el_ctl w))); [done|]. done.
Qed.

(** ** The states the allocator can be in *)

(** The memory after [el_init] with a heap of [n] bytes. *)
Definition init_world (n : Z) : world :=
  match el_init n fresh_world with
  | Ok _ w => w
  | _ => fresh_world
  end.

Lemma init_world_ok n :
  EL_BLOCK_OVERHEAD ≤ n →
  EL_HEAP_START_ADDRESS + n ≤ EL_CTL_START_ADDRESS →
  el_init n fresh_world = Ok 0 (init_world n) ∧
  heap_ok (init_world n) [EL_HEAP_START_ADDRESS] [] ∧
  top_pair_only (init_world n) [EL_HEAP_START_ADDRESS] ∧
  sz (init_world n) EL_HEAP_START_ADDRESS = n - EL_BLOCK_OVERHEAD ∧
  el_ctl (init_world n) =
    Ctl n EL_HEAP_START_ADDRESS (EL_HEAP_START_ADDRESS + n)
        avail_actual used_actual.
Proof.
  intros H1 H2. destruct (el_init_spec n H1 H2) as (w & E & H).
  unfold init_world. rewrite E. done.
Qed.

(** From here on the memory after [el_init] is used through
    [init_world_ok]. *)
#[global] Opaque init_world.

(** [reachable live w]: the memory [w] is what a client gets that calls
    [el_init] and then [el_malloc], [el_free] and [el_append_pages_to_heap]
    in any order, and releases only pointers it holds; [live] are the
    pointers it holds.  The heap pages lie below the control page, and
    [mmap] answers with the requested address only when it has mapped at
    least one page there. *)
Inductive reachable : list Z → world → Prop :=
  | reach_init n w :
      EL_HEAP_START_ADDRESS + n ≤ EL_CTL_START_ADDRESS →
      el_init n fresh_world = Ok 0 w →
      reachable [] w
  | reach_malloc live w fuel n p w' :
      reachable live w → 0 ≤ n →
      el_malloc fuel n w = Ok p w' →
      reachable (if decide (p = NULL) then live else p :: live) w'
  | reach_free live w fuel p w' :
      reachable live w → p ∈ live →
      el_free fuel p w = Ok tt w' →
      reachable (filter (λ q, q ≠ p) live) w'
  | reach_append live w fuel npages m r w' :
      reachable live w →
      (m = heap_end (el_ctl w) →
       1 ≤ npages ∧
       heap_end (el_ctl w) + npages * EL_PAGE_BYTES ≤ EL_CTL_START_ADDRESS) →
      el_append_pages_to_heap fuel npages m w = Ok r w' →
      reachable live w'.

(** Every such state satisfies the invariant, and the pointers the client
    holds are those of the blocks on the used list. *)
Lemma reachable_inv live w :
  reachable live w →
  ∃ la lu, heap_ok w la lu ∧ top_pair_only w la ∧
           ∀ p, p ∈ live ↔ p - sizeof_blockhead ∈ lu.
Proof.
  induction 1 as [n w Hfit E
                 |live w fuel n p w' _ IH Hn E
                 |live w fuel p w' _ IH Hp E
                 |live w fuel npages m r w' _ IH Hm E].
  - destruct (Z.lt_ge_cases n EL_BLOCK_OVERHEAD) as [Hlt|Hge].
    { rewrite (el_init_too_small n Hlt) in E. done. }
    destruct (el_init_spec n Hge Hfit) as (w0 & E0 & Hok & Htp & _).
    rewrite E0 in E. injection E as <-.
    exists [EL_HEAP_START_ADDRESS], []. split_and!; try done.
    intros p. split; intros Hp; by apply elem_of_nil in Hp.
  - destruct IH as (la & lu & Hok & Htp & Hlive).
    apply (el_malloc_mono fuel (fuel `max` S (length la))) in E; [|lia].
    destruct (el_malloc_total w la lu (fuel `max` S (length la)) n)
      as [[_ E']|(l1 & b & l2 & w1 & la' & Ela & _ & _ & E' & Hok' & Htp'
                  & _)]; try done; try lia.
    all: try specialize (Htp' Htp).
    + rewrite E' in E. injection E as <- <-. rewrite decide_True by done.
      by exists la, lu.
    + rewrite E' in E. injection E as <- <-.
      assert (HbB : b ∈ la ++ lu) by (rewrite Ela; set_solver +).
      destruct (heap_ok_block _ _ _ _ Hok HbB) as ([Hb1 _] & _ & _ & _).
      pose proof (lo_ctl _ _ _ (ok_lists _ _ _ Hok)) as (Hs & _).
      rewrite decide_False by el_lia.
      exists la', (b :: lu). split_and!; try done.
      intros p. rewrite !elem_of_cons, Hlive.
      split; (intros [H|H]; [left; lia|by right]).
  - destruct IH as (la & lu & Hok & Htp & Hlive).
    apply Hlive in Hp.
    apply list_elem_of_split in Hp as (l1 & l2 & Elu). subst lu.
    destruct (el_free_spec w la l1 (p - sizeof_blockhead) l2 fuel Hok Htp)
      as (w1 & la' & E' & Hrel).
    replace (p - sizeof_blockhead + sizeof_blockhead) with p in E' by lia.
    apply (el_free_mono fuel (S (S (S (S fuel))))) in E; [|lia].
    rewrite E' in E. injection E as <-.
    destruct Hrel as (Hok' & Htp' & _ & Hlu' & _).
    exists la', (l1 ++ l2). split_and!; try done.
    intros q. rewrite list_elem_of_filter, Hlive, Hlu'.
    split; intros [H1 H2]; split; (done || lia).
  - destruct IH as (la & lu & Hok & Htp & Hlive).
    destruct (decide (m = heap_end (el_ctl w))) as [->|Hne].
    + destruct (Hm eq_refl) as [Hnp Hfit].
      destruct (el_append_pages_spec w la lu npages fuel Hok Htp Hnp Hfit)
        as (w1 & la' & E' & Happ).
      apply (el_append_pages_mono fuel (S (S (S fuel)))) in E; [|lia].
      rewrite E' in E. injection E as <- <-.
      destruct (appended_inv w la lu (npages * EL_PAGE_BYTES) w1 la' Hok Htp)
        as [Hok' Htp']; [el_lia|done|].
      by exists la', lu.
    + rewrite el_append_pages_fail in E by by right.
      injection E as <- <-. by exists la, lu.
Qed.

(** * The properties of the specification *)

(** ** Two clients *)

(** [mmap] grants the request of [el_append_pages_to_heap]: it answers with
    the address asked for. *)
Definition grow_granted (fuel : nat) (npages : Z) : M Z :=
  c <- get_ctl ;;
  el_append_pages_to_heap fuel npages (heap_end c).

(** A heap of one page is cut into two blocks that fill it; both are
    released, the lower one first. *)
Definition release_bottom_then_top : M (Z * Z) :=
  el_init 4096 ;;;
  a <- el_malloc 8 100 ;;
  b <- el_malloc 8 3916 ;;
  el_free 8 a ;;;
  el_free 8 b ;;;
  ret (a, b).

(** The same with the two releases in the other order. *)
Definition release_top_then_bottom : M (Z * Z) :=
  el_init 4096 ;;;
  a <- el_malloc 8 100 ;;
  b <- el_malloc 8 3916 ;;
  el_free 8 b ;;;
  el_free 8 a ;;;
  ret (a, b).

(** ** Members of a list *)

(** [l] are the blocks between the two sentinels of the list at [L], in the
    order of the [next] pointers. *)
Definition list_members (w : world) (L : Z) (l : list Z) : Prop :=
  chain (λ p, nx w p) (λ p, pv w p) (l_beg (lst w L)) l (l_end (lst w L)) ∧
  NoDup l ∧ l_beg (lst w L) ∉ l ∧ l_end (lst w L) ∉ l.

Lemma lists_ok_members w la lu :
  lists_ok w la lu →
  list_members w avail_actual la ∧ list_members w used_actual lu.
Proof.
  intros [Hc [Hla Hca] [Hlu Hcu] Hnd Hh _].
  apply NoDup_app in Hnd as (Hnda & _ & Hndu).
  assert (Hs : ∀ L p b, list_mapped L = true →
            p ∈ [beg_actual_of L; end_actual_of L] → b ∈ la ++ lu → p ≠ b).
  { intros L p b HL Hp Hb ->.
    apply (sentinel_of_list w L b Hc HL Hp). by apply Hh. }
  split; unfold list_members.
  - rewrite Hla. simpl. split_and!; try done.
    + intros Hin. apply (Hs avail_actual (beg_actual_of avail_actual)
                            (beg_actual_of avail_actual)); try done;
        [set_solver +|set_solver + Hin].
    + intros Hin. apply (Hs avail_actual (end_actual_of avail_actual)
                            (end_actual_of avail_actual)); try done;
        [set_solver +|set_solver + Hin].
  - rewrite Hlu. simpl. split_and!; try done.
    + intros Hin. apply (Hs used_actual (beg_actual_of used_actual)
                            (beg_actual_of used_actual)); try done;
        [set_solver +|set_solver + Hin].
    + intros Hin. apply (Hs used_actual (end_actual_of used_actual)
                            (end_actual_of used_actual)); try done;
        [set_solver +|set_solver + Hin].
Qed.

(** ** C1 and C2: coalescing on release *)

(** C1 (the code departs from it): after the client
    [release_bottom_then_top] has returned from its last [el_free], the
    block at the start of the heap and the block right above it, which ends
    the heap, are both [EL_AVAILABLE]: two address-adjacent free blocks in a
    state reached by [el_init], [el_malloc] and [el_free] alone. *)
Theorem C1_adjacent_free_blocks_after_free :
  wp release_bottom_then_top
     (λ '(a, b) w,
        let lower := a - sizeof_blockhead in
        let upper := b - sizeof_blockhead in
        lower = heap_start (el_ctl w) ∧
        st w lower = EL_AVAILABLE ∧ st w upper = EL_AVAILABLE ∧
        el_block_above lower w = Ok upper w ∧
        upper = EL_HEAP_START_ADDRESS + 140 ∧
        el_block_above upper w = Ok NULL w)
     fresh_world.
Proof. vm_compute. repeat split. Qed.

(** C2 (the code departs from it): in [release_bottom_then_top] the last
    [el_free] releases the block [b] whose lower neighbour is free; when it
    returns the two are still separate blocks of 100 and 3916 bytes, both
    on the available list, where one block of 4056 bytes was to be.  With
    the releases in the other order the run is collapsed. *)
Theorem C2_free_run_not_collapsed :
  wp release_bottom_then_top
     (λ '(a, b) w,
        sz w (a - sizeof_blockhead) = 100 ∧
        sz w (b - sizeof_blockhead) = 3916 ∧
        el_block_below (b - sizeof_blockhead) w
          = Ok (a - sizeof_blockhead) w ∧
        l_length (lst w (avail (el_ctl w))) = 2 ∧
        l_length (lst w (used (el_ctl w))) = 0)
     fresh_world ∧
  wp release_top_then_bottom
     (λ '(a, b) w,
        sz w (a - sizeof_blockhead) = 4056 ∧
        el_block_above (a - sizeof_blockhead) w = Ok NULL w ∧
        l_length (lst w (avail (el_ctl w))) = 1 ∧
        l_length (lst w (used (el_ctl w))) = 0)
     fresh_world.
Proof. split; vm_compute; repeat split. Qed.

(** ** C3: splitting *)

(** C3 (the code departs from it): for the block of 4056 bytes of a fresh
    heap of one page and the request [N = 2^64 - 1], the block is too small
    ([4056 < N + EL_BLOCK_OVERHEAD]), and yet [el_split_block] does not
    return [NULL]: the sum [N + EL_BLOCK_OVERHEAD] wraps around to 39, the
    test lets the block pass, its size is overwritten with [N] and the
    address 39 bytes above it is returned as the new block. *)
Theorem C3_split_guard_wraps :
  sz (init_world 4096) EL_HEAP_START_ADDRESS = 4056 ∧
  4056 < (SIZE_MODULUS - 1) + EL_BLOCK_OVERHEAD ∧
  wp (el_split_block EL_HEAP_START_ADDRESS (SIZE_MODULUS - 1))
     (λ r w', r = EL_HEAP_START_ADDRESS + 39 ∧
              sz w' EL_HEAP_START_ADDRESS = SIZE_MODULUS - 1)
     (init_world 4096).
Proof. vm_compute. repeat split. Qed.

(** ** Facts about the heap of one page *)

Lemma page_heap_fits :
  EL_BLOCK_OVERHEAD ≤ 4096 ∧
  EL_HEAP_START_ADDRESS + 4096 ≤ EL_CTL_START_ADDRESS.
Proof. split; vm_compute; discriminate. Qed.

Lemma page_heap_ok :
  el_init 4096 fresh_world = Ok 0 (init_world 4096) ∧
  heap_ok (init_world 4096) [EL_HEAP_START_ADDRESS] [] ∧
  top_pair_only (init_world 4096) [EL_HEAP_START_ADDRESS] ∧
  sz (init_world 4096) EL_HEAP_START_ADDRESS = 4056 ∧
  el_ctl (init_world 4096) =
    Ctl 4096 EL_HEAP_START_ADDRESS (EL_HEAP_START_ADDRESS + 4096)
        avail_actual used_actual.
Proof.
  destruct page_heap_fits as [H1 H2]. by apply init_world_ok.
Qed.

Lemma page_heap_reachable : reachable [] (init_world 4096).
Proof.
  destruct page_heap_fits as [H1 H2].
  destruct page_heap_ok as (E & _).
  by apply (reach_init 4096).
Qed.

(** Decide a closed statement about concrete addresses. *)
Ltac by_decide := apply (bool_decide_unpack _); vm_compute; exact I.

(** ** Two more small heaps *)

(** The memory a computation ends in. *)
Definition run_world {A} (c : M A) (w : world) : world :=
  match c w with
  | Ok _ w' => w'
  | _ => w
  end.

(** The heap of one page after [el_malloc 100]: an allocated block of 100
    bytes under a free block of 3916 bytes. *)
Definition split_page_world : world :=
  run_world (el_malloc 2 100) (init_world 4096).

(** The heap of one page after [el_malloc 4056]: one allocated block. *)
Definition used_page_world : world :=
  run_world (el_malloc 2 4056) (init_world 4096).

Lemma first_fit_page n :
  n ≤ 4056 →
  first_fit (init_world 4096) n [EL_HEAP_START_ADDRESS] = EL_HEAP_START_ADDRESS.
Proof.
  intros Hn. destruct page_heap_ok as (_ & Hok & _ & Hsz & _).
  unfold first_fit.
  rewrite (ok_avail _ _ _ Hok) by set_solver +. rewrite Hsz.
  unfold is_available. cbv beta iota.
  destruct (Z.leb_spec n 4056); [done|lia].
Qed.

Lemma split_page_ok :
  el_malloc 2 100 (init_world 4096)
    = Ok (EL_HEAP_START_ADDRESS + sizeof_blockhead) split_page_world ∧
  heap_ok split_page_world [EL_HEAP_START_ADDRESS + 140]
          [EL_HEAP_START_ADDRESS] ∧
  top_pair_only split_page_world [EL_HEAP_START_ADDRESS + 140] ∧
  sz split_page_world EL_HEAP_START_ADDRESS = 100 ∧
  sz split_page_world (EL_HEAP_START_ADDRESS + 140) = 3916 ∧
  el_ctl split_page_world = el_ctl (init_world 4096).
Proof.
  destruct page_heap_ok as (_ & Hok & Htp & Hsz & Hctl).
  assert (Hff : first_fit (init_world 4096) 100 [EL_HEAP_START_ADDRESS]
                = EL_HEAP_START_ADDRESS) by (apply first_fit_page; lia).
  assert (Hroom : 100 + EL_BLOCK_OVERHEAD
                  ≤ sz (init_world 4096) EL_HEAP_START_ADDRESS).
  { rewrite Hsz. vm_compute. discriminate. }
  assert (Hfuel : (length [EL_HEAP_START_ADDRESS] < 2)%nat) by (simpl; lia).
  destruct (el_malloc_split (init_world 4096) [EL_HEAP_START_ADDRESS] []
              [] EL_HEAP_START_ADDRESS [] 2 100 Hok eq_refl Hff
              ltac:(lia) Hroom Hfuel)
    as (w' & E & Hok' & Hctl' & Hsz' & Hst' & Hft').
  unfold split_page_world, run_world. rewrite E. clear E.
  replace (EL_HEAP_START_ADDRESS + 100 + EL_BLOCK_OVERHEAD)
    with (EL_HEAP_START_ADDRESS + 140) in * by (vm_compute; reflexivity).
  assert (Hne : EL_HEAP_START_ADDRESS ≠ EL_HEAP_START_ADDRESS + 140)
    by (vm_compute; discriminate).
  assert (Hszr : sz w' (EL_HEAP_START_ADDRESS + 140) = 3916).
  { rewrite Hsz'. rewrite decide_True by reflexivity. rewrite Hsz.
    reflexivity. }
  split_and!.
  - reflexivity.
  - exact Hok'.
  - intros b b' Hb Hb' Eb.
    apply list_elem_of_singleton in Hb, Hb'. subst b b'.
    rewrite Hszr in Eb. vm_compute in Eb. discriminate Eb.
  - rewrite Hsz'. rewrite decide_False by exact Hne.
    rewrite decide_True by reflexivity. reflexivity.
  - exact Hszr.
  - exact Hctl'.
Qed.

Lemma used_page_ok :
  el_malloc 2 4056 (init_world 4096)
    = Ok (EL_HEAP_START_ADDRESS + sizeof_blockhead) used_page_world ∧
  heap_ok used_page_world [] [EL_HEAP_START_ADDRESS] ∧
  top_pair_only used_page_world [] ∧
  sz used_page_world EL_HEAP_START_ADDRESS = 4056 ∧
  el_ctl used_page_world = el_ctl (init_world 4096).
Proof.
  destruct page_heap_ok as (_ & Hok & Htp & Hsz & Hctl).
  assert (Hff : first_fit (init_world 4096) 4056 [EL_HEAP_START_ADDRESS]
                = EL_HEAP_START_ADDRESS) by (apply first_fit_page; lia).
  assert (Hle : 4056 ≤ sz (init_world 4096) EL_HEAP_START_ADDRESS)
    by (rewrite Hsz; lia).
  assert (Hlt : sz (init_world 4096) EL_HEAP_START_ADDRESS
                < 4056 + EL_BLOCK_OVERHEAD).
  { rewrite Hsz. vm_compute. reflexivity. }
  assert (Hfuel : (length [EL_HEAP_START_ADDRESS] < 2)%nat) by (simpl; lia).
  destruct (el_malloc_nosplit (init_world 4096) [EL_HEAP_START_ADDRESS] []
              [] EL_HEAP_START_ADDRESS [] 2 4056 Hok eq_refl Hff
              ltac:(lia) Hle Hlt Hfuel)
    as (w' & E & Hok' & Hctl' & Hsz' & Hst' & Hft').
  unfold used_page_world, run_world. rewrite E. clear E.
  split_and!.
  - reflexivity.
  - exact Hok'.
  - intros b b' Hb. apply elem_of_nil in Hb. destruct Hb.
  - rewrite Hsz'. exact Hsz.
  - exact Hctl'.
Qed.

(** ** Heaps whose available list has two members *)

(** Three blocks of 100, 200 and 300 bytes are allocated in a heap of one
    page. *)
Definition three_used : M (Z * Z * Z) :=
  el_init 4096 ;;;
  a <- el_malloc 8 100 ;;
  b <- el_malloc 8 200 ;;
  c <- el_malloc 8 300 ;;
  ret (a, b, c).

(** The upper one is released and then the lower one: the available list
    is the block of 100 bytes at [heap_start] followed by the block of
    3676 bytes at [heap_start + 380]; the block of 200 bytes between them
    is in use. *)
Definition small_first_world : world :=
  run_world (abc <- three_used ;;
             let '(a, b, c) := abc in
             el_free 8 c ;;; el_free 8 a) fresh_world.

(** The same releases in the other order: the same blocks, the large one
    first on the available list. *)
Definition large_first_world : world :=
  run_world (abc <- three_used ;;
             let '(a, b, c) := abc in
             el_free 8 a ;;; el_free 8 c) fresh_world.

(** A case analysis on the members of a concrete list. *)
Ltac by_cases_on H :=
  repeat (apply elem_of_cons in H as [->|H]);
  [..|apply elem_of_nil in H; destruct H].

(** [lists_ok] of a concrete memory, by evaluation. *)
Ltac concrete_lists_ok :=
  split;
  [ vm_compute; repeat split; first [reflexivity|discriminate]
  | split; [vm_compute; reflexivity|vm_compute; repeat split]
  | split; [vm_compute; reflexivity|vm_compute; repeat split]
  | by_decide
  | let b := fresh "b" in let Hb := fresh "Hb" in
    intros b Hb; simpl in Hb; by_cases_on Hb;
    vm_compute; repeat split; discriminate
  | vm_compute; discriminate ].

Lemma small_first_lists :
  lists_ok small_first_world
           [EL_HEAP_START_ADDRESS; EL_HEAP_START_ADDRESS + 380]
           [EL_HEAP_START_ADDRESS + 140].
Proof. concrete_lists_ok. Qed.

Lemma large_first_lists :
  lists_ok large_first_world
           [EL_HEAP_START_ADDRESS + 380; EL_HEAP_START_ADDRESS]
           [EL_HEAP_START_ADDRESS + 140].
Proof. concrete_lists_ok. Qed.

Lemma small_first_avail b :
  b ∈ [EL_HEAP_START_ADDRESS; EL_HEAP_START_ADDRESS + 380] →
  st small_first_world b = EL_AVAILABLE.
Proof. intros Hb. by_cases_on Hb; vm_compute; reflexivity. Qed.

Lemma large_first_avail b :
  b ∈ [EL_HEAP_START_ADDRESS + 380; EL_HEAP_START_ADDRESS] →
  st large_first_world b = EL_AVAILABLE.
Proof. intros Hb. by_cases_on Hb; vm_compute; reflexivity. Qed.

(** A block of 100 bytes is allocated and then moved from the used list
    to the front of the available list by the two list operations alone,
    its state left as it is: a member of the available list that is not
    [EL_AVAILABLE]. *)
Definition stale_state_world : world :=
  run_world (el_init 4096 ;;;
             a <- el_malloc 8 100 ;;
             el_remove_block used_actual (a - sizeof_blockhead) ;;;
             el_add_block_front avail_actual (a - sizeof_blockhead))
            fresh_world.

Lemma stale_state_lists :
  lists_ok stale_state_world
           [EL_HEAP_START_ADDRESS; EL_HEAP_START_ADDRESS + 140] [].
Proof. concrete_lists_ok. Qed.

(** The result described by "the first member that passes, or [NULL]" is
    the one [first_fit] computes. *)
Lemma first_fit_unique w n la : ∀ r,
  (r = NULL ∧ ∀ b, b ∈ la → ¬ (st w b = EL_AVAILABLE ∧ n ≤ sz w b)) ∨
  (∃ l1 l2, la = l1 ++ r :: l2 ∧ st w r = EL_AVAILABLE ∧ n ≤ sz w r ∧
            ∀ x, x ∈ l1 → ¬ (st w x = EL_AVAILABLE ∧ n ≤ sz w x)) →
  r = first_fit w n la.
Proof.
  assert (Hno : ∀ b, ¬ (st w b = EL_AVAILABLE ∧ n ≤ sz w b) →
            is_available (st w b) && (n <=? sz w b) = false).
  { intros b Hb. apply not_true_is_false. intros E.
    apply andb_true_iff in E as [E1 E2]. apply Z.leb_le in E2.
    apply Hb. split; [|exact E2]. by destruct (st w b). }
  induction la as [|b la IH]; intros r H.
  - destruct H as [[-> _]|(l1 & l2 & E & _)]; [reflexivity|].
    by destruct l1.
  - simpl. destruct H as [[-> Hall]|(l1 & l2 & E & Hst & Hsz & Hl1)].
    + rewrite (Hno b) by (apply Hall; set_solver +).
      apply IH. left. split; [reflexivity|].
      intros x Hx. apply Hall. set_solver + Hx.
    + destruct l1 as [|c l1]; simpl in E; injection E as E1 E2.
      * subst b. rewrite Hst. simpl.
        destruct (Z.leb_spec n (sz w r)); [reflexivity|lia].
      * subst c. rewrite (Hno b) by (apply Hl1; set_solver +).
        apply IH. right. exists l1, l2. split_and!; try assumption.
        intros x Hx. apply Hl1. set_solver + Hx.
Qed.

Lemma first_fit_unique_avail w n la r :
  (∀ b, b ∈ la → st w b = EL_AVAILABLE) →
  (r = NULL ∧ ∀ b, b ∈ la → sz w b < n) ∨
  (∃ l1 l2, la = l1 ++ r :: l2 ∧ n ≤ sz w r ∧ ∀ x, x ∈ l1 → sz w x < n) →
  r = first_fit w n la.
Proof.
  intros Hst H. apply first_fit_unique.
  destruct H as [[-> Hall]|(l1 & l2 & E & Hsz & Hl1)].
  - left. split; [reflexivity|]. intros b Hb [_ Hn].
    specialize (Hall b Hb). lia.
  - right. exists l1, l2. split_and!; try assumption.
    + apply Hst. rewrite E. set_solver +.
    + intros x Hx [_ Hn]. specialize (Hl1 x Hx). lia.
Qed.

(** ** C4: the counters of the two lists *)

(** C4: in every state a client can reach with [el_init], [el_malloc],
    [el_free] and [el_append_pages_to_heap], for the available list and for
    the used list, the [length] field is the number of blocks between the
    sentinels and the [bytes] field is the sum of
    [size + EL_BLOCK_OVERHEAD] over them. *)
Theorem C4_list_counters live w L :
  reachable live w →
  L = avail (el_ctl w) ∨ L = used (el_ctl w) →
  ∃ l, list_members w L l ∧
       l_length (lst w L) = Z.of_nat (length l) ∧
       l_bytes (lst w L) = sum_bytes w l.
Proof.
  intros Hr HL.
  destruct (reachable_inv live w Hr) as (la & lu & Hok & _ & _).
  pose proof (ok_lists _ _ _ Hok) as Hl.
  destruct (lists_ok_members w la lu Hl) as [Hma Hmu].
  pose proof (lo_ctl _ _ _ Hl) as (_ & _ & _ & _ & Hav & Hus).
  destruct HL as [->| ->].
  - exists la. rewrite Hav. split; [done|].
    by rewrite (dll_lst _ _ _ (lo_avail _ _ _ Hl)).
  - exists lu. rewrite Hus. split; [done|].
    by rewrite (dll_lst _ _ _ (lo_used _ _ _ Hl)).
Qed.

Lemma C4_list_counters_witness :
  ∃ l, list_members (init_world 4096) (avail (el_ctl (init_world 4096))) l ∧
       l_length (lst (init_world 4096) (avail (el_ctl (init_world 4096))))
         = Z.of_nat (length l) ∧
       l_bytes (lst (init_world 4096) (avail (el_ctl (init_world 4096))))
         = sum_bytes (init_world 4096) l.
Proof.
  apply (C4_list_counters [] (init_world 4096)
           (avail (el_ctl (init_world 4096))) page_heap_reachable).
  left. reflexivity.
Defined.

(** ** C5: allocate, then release *)

(** C5: in a state that satisfies the invariant, when some free block is
    large enough for [n] bytes, [el_malloc n] returns the pointer to a
    block [b] of the available list, and [el_free] of that pointer returns
    with the [bytes] of the available list, and the counters of the used
    list, as they were before the allocation; the released block and the
    remainder split off it are part of one free block [M], which covers all
    of what [b] covered before the allocation. *)
Theorem C5_malloc_free_round_trip w la lu fuel f n :
  heap_ok w la lu → top_pair_only w la → 0 ≤ n →
  (length la < fuel)%nat →
  (∃ x, x ∈ la ∧ n ≤ sz w x) →
  ∃ b w1 w2 la2 M,
    el_malloc fuel n w = Ok (b + sizeof_blockhead) w1 ∧ b ∈ la ∧
    el_free (S (S (S (S f)))) (b + sizeof_blockhead) w1 = Ok tt w2 ∧
    heap_ok w2 la2 lu ∧
    l_bytes (lst w2 (avail (el_ctl w2))) = l_bytes (lst w (avail (el_ctl w))) ∧
    l_bytes (lst w2 (used (el_ctl w2))) = l_bytes (lst w (used (el_ctl w))) ∧
    l_length (lst w2 (used (el_ctl w2)))
      = l_length (lst w (used (el_ctl w))) ∧
    M ∈ la2 ∧ st w2 M = EL_AVAILABLE ∧ M ≤ b ∧
    b + sz w b + EL_BLOCK_OVERHEAD ≤ M + sz w2 M + EL_BLOCK_OVERHEAD.
Proof.
  intros Hok Htp Hn Hfuel (x & Hx & Hxn).
  destruct (el_malloc_total w la lu fuel n Hok Hn Hfuel)
    as [[Hall _]|(l1 & b & l2 & w1 & la1 & Ela & Hl1 & Hb & Em & Hok1 & Htp1
                  & Hctl1 & Hst1 & Hsz1 & Hcase)].
  { specialize (Hall x Hx). lia. }
  specialize (Htp1 Htp).
  destruct (el_free_spec w1 la1 [] b lu f Hok1 Htp1) as (w2 & la2 & Ef & Hrel).
  destruct Hrel as (Hok2 & Htp2 & Hctl2 & Hlu2 & Hla2 & Hst2 & M & hi & HM
                    & _ & Hsz2 & HMb & Hhi1 & Hhi2 & Hhi3 & _).
  simpl in Ef, Hok2, Hsz2.
  exists b, w1, w2, la2, M.
  assert (HbB : b ∈ la ++ lu) by (rewrite Ela; set_solver +).
  assert (HbLa : b ∈ la) by (rewrite Ela; set_solver +).
  pose proof (lo_nodup _ _ _ (ok_lists _ _ _ Hok)) as Hnd.
  pose proof (lo_nodup _ _ _ (ok_lists _ _ _ Hok1)) as Hnd1.
  pose proof (lo_nodup _ _ _ (ok_lists _ _ _ Hok2)) as Hnd2.
  assert (Hlu_b : ∀ p, p ∈ lu → p ≠ b).
  { intros p Hp ->. apply NoDup_app in Hnd as (_ & Hd & _). by apply (Hd b). }
  assert (Hlu_M : ∀ p, p ∈ lu → p ≠ M).
  { intros p Hp ->. apply NoDup_app in Hnd2 as (_ & Hd & _). by apply (Hd M). }
  assert (Hszlu1 : ∀ p, p ∈ lu → sz w1 p = sz w p).
  { intros p Hp. destruct Hcase as [(_ & _ & Ela1 & _)|(_ & _ & Hall)];
      [|by apply Hall].
    apply Hsz1; [by apply Hlu_b|].
    intros ->. apply NoDup_app in Hnd1 as (_ & Hd & _).
    apply (Hd (b + n + EL_BLOCK_OVERHEAD)); [rewrite Ela1|]; set_solver + Hp. }
  assert (Hszlu : ∀ p, p ∈ lu → sz w2 p = sz w p).
  { intros p Hp. rewrite <- (Hszlu1 p Hp).
    apply Hsz2; [set_solver + Hp|by apply Hlu_M]. }
  assert (Hsum : sum_bytes w2 lu = sum_bytes w lu) by by apply sum_bytes_frame.
  pose proof (ok_lists _ _ _ Hok) as Hl.
  pose proof (ok_lists _ _ _ Hok2) as Hl2.
  pose proof (lo_ctl _ _ _ Hl) as (_ & _ & _ & _ & Hav & Hus).
  pose proof (lo_ctl _ _ _ Hl2) as (_ & _ & _ & _ & Hav2 & Hus2).
  rewrite Hav, Hus, Hav2, Hus2.
  rewrite (dll_lst _ _ _ (lo_avail _ _ _ Hl)), (dll_lst _ _ _ (lo_used _ _ _ Hl)).
  rewrite (dll_lst _ _ _ (lo_avail _ _ _ Hl2)),
    (dll_lst _ _ _ (lo_used _ _ _ Hl2)). simpl.
  pose proof (ok_bytes _ _ _ Hok) as Hby.
  pose proof (ok_bytes _ _ _ Hok2) as Hby2.
  assert (Hhb : heap_bytes (el_ctl w2) = heap_bytes (el_ctl w))
    by by rewrite Hctl2, Hctl1.
  split_and!; try done.
  - lia.
  - by apply (ok_avail _ _ _ Hok2).
  - destruct Hcase as [(Hge & Hszb & Ela1 & Hszr & _)|(Hlt & Ela1 & Hall)].
    + assert (Hr : b + n + EL_BLOCK_OVERHEAD ∈ la1) by (rewrite Ela1; set_solver +).
      assert (Er : b + n + EL_BLOCK_OVERHEAD = b + sz w1 b + EL_BLOCK_OVERHEAD)
        by by rewrite Hszb.
      pose proof (Hhi3 _ Hr Er) as Hhi. rewrite Hszr in Hhi. lia.
    + rewrite Hall in Hhi1. lia.
Qed.

Lemma C5_malloc_free_round_trip_witness :
  ∃ b w1 w2 la2 M,
    el_malloc 2 100 (init_world 4096) = Ok (b + sizeof_blockhead) w1 ∧
    b ∈ [EL_HEAP_START_ADDRESS] ∧
    el_free 4 (b + sizeof_blockhead) w1 = Ok tt w2 ∧
    heap_ok w2 la2 [] ∧
    l_bytes (lst w2 (avail (el_ctl w2)))
      = l_bytes (lst (init_world 4096) (avail (el_ctl (init_world 4096)))) ∧
    l_bytes (lst w2 (used (el_ctl w2)))
      = l_bytes (lst (init_world 4096) (used (el_ctl (init_world 4096)))) ∧
    l_length (lst w2 (used (el_ctl w2)))
      = l_length (lst (init_world 4096) (used (el_ctl (init_world 4096)))) ∧
    M ∈ la2 ∧ st w2 M = EL_AVAILABLE ∧ M ≤ b ∧
    b + sz (init_world 4096) b + EL_BLOCK_OVERHEAD
      ≤ M + sz w2 M + EL_BLOCK_OVERHEAD.
Proof.
  destruct page_heap_ok as (_ & Hok & Htp & Hsz & _).
  apply (C5_malloc_free_round_trip (init_world 4096)
           [EL_HEAP_START_ADDRESS] [] 2 0 100 Hok Htp).
  - lia.
  - simpl. lia.
  - exists EL_HEAP_START_ADDRESS. split; [apply list_elem_of_here|].
    rewrite Hsz. lia.
Defined.

(** ** C6: first fit *)

(** C6: [la] being the members of the available list in the order of the
    [next] pointers from the begin sentinel, all of them [EL_AVAILABLE],
    [el_find_first_avail n] returns, changes nothing, and its result is
    the first member of [la] whose size is at least [n] (every member
    before it is smaller), or [NULL] when every member is smaller than
    [n]. *)
Theorem C6_first_fit w la lu fuel n :
  lists_ok w la lu → (∀ b, b ∈ la → st w b = EL_AVAILABLE) →
  (length la < fuel)%nat →
  ∃ r, el_find_first_avail fuel n w = Ok r w ∧
       ((r = NULL ∧ ∀ b, b ∈ la → sz w b < n) ∨
        (∃ l1 l2, la = l1 ++ r :: l2 ∧ n ≤ sz w r ∧
                  ∀ x, x ∈ l1 → sz w x < n)).
Proof.
  intros Hl Hav Hfuel. exists (first_fit w n la).
  split; [by apply (el_find_first_avail_spec w la lu)|].
  assert (Hsmall : ∀ x, x ∈ la →
            ¬ (st w x = EL_AVAILABLE ∧ n ≤ sz w x) → sz w x < n).
  { intros x Hx Hno. destruct (Z.lt_ge_cases (sz w x) n); [done|].
    exfalso. apply Hno. split; [by apply Hav|done]. }
  destruct (first_fit_cases w n la)
    as [[E Hall]|(l1 & b & l2 & Ela & E & _ & Hsz & Hall)].
  - left. split; [done|]. intros b Hb. apply Hsmall; [done|by apply Hall].
  - right. exists l1, l2. rewrite E. split_and!; try done.
    intros x Hx. apply Hsmall; [rewrite Ela; set_solver + Hx|by apply Hall].
Qed.

(** On the two heaps with two available blocks, of 100 and of 3676 bytes:
    a request of 200 bytes passes over the block of 100 bytes at the front
    of the list; of two members that both hold 50 bytes the first of the
    list is returned, the small one in one heap and the large one in the
    other; a request of 5000 bytes gets [NULL]. *)
Lemma C6_first_fit_witness :
  sz small_first_world EL_HEAP_START_ADDRESS = 100 ∧
  sz small_first_world (EL_HEAP_START_ADDRESS + 380) = 3676 ∧
  sz large_first_world EL_HEAP_START_ADDRESS = 100 ∧
  sz large_first_world (EL_HEAP_START_ADDRESS + 380) = 3676 ∧
  el_find_first_avail 3 200 small_first_world
    = Ok (EL_HEAP_START_ADDRESS + 380) small_first_world ∧
  el_find_first_avail 3 50 small_first_world
    = Ok EL_HEAP_START_ADDRESS small_first_world ∧
  el_find_first_avail 3 50 large_first_world
    = Ok (EL_HEAP_START_ADDRESS + 380) large_first_world ∧
  el_find_first_avail 3 5000 small_first_world = Ok NULL small_first_world.
Proof.
  assert (Hfuel : (length [EL_HEAP_START_ADDRESS;
                           (EL_HEAP_START_ADDRESS + 380)%Z] < 3)%nat)
    by (simpl; lia).
  assert (Hfuel' : (length [(EL_HEAP_START_ADDRESS + 380)%Z;
                            EL_HEAP_START_ADDRESS] < 3)%nat)
    by (simpl; lia).
  do 4 (split; [vm_compute; reflexivity|]).
  split_and!.
  - destruct (C6_first_fit _ _ _ 3 200 small_first_lists small_first_avail
                Hfuel) as (r & E & Hr).
    rewrite E, (first_fit_unique_avail _ _ _ _ small_first_avail Hr).
    vm_compute. reflexivity.
  - destruct (C6_first_fit _ _ _ 3 50 small_first_lists small_first_avail
                Hfuel) as (r & E & Hr).
    rewrite E, (first_fit_unique_avail _ _ _ _ small_first_avail Hr).
    vm_compute. reflexivity.
  - destruct (C6_first_fit _ _ _ 3 50 large_first_lists large_first_avail
                Hfuel') as (r & E & Hr).
    rewrite E, (first_fit_unique_avail _ _ _ _ large_first_avail Hr).
    vm_compute. reflexivity.
  - destruct (C6_first_fit _ _ _ 3 5000 small_first_lists small_first_avail
                Hfuel) as (r & E & Hr).
    rewrite E, (first_fit_unique_avail _ _ _ _ small_first_avail Hr).
    vm_compute. reflexivity.
Defined.

(** ** C7: exhaustion *)

(** C7: when every member of the available list is smaller than [n],
    [el_malloc n] returns [NULL] and the memory after the call is the
    memory before it: control struct (the bounds of the heap among it),
    list structs, headers and footers. *)
Theorem C7_malloc_exhausted w la lu fuel n :
  lists_ok w la lu → (length la < fuel)%nat →
  (∀ b, b ∈ la → sz w b < n) →
  el_malloc fuel n w = Ok NULL w.
Proof.
  intros Hl Hfuel Hall.
  apply (el_malloc_none w la lu); [done| |done].
  destruct (first_fit_cases w n la)
    as [[E _]|(l1 & b & l2 & Ela & _ & _ & Hsz & _)]; [done|].
  assert (Hb : b ∈ la) by (rewrite Ela; set_solver +).
  specialize (Hall b Hb). lia.
Qed.

Lemma C7_malloc_exhausted_witness :
  el_malloc 2 5000 (init_world 4096) = Ok NULL (init_world 4096).
Proof.
  destruct page_heap_ok as (_ & Hok & _ & Hsz & _).
  apply (C7_malloc_exhausted (init_world 4096) [EL_HEAP_START_ADDRESS] [] 2
           5000 (ok_lists _ _ _ Hok)).
  - simpl. lia.
  - intros b Hb. apply list_elem_of_singleton in Hb. subst b.
    rewrite Hsz. lia.
Defined.

(** ** C8: the neighbours of a block *)

(** C8: for a block [b] whose header lies in the heap.  [el_block_above]
    returns the address [b + size + EL_BLOCK_OVERHEAD], or [NULL] when that
    address is at or past [heap_end].  [el_block_below] returns [NULL] when
    the footer address [b - sizeof_blockfoot] is at or before [heap_start],
    and otherwise steps back from [b] by the size stored in that footer
    plus [EL_BLOCK_OVERHEAD].  Neither changes the memory. *)
Theorem C8_block_above_below w b :
  ctl_ok w → blk_in_heap w b →
  0 ≤ sz w b → b + sz w b + EL_BLOCK_OVERHEAD < SIZE_MODULUS →
  (heap_start (el_ctl w) < b - sizeof_blockfoot →
   0 ≤ ft w (b - sizeof_blockfoot) ∧
   ft w (b - sizeof_blockfoot) + EL_BLOCK_OVERHEAD ≤ b) →
  el_block_above b w =
    Ok (if decide (heap_end (el_ctl w) ≤ b + sz w b + EL_BLOCK_OVERHEAD)
        then NULL else b + sz w b + EL_BLOCK_OVERHEAD) w ∧
  el_block_below b w =
    Ok (if decide (b - sizeof_blockfoot ≤ heap_start (el_ctl w))
        then NULL
        else b - (ft w (b - sizeof_blockfoot) + EL_BLOCK_OVERHEAD)) w.
Proof.
  intros Hc Hb Hs Hov Hft.
  pose proof Hc as (H1 & H2 & H3 & H4 & _).
  pose proof Hb as [Hb1 Hb2].
  pose proof (blk_in_heap_mapped w b Hb) as Hm.
  split.
  - unfold el_block_above, bind, rd, get_ctl, ret. rewrite Hm.
    fold (hdr w b). unfold PTR_PLUS_BYTES.
    rewrite (wrap_small (sz w b + _)) by el_lia.
    rewrite wrap_small by el_lia.
    replace (b + (sz w b + EL_BLOCK_OVERHEAD))
      with (b + sz w b + EL_BLOCK_OVERHEAD) by lia.
    destruct (Z.leb_spec (heap_end (el_ctl w))
                         (b + sz w b + EL_BLOCK_OVERHEAD)).
    + by rewrite decide_True.
    + by rewrite decide_False by lia.
  - unfold el_block_below, bind, get_ctl, ret, rd_foot. unfold PTR_MINUS_BYTES.
    rewrite (wrap_small (b - _)) by el_lia.
    destruct (Z.leb_spec (b - sizeof_blockfoot) (heap_start (el_ctl w))).
    + by rewrite decide_True.
    + rewrite decide_False by lia.
      destruct Hft as [Hf1 Hf2]; [lia|].
      assert (Hfm : foot_mapped w (b - sizeof_blockfoot) = true).
      { unfold foot_mapped, in_heap. apply andb_true_iff.
        split; apply Z.leb_le; el_lia. }
      rewrite Hfm. fold (ft w (b - sizeof_blockfoot)).
      rewrite (wrap_small (ft _ _ + _)) by el_lia.
      by rewrite wrap_small by el_lia.
Qed.

(** On the page split into a block of 100 bytes at [heap_start] and a
    block of 3916 bytes at [heap_start + 140]: each is the neighbour of the
    other, the lower one has no block below and the upper one none above. *)
Lemma C8_block_above_below_witness :
  el_block_above EL_HEAP_START_ADDRESS split_page_world
    = Ok (EL_HEAP_START_ADDRESS + 140) split_page_world ∧
  el_block_below EL_HEAP_START_ADDRESS split_page_world
    = Ok NULL split_page_world ∧
  el_block_above (EL_HEAP_START_ADDRESS + 140) split_page_world
    = Ok NULL split_page_world ∧
  el_block_below (EL_HEAP_START_ADDRESS + 140) split_page_world
    = Ok EL_HEAP_START_ADDRESS split_page_world.
Proof.
  destruct split_page_ok as (_ & Hok & _).
  pose proof (lo_ctl _ _ _ (ok_lists _ _ _ Hok)) as Hc. clear Hok.
  destruct (C8_block_above_below split_page_world EL_HEAP_START_ADDRESS Hc)
    as [Ea Eb].
  { vm_compute. split; discriminate. }
  { vm_compute. discriminate. }
  { vm_compute. reflexivity. }
  { intros H. exfalso. revert H. vm_compute. intros H. discriminate H. }
  destruct (C8_block_above_below split_page_world
              (EL_HEAP_START_ADDRESS + 140) Hc) as [Ea' Eb'].
  { vm_compute. split; discriminate. }
  { vm_compute. discriminate. }
  { vm_compute. reflexivity. }
  { intros _. vm_compute. split; discriminate. }
  rewrite Ea, Eb, Ea', Eb'. vm_compute. repeat split.
Defined.

(** ** C9: growing the heap under a free top block *)

(** C9 (the code departs from it): in the state [release_bottom_then_top]
    ends in, the topmost block [b] is free and has 3916 bytes.  After a
    granted growth by one page the available list has one member, the
    block [a] below [b], of 8152 bytes, where the old top block and the new
    page make 8012: the free block that [el_free] left unmerged below the
    top block is absorbed as well. *)
Theorem C9_grow_absorbs_block_below_top :
  ∃ a b w,
    release_bottom_then_top fresh_world = Ok (a, b) w ∧
    st w (b - sizeof_blockhead) = EL_AVAILABLE ∧
    sz w (b - sizeof_blockhead) = 3916 ∧
    el_block_above (b - sizeof_blockhead) w = Ok NULL w ∧
    wp (grow_granted 8 1)
       (λ r w',
          r = 0 ∧
          l_length (lst w' (avail (el_ctl w'))) = 1 ∧
          nx w' (l_beg (lst w' (avail (el_ctl w')))) = a - sizeof_blockhead ∧
          sz w' (a - sizeof_blockhead) = 8152 ∧
          el_block_above (a - sizeof_blockhead) w' = Ok NULL w')
       w.
Proof.
  eexists _, _, _. split; [vm_compute; reflexivity|].
  vm_compute. repeat split.
Qed.

(** ** C10: the size of an allocated block *)

(** C10: in a state that satisfies the invariant, when some free block is
    large enough for [n] bytes, [el_malloc n] returns the pointer to a
    block [b] that is now on the used list and [EL_USED]; its size is at
    least [n] and less than [n + EL_BLOCK_OVERHEAD]: exactly [n] when the
    block found had room for a split, and the size the block had when it
    had not. *)
Theorem C10_malloc_block_size w la lu fuel n :
  heap_ok w la lu → 0 ≤ n → (length la < fuel)%nat →
  (∃ x, x ∈ la ∧ n ≤ sz w x) →
  ∃ b w' la',
    el_malloc fuel n w = Ok (b + sizeof_blockhead) w' ∧ b ∈ la ∧
    heap_ok w' la' (b :: lu) ∧ st w' b = EL_USED ∧
    n ≤ sz w' b < n + EL_BLOCK_OVERHEAD ∧
    (n + EL_BLOCK_OVERHEAD ≤ sz w b → sz w' b = n) ∧
    (sz w b < n + EL_BLOCK_OVERHEAD → sz w' b = sz w b).
Proof.
  intros Hok Hn Hfuel (x & Hx & Hxn).
  destruct (el_malloc_total w la lu fuel n Hok Hn Hfuel)
    as [[Hall _]|(l1 & b & l2 & w' & la' & Ela & Hl1 & Hb & Em & Hok' & _
                  & Hctl & Hst & Hsz & Hcase)].
  { specialize (Hall x Hx). lia. }
  exists b, w', la'. split_and!; try done.
  - rewrite Ela. set_solver +.
  - destruct Hcase as [(_ & -> & _)|(_ & _ & ->)]; lia.
  - destruct Hcase as [(Hge & Hszb & _)|(Hlt & _ & Hall)].
    + rewrite Hszb. el_lia.
    + rewrite Hall. lia.
  - intros Hge. destruct Hcase as [(_ & Hszb & _)|(Hlt & _)]; [done|lia].
  - intros Hlt. destruct Hcase as [(Hge & _)|(_ & _ & Hall)]; [lia|done].
Qed.

Lemma C10_malloc_block_size_witness :
  ∃ b w' la',
    el_malloc 2 100 (init_world 4096) = Ok (b + sizeof_blockhead) w' ∧
    b ∈ [EL_HEAP_START_ADDRESS] ∧
    heap_ok w' la' [b] ∧ st w' b = EL_USED ∧
    100 ≤ sz w' b < 100 + EL_BLOCK_OVERHEAD ∧
    (100 + EL_BLOCK_OVERHEAD ≤ sz (init_world 4096) b → sz w' b = 100) ∧
    (sz (init_world 4096) b < 100 + EL_BLOCK_OVERHEAD →
     sz w' b = sz (init_world 4096) b).
Proof.
  destruct page_heap_ok as (_ & Hok & _ & Hsz & _).
  apply (C10_malloc_block_size (init_world 4096)
           [EL_HEAP_START_ADDRESS] [] 2 100 Hok).
  - lia.
  - simpl. lia.
  - exists EL_HEAP_START_ADDRESS. split; [apply list_elem_of_here|].
    rewrite Hsz. lia.
Defined.

(** * Further properties of the code *)

(** ** Splitting, when the request does not wrap around *)

(** X1: for a block [b] of size [S] inside the heap and a request [N] for
    which [N + EL_BLOCK_OVERHEAD] does not wrap around.  If
    [S >= N + EL_BLOCK_OVERHEAD], [el_split_block] returns the new block at
    [b + N + EL_BLOCK_OVERHEAD]; the lower block has size exactly [N], the
    two sizes sum to [S - EL_BLOCK_OVERHEAD], each footer mirrors the size
    in its header, the new block is [EL_AVAILABLE], and no link, no list
    and nothing of the control struct is touched.  If
    [S < N + EL_BLOCK_OVERHEAD], [NULL] is returned and the memory is as it
    was. *)
Theorem el_split_block_correct w b N :
  ctl_ok w → heap_start (el_ctl w) ≤ b → 0 ≤ sz w b →
  b + sz w b + EL_BLOCK_OVERHEAD ≤ heap_end (el_ctl w) →
  0 ≤ N → N + EL_BLOCK_OVERHEAD < SIZE_MODULUS →
  (N + EL_BLOCK_OVERHEAD ≤ sz w b →
   ∃ w', let r := b + N + EL_BLOCK_OVERHEAD in
     el_split_block b N w = Ok r w' ∧
     sz w' b = N ∧
     sz w' b + sz w' r = sz w b - EL_BLOCK_OVERHEAD ∧
     ft w' (b + sizeof_blockhead + sz w' b) = sz w' b ∧
     ft w' (r + sizeof_blockhead + sz w' r) = sz w' r ∧
     st w' r = EL_AVAILABLE ∧ st w' b = st w b ∧
     (∀ p, nx w' p = nx w p ∧ pv w' p = pv w p) ∧
     (∀ L, lst w' L = lst w L) ∧
     el_ctl w' = el_ctl w) ∧
  (sz w b < N + EL_BLOCK_OVERHEAD → el_split_block b N w = Ok NULL w).
Proof.
  intros Hc Hb1 Hb0 Hb2 HN Hov. split.
  - intros HS. exists (split_world w b N). cbv zeta.
    assert (Hpos : 0 < N + EL_BLOCK_OVERHEAD) by el_lia.
    assert (E : el_split_block b N w
                = Ok (b + N + EL_BLOCK_OVERHEAD) (split_world w b N)).
    { pose proof (el_split_block_split w b N
        (λ r w', r = b + N + EL_BLOCK_OVERHEAD ∧ w' = split_world w b N)
        Hc Hb1 Hb2 HN HS (conj eq_refl eq_refl)) as Hwp.
      unfold wp in Hwp.
      destruct (el_split_block b N w) as [r w'| |]; [|done..].
      by destruct Hwp as [-> ->]. }
    rewrite !split_world_sz by done. rewrite !split_world_st.
    rewrite !split_world_ft.
    rewrite (decide_False (P := b = b + N + EL_BLOCK_OVERHEAD)) by el_lia.
    rewrite (decide_True (P := b = b)) by done.
    rewrite (decide_True (P := b + N + EL_BLOCK_OVERHEAD
                              = b + N + EL_BLOCK_OVERHEAD)) by done.
    split_and!; try done.
    + lia.
    + rewrite decide_False by el_lia. by rewrite decide_True.
    + rewrite decide_True by el_lia. done.
    + by rewrite decide_True.
    + by rewrite decide_False by el_lia.
    + intros p. apply split_world_links.
  - intros HS. apply el_split_block_refuse; try done.
    apply blk_in_heap_mapped. unfold blk_in_heap. el_lia.
Qed.

Lemma el_split_block_correct_witness :
  (∃ w', let r := EL_HEAP_START_ADDRESS + 100 + EL_BLOCK_OVERHEAD in
     el_split_block EL_HEAP_START_ADDRESS 100 (init_world 4096) = Ok r w' ∧
     sz w' EL_HEAP_START_ADDRESS = 100 ∧
     sz w' EL_HEAP_START_ADDRESS + sz w' r
       = sz (init_world 4096) EL_HEAP_START_ADDRESS - EL_BLOCK_OVERHEAD ∧
     ft w' (EL_HEAP_START_ADDRESS + sizeof_blockhead
            + sz w' EL_HEAP_START_ADDRESS) = sz w' EL_HEAP_START_ADDRESS ∧
     ft w' (r + sizeof_blockhead + sz w' r) = sz w' r ∧
     st w' r = EL_AVAILABLE ∧
     st w' EL_HEAP_START_ADDRESS = st (init_world 4096) EL_HEAP_START_ADDRESS ∧
     (∀ p, nx w' p = nx (init_world 4096) p ∧
           pv w' p = pv (init_world 4096) p) ∧
     (∀ L, lst w' L = lst (init_world 4096) L) ∧
     el_ctl w' = el_ctl (init_world 4096)) ∧
  el_split_block EL_HEAP_START_ADDRESS 5000 (init_world 4096)
    = Ok NULL (init_world 4096).
Proof.
  assert (H40 : EL_BLOCK_OVERHEAD ≤ 4096) by (vm_compute; discriminate).
  assert (Hfit : EL_HEAP_START_ADDRESS + 4096 ≤ EL_CTL_START_ADDRESS)
    by (vm_compute; discriminate).
  destruct (init_world_ok 4096 H40 Hfit) as (_ & Hok & _ & Hsz & Hctl).
  pose proof (lo_ctl _ _ _ (ok_lists _ _ _ Hok)) as Hc.
  assert (Hs : heap_start (el_ctl (init_world 4096)) ≤ EL_HEAP_START_ADDRESS)
    by (rewrite Hctl; simpl; lia).
  assert (H0 : 0 ≤ sz (init_world 4096) EL_HEAP_START_ADDRESS)
    by (rewrite Hsz; vm_compute; discriminate).
  assert (He : EL_HEAP_START_ADDRESS
               + sz (init_world 4096) EL_HEAP_START_ADDRESS
               + EL_BLOCK_OVERHEAD ≤ heap_end (el_ctl (init_world 4096)))
    by (rewrite Hsz, Hctl; simpl; lia).
  split.
  - apply (el_split_block_correct (init_world 4096) EL_HEAP_START_ADDRESS 100
             Hc Hs H0 He); [lia|vm_compute; reflexivity|].
    rewrite Hsz. vm_compute. discriminate.
  - apply (el_split_block_correct (init_world 4096) EL_HEAP_START_ADDRESS 5000
             Hc Hs H0 He); [lia|vm_compute; reflexivity|].
    rewrite Hsz. vm_compute. reflexivity.
Defined.

(** ** Growing the heap under a free top block *)

(** X2: in a state that satisfies the invariant, whose topmost block [t]
    is free and has no free block right below it, a granted growth by
    [npages] pages (their bytes within the range of [int], in which the
    code forms the product) returns 0 and leaves [t] as the topmost block,
    free, its size increased by the bytes of the new pages (the span of
    [t] plus the new pages, less one [EL_BLOCK_OVERHEAD]); the available
    list has the members it had, so the new pages are no block of their
    own, and every other block keeps its size. *)
Theorem grow_merges_with_free_top w la lu t npages f :
  heap_ok w la lu → top_pair_only w la →
  t ∈ la → t + sz w t + EL_BLOCK_OVERHEAD = heap_end (el_ctl w) →
  (∀ p, p ∈ la → p + sz w p + EL_BLOCK_OVERHEAD ≠ t) →
  1 ≤ npages → npages * EL_PAGE_BYTES < 2 ^ 31 →
  heap_end (el_ctl w) + npages * EL_PAGE_BYTES ≤ EL_CTL_START_ADDRESS →
  ∃ w' la',
    el_append_pages_to_heap (S (S (S f))) npages (heap_end (el_ctl w)) w
      = Ok 0 w' ∧
    heap_ok w' la' lu ∧ (∀ p, p ∈ la' ↔ p ∈ la) ∧
    st w' t = EL_AVAILABLE ∧
    sz w' t = sz w t + npages * EL_PAGE_BYTES ∧
    heap_end (el_ctl w') = heap_end (el_ctl w) + npages * EL_PAGE_BYTES ∧
    t + sz w' t + EL_BLOCK_OVERHEAD = heap_end (el_ctl w') ∧
    (∀ p, p ∈ la' ++ lu → p ≠ t → sz w' p = sz w p).
Proof.
  intros Hok Htp Ht Htop Hbelow Hnp _ Hfit.
  destruct (el_append_pages_spec w la lu npages f Hok Htp Hnp Hfit)
    as (w' & la' & E & Happ).
  exists w', la'. split; [done|].
  destruct Happ as (w5 & Hok5 & Hhs5 & Hhe5 & Hhb5 & Hdat5 & Hsz5 & Hft5 & Hcase).
  set (nb := heap_end (el_ctl w)) in *.
  assert (Hnb : ∀ p, p ∈ la ++ lu → p ≠ nb).
  { intros p Hp ->.
    destruct (heap_ok_block _ _ _ _ Hok Hp) as ([_ Hh] & _). el_lia. }
  assert (Htnb : t ≠ nb) by (apply Hnb; set_solver + Ht).
  destruct Hcase as [(Hno & _ & _)|(t' & w6 & la6 & M & Ht' & Et' & Hm & Hset & _)].
  { exfalso. by apply (Hno t). }
  assert (t' = t) as ->.
  { assert (Ht'B : t' ∈ la ++ lu) by set_solver + Ht'.
    assert (HtB : t ∈ la ++ lu) by set_solver + Ht.
    eapply (tiling_end_inj w (la ++ lu)); [apply Hok|done|done|].
    rewrite <- Htop in Et'. lia. }
  destruct Hm as (Hok6 & Hla6 & Hctl6 & Hsz6 & Hst6 & Hft6).
  assert (Hla6' : ∀ p, p ∈ la6 ↔ p ∈ la).
  { intros p. rewrite Hla6. split.
    - intros [Hp Hne]. apply elem_of_cons in Hp as [->|Hp]; done.
    - intros Hp. split; [set_solver + Hp|]. apply Hnb. set_solver + Hp. }
  assert (Hszo : ∀ p, p ≠ t → p ≠ nb → sz w6 p = sz w p).
  { intros p H1 H2. rewrite Hsz6. rewrite decide_False by done.
    by apply Hdat5. }
  assert (Hszt : sz w6 t = sz w t + npages * EL_PAGE_BYTES).
  { rewrite Hsz6. rewrite decide_True by done.
    rewrite Hsz5. destruct (Hdat5 t Htnb) as [-> _]. lia. }
  destruct Hset as [(-> & -> & _ & _)|(p & Hp & Ep & _)].
  - split_and!; try done.
    + rewrite Hst6. destruct (Hdat5 t Htnb) as [_ ->].
      by apply (ok_avail _ _ _ Hok).
    + by rewrite Hctl6, Hhe5.
    + rewrite Hszt, Hctl6, Hhe5. unfold nb. lia.
    + intros p Hp Hne. apply Hszo; [done|].
      apply Hnb. apply elem_of_app in Hp as [Hp|Hp]; [|set_solver + Hp].
      apply Hla6' in Hp. set_solver + Hp.
  - exfalso. apply Hla6' in Hp.
    assert (Hpt : p ≠ t).
    { intros ->.
      assert (HtB : t ∈ la ++ lu) by set_solver + Ht.
      destruct (heap_ok_block _ _ _ _ Hok HtB) as (_ & Ht0 & _).
      rewrite Hszt in Ep. el_lia. }
    assert (Hpnb : p ≠ nb) by (apply Hnb; set_solver + Hp).
    rewrite (Hszo p Hpt Hpnb) in Ep. by apply (Hbelow p).
Qed.

Lemma grow_merges_with_free_top_witness :
  ∃ w' la',
    el_append_pages_to_heap 3 1 (heap_end (el_ctl (init_world 4096)))
      (init_world 4096) = Ok 0 w' ∧
    heap_ok w' la' [] ∧ (∀ p, p ∈ la' ↔ p ∈ [EL_HEAP_START_ADDRESS]) ∧
    st w' EL_HEAP_START_ADDRESS = EL_AVAILABLE ∧
    sz w' EL_HEAP_START_ADDRESS
      = sz (init_world 4096) EL_HEAP_START_ADDRESS + 1 * EL_PAGE_BYTES ∧
    heap_end (el_ctl w')
      = heap_end (el_ctl (init_world 4096)) + 1 * EL_PAGE_BYTES ∧
    EL_HEAP_START_ADDRESS + sz w' EL_HEAP_START_ADDRESS + EL_BLOCK_OVERHEAD
      = heap_end (el_ctl w') ∧
    (∀ p, p ∈ la' ++ [] → p ≠ EL_HEAP_START_ADDRESS →
          sz w' p = sz (init_world 4096) p).
Proof.
  destruct page_heap_ok as (_ & Hok & Htp & Hsz & Hctl).
  apply (grow_merges_with_free_top (init_world 4096)
           [EL_HEAP_START_ADDRESS] [] EL_HEAP_START_ADDRESS 1 0 Hok Htp).
  - apply list_elem_of_here.
  - rewrite Hsz, Hctl. simpl. vm_compute. reflexivity.
  - intros p Hp. apply list_elem_of_singleton in Hp. subst p.
    rewrite Hsz. vm_compute. discriminate.
  - lia.
  - vm_compute. reflexivity.
  - rewrite Hctl. simpl. vm_compute. discriminate.
Defined.

(** ** Releasing the topmost block, and any other block *)

(** X3: [el_free] of the block that ends the heap only moves it from the
    used list to the front of the available list: every block keeps its
    size and every footer its value, whether or not the block below is
    free. *)
Theorem el_free_top_block_merges_nothing w la l1 b l2 f :
  heap_ok w la (l1 ++ b :: l2) →
  b + sz w b + EL_BLOCK_OVERHEAD = heap_end (el_ctl w) →
  ∃ w',
    el_free (S f) (b + sizeof_blockhead) w = Ok tt w' ∧
    heap_ok w' (b :: la) (l1 ++ l2) ∧
    el_ctl w' = el_ctl w ∧
    (∀ p, sz w' p = sz w p) ∧ (∀ q, ft w' q = ft w q) ∧
    (∀ p, st w' p = if decide (p = b) then EL_AVAILABLE else st w p).
Proof.
  intros Hok Htop.
  cut (wp (el_free (S f) (b + sizeof_blockhead))
          (λ _ w', heap_ok w' (b :: la) (l1 ++ l2) ∧ el_ctl w' = el_ctl w ∧
                   (∀ p, sz w' p = sz w p) ∧ (∀ q, ft w' q = ft w q) ∧
                   (∀ p, st w' p =
                           if decide (p = b) then EL_AVAILABLE else st w p))
          w).
  { intros H. apply wp_elim in H as ([] & w' & E & H). by exists w'. }
  apply (el_free_wp w la l1 b l2); [done|].
  intros w3 Hok3 Hctl3 Hsz3 Hst3 Hft3.
  eapply merge_quiet; [done|set_solver +| |done].
  left. by rewrite Hsz3, Hctl3.
Qed.

Lemma el_free_top_block_merges_nothing_witness :
  ∃ w',
    el_free 1 (EL_HEAP_START_ADDRESS + sizeof_blockhead) used_page_world
      = Ok tt w' ∧
    heap_ok w' [EL_HEAP_START_ADDRESS] ([] ++ []) ∧
    el_ctl w' = el_ctl used_page_world ∧
    (∀ p, sz w' p = sz used_page_world p) ∧
    (∀ q, ft w' q = ft used_page_world q) ∧
    (∀ p, st w' p = if decide (p = EL_HEAP_START_ADDRESS)
                    then EL_AVAILABLE else st used_page_world p).
Proof.
  destruct used_page_ok as (_ & Hok & _ & Hsz & Hctl).
  destruct page_heap_ok as (_ & _ & _ & _ & Hctl0).
  apply (el_free_top_block_merges_nothing used_page_world []
           [] EL_HEAP_START_ADDRESS [] 0 Hok).
  rewrite Hsz, Hctl, Hctl0. vm_compute. reflexivity.
Defined.

(** X4: [el_free] of a block that does not end the heap, in a state that
    satisfies the invariant, returns with the released block inside a free
    block [M] that has no free neighbour: nothing free ends where [M]
    starts, and [M] ends the heap or is followed by a block that is not
    free.  All other blocks keep their sizes. *)
Theorem el_free_coalesces_below_top w la l1 b l2 f :
  heap_ok w la (l1 ++ b :: l2) → top_pair_only w la →
  b + sz w b + EL_BLOCK_OVERHEAD ≠ heap_end (el_ctl w) →
  ∃ w' la' M,
    el_free (S (S (S (S f)))) (b + sizeof_blockhead) w = Ok tt w' ∧
    heap_ok w' la' (l1 ++ l2) ∧ M ∈ la' ∧
    M ≤ b ∧
    b + sz w b + EL_BLOCK_OVERHEAD ≤ M + sz w' M + EL_BLOCK_OVERHEAD ∧
    (M + sz w' M + EL_BLOCK_OVERHEAD = heap_end (el_ctl w') ∨
     (M + sz w' M + EL_BLOCK_OVERHEAD) ∉ la') ∧
    (∀ q, q ∈ la' → q + sz w' q + EL_BLOCK_OVERHEAD ≠ M) ∧
    (∀ p, p ∈ la' ++ l1 ++ l2 → p ≠ M → sz w' p = sz w p).
Proof.
  intros Hok Htp Hnt.
  destruct (el_free_spec w la l1 b l2 f Hok Htp) as (w' & la' & E & Hrel).
  destruct Hrel as (Hok' & _ & _ & _ & _ & _ & M & hi & HM & Hq & Hsz & HMb
                    & Hhi1 & Hhi2 & _ & Hnb).
  exists w', la', M. split_and!; try done.
  - lia.
  - destruct Hq as [?|[? _]]; [by left|by right].
  - by apply Hnb.
Qed.

Lemma el_free_coalesces_below_top_witness :
  ∃ w' la' M,
    el_free 4 (EL_HEAP_START_ADDRESS + sizeof_blockhead) split_page_world
      = Ok tt w' ∧
    heap_ok w' la' ([] ++ []) ∧ M ∈ la' ∧
    M ≤ EL_HEAP_START_ADDRESS ∧
    EL_HEAP_START_ADDRESS + sz split_page_world EL_HEAP_START_ADDRESS
      + EL_BLOCK_OVERHEAD ≤ M + sz w' M + EL_BLOCK_OVERHEAD ∧
    (M + sz w' M + EL_BLOCK_OVERHEAD = heap_end (el_ctl w') ∨
     (M + sz w' M + EL_BLOCK_OVERHEAD) ∉ la') ∧
    (∀ q, q ∈ la' → q + sz w' q + EL_BLOCK_OVERHEAD ≠ M) ∧
    (∀ p, p ∈ la' ++ [] ++ [] → p ≠ M → sz w' p = sz split_page_world p).
Proof.
  destruct split_page_ok as (_ & Hok & Htp & Hsz & _ & Hctl).
  destruct page_heap_ok as (_ & _ & _ & _ & Hctl0).
  apply (el_free_coalesces_below_top split_page_world
           [EL_HEAP_START_ADDRESS + 140] [] EL_HEAP_START_ADDRESS [] 0
           Hok Htp).
  rewrite Hsz, Hctl, Hctl0. vm_compute. discriminate.
Defined.

(** ** What holds in every state a client can reach *)

(** The heap of one page after [el_malloc 100] and [el_malloc 200]. *)
Definition two_used_world : world :=
  run_world (el_malloc 3 200) split_page_world.

Lemma split_page_reachable :
  reachable [EL_HEAP_START_ADDRESS + sizeof_blockhead] split_page_world.
Proof.
  destruct split_page_ok as (E & _).
  pose proof (reach_malloc [] (init_world 4096) 2 100 _ _
                page_heap_reachable ltac:(lia) E) as H.
  rewrite decide_False in H by (vm_compute; discriminate). exact H.
Qed.

Lemma two_used_reachable :
  reachable [EL_HEAP_START_ADDRESS + 172;
             EL_HEAP_START_ADDRESS + sizeof_blockhead] two_used_world.
Proof.
  assert (E : el_malloc 3 200 split_page_world
              = Ok (EL_HEAP_START_ADDRESS + 172) two_used_world)
    by (vm_compute; reflexivity).
  pose proof (reach_malloc _ split_page_world 3 200 _ _
                split_page_reachable ltac:(lia) E) as H.
  rewrite decide_False in H by (vm_compute; discriminate). exact H.
Qed.



(** X6: in every state a client can reach, every pointer [p] the client
    holds is the user memory of a block that is [EL_USED] and lies inside
    the heap, after the header of its block and before its footer; and the
    memory of two pointers the client holds does not overlap: the lower
    block, footer included, ends before the header of the upper block
    starts. *)
Theorem live_blocks_disjoint live w :
  reachable live w →
  (∀ p, p ∈ live →
     st w (p - sizeof_blockhead) = EL_USED ∧
     heap_start (el_ctl w) + sizeof_blockhead ≤ p ∧
     0 ≤ sz w (p - sizeof_blockhead) ∧
     p + sz w (p - sizeof_blockhead) + sizeof_blockfoot
       ≤ heap_end (el_ctl w)) ∧
  (∀ p q, p ∈ live → q ∈ live → p < q →
     p + sz w (p - sizeof_blockhead) + sizeof_blockfoot
       ≤ q - sizeof_blockhead).
Proof.
  intros Hr.
  destruct (reachable_inv live w Hr) as (la & lu & Hok & _ & Hlive).
  pose proof (ok_tiling _ _ _ Hok) as Ht.
  split.
  - intros p Hp. apply Hlive in Hp.
    assert (HpB : p - sizeof_blockhead ∈ la ++ lu) by set_solver + Hp.
    destruct (til_block _ _ Ht _ HpB) as (Hp1 & Hp2 & Hp3 & _).
    split_and!; [by apply (ok_used _ _ _ Hok)|el_lia|done|el_lia].
  - intros p q Hp Hq Hlt. apply Hlive in Hp, Hq.
    assert (HpB : p - sizeof_blockhead ∈ la ++ lu) by set_solver + Hp.
    assert (HqB : q - sizeof_blockhead ∈ la ++ lu) by set_solver + Hq.
    pose proof (til_disj _ _ Ht _ _ HpB HqB ltac:(lia)) as Hd. el_lia.
Qed.

Lemma live_blocks_disjoint_witness :
  (st two_used_world (EL_HEAP_START_ADDRESS + sizeof_blockhead
                      - sizeof_blockhead) = EL_USED ∧
   heap_start (el_ctl two_used_world) + sizeof_blockhead
     ≤ EL_HEAP_START_ADDRESS + sizeof_blockhead ∧
   0 ≤ sz two_used_world (EL_HEAP_START_ADDRESS + sizeof_blockhead
                          - sizeof_blockhead) ∧
   EL_HEAP_START_ADDRESS + sizeof_blockhead
     + sz two_used_world (EL_HEAP_START_ADDRESS + sizeof_blockhead
                          - sizeof_blockhead)
     + sizeof_blockfoot ≤ heap_end (el_ctl two_used_world)) ∧
  (st two_used_world (EL_HEAP_START_ADDRESS + 172 - sizeof_blockhead)
     = EL_USED ∧
   heap_start (el_ctl two_used_world) + sizeof_blockhead
     ≤ EL_HEAP_START_ADDRESS + 172 ∧
   0 ≤ sz two_used_world (EL_HEAP_START_ADDRESS + 172 - sizeof_blockhead) ∧
   EL_HEAP_START_ADDRESS + 172
     + sz two_used_world (EL_HEAP_START_ADDRESS + 172 - sizeof_blockhead)
     + sizeof_blockfoot ≤ heap_end (el_ctl two_used_world)) ∧
  EL_HEAP_START_ADDRESS + sizeof_blockhead
    + sz two_used_world (EL_HEAP_START_ADDRESS + sizeof_blockhead
                         - sizeof_blockhead)
    + sizeof_blockfoot ≤ EL_HEAP_START_ADDRESS + 172 - sizeof_blockhead.
Proof.
  destruct (live_blocks_disjoint _ two_used_world two_used_reachable)
    as [Hone Htwo].
  assert (Hp : EL_HEAP_START_ADDRESS + sizeof_blockhead
               ∈ [EL_HEAP_START_ADDRESS + 172;
                  EL_HEAP_START_ADDRESS + sizeof_blockhead])
    by apply list_elem_of_further, list_elem_of_here.
  assert (Hq : EL_HEAP_START_ADDRESS + 172
               ∈ [EL_HEAP_START_ADDRESS + 172;
                  EL_HEAP_START_ADDRESS + sizeof_blockhead])
    by apply list_elem_of_here.
  split_and!.
  - apply (Hone _ Hp).
  - apply (Hone _ Hp).
  - apply (Hone _ Hp).
  - apply (Hone _ Hp).
  - apply (Hone _ Hq).
  - apply (Hone _ Hq).
  - apply (Hone _ Hq).
  - apply (Hone _ Hq).
  - apply (Htwo _ _ Hp Hq). vm_compute. reflexivity.
Defined.

(** X7: in every state a client can reach, the [bytes] of the two lists add
    up to [heap_bytes], and [heap_end] is [heap_bytes] above
    [heap_start]: every byte of the heap is accounted for, as free or as
    used. *)
Theorem reachable_bytes_conserved live w :
  reachable live w →
  l_bytes (lst w (avail (el_ctl w))) + l_bytes (lst w (used (el_ctl w)))
    = heap_bytes (el_ctl w) ∧
  heap_end (el_ctl w) = heap_start (el_ctl w) + heap_bytes (el_ctl w).
Proof.
  intros Hr. destruct (reachable_inv live w Hr) as (la & lu & Hok & _ & _).
  pose proof (ok_lists _ _ _ Hok) as Hl.
  pose proof (lo_ctl _ _ _ Hl) as (_ & He & _ & _ & Hav & Hus).
  rewrite Hav, Hus.
  rewrite (dll_lst _ _ _ (lo_avail _ _ _ Hl)), (dll_lst _ _ _ (lo_used _ _ _ Hl)).
  simpl. split; [apply (ok_bytes _ _ _ Hok)|done].
Qed.

Lemma reachable_bytes_conserved_witness :
  l_bytes (lst two_used_world (avail (el_ctl two_used_world)))
    + l_bytes (lst two_used_world (used (el_ctl two_used_world)))
    = heap_bytes (el_ctl two_used_world) ∧
  heap_end (el_ctl two_used_world)
    = heap_start (el_ctl two_used_world) + heap_bytes (el_ctl two_used_world).
Proof.
  exact (reachable_bytes_conserved _ _ two_used_reachable).
Defined.

(** ** Initialisation and its refusal *)

(** X8: with a heap of at least one byte that is smaller than
    [EL_BLOCK_OVERHEAD], [el_init] returns 1 after it has set the size and
    the bounds of the heap: the two list pointers of the control struct
    are still [NULL], and no list struct and no header has been
    written. *)
Theorem el_init_refuses_small_heap n :
  1 ≤ n < EL_BLOCK_OVERHEAD →
  ∃ w, el_init n fresh_world = Ok 1 w ∧
       heap_bytes (el_ctl w) = n ∧
       heap_start (el_ctl w) = EL_HEAP_START_ADDRESS ∧
       heap_end (el_ctl w) = EL_HEAP_START_ADDRESS + n ∧
       avail (el_ctl w) = NULL ∧ used (el_ctl w) = NULL ∧
       (∀ L, lst w L = lst fresh_world L) ∧
       (∀ p, hdr w p = hdr fresh_world p).
Proof.
  intros [H1 Hn]. rewrite (el_init_too_small n Hn).
  eexists. split; [reflexivity|]. simpl.
  split_and!; try reflexivity.
  unfold PTR_PLUS_BYTES. apply wrap_small. el_lia.
Qed.

Lemma el_init_refuses_small_heap_witness :
  ∃ w, el_init 39 fresh_world = Ok 1 w ∧
       heap_bytes (el_ctl w) = 39 ∧
       heap_start (el_ctl w) = EL_HEAP_START_ADDRESS ∧
       heap_end (el_ctl w) = EL_HEAP_START_ADDRESS + 39 ∧
       avail (el_ctl w) = NULL ∧ used (el_ctl w) = NULL ∧
       (∀ L, lst w L = lst fresh_world L) ∧
       (∀ p, hdr w p = hdr fresh_world p).
Proof.
  apply (el_init_refuses_small_heap 39). vm_compute. split; discriminate || reflexivity.
Defined.

(** X9: with a heap of at least [EL_BLOCK_OVERHEAD] bytes that ends below
    the control page, [el_init] returns 0 and the heap is one free block of
    [n - EL_BLOCK_OVERHEAD] bytes: it is the only member of the available
    list, whose [bytes] is [n], and the used list is empty. *)
Theorem el_init_one_free_block n :
  EL_BLOCK_OVERHEAD ≤ n →
  EL_HEAP_START_ADDRESS + n ≤ EL_CTL_START_ADDRESS →
  ∃ w, el_init n fresh_world = Ok 0 w ∧
       heap_ok w [EL_HEAP_START_ADDRESS] [] ∧
       sz w EL_HEAP_START_ADDRESS = n - EL_BLOCK_OVERHEAD ∧
       st w EL_HEAP_START_ADDRESS = EL_AVAILABLE ∧
       ft w (EL_HEAP_START_ADDRESS + n - sizeof_blockfoot)
         = n - EL_BLOCK_OVERHEAD ∧
       el_ctl w = Ctl n EL_HEAP_START_ADDRESS (EL_HEAP_START_ADDRESS + n)
                      avail_actual used_actual ∧
       lst w avail_actual
         = BlockList (beg_actual_of avail_actual) (end_actual_of avail_actual)
                     1 n ∧
       lst w used_actual
         = BlockList (beg_actual_of used_actual) (end_actual_of used_actual)
                     0 0.
Proof.
  intros H1 H2. destruct (el_init_spec n H1 H2) as (w & E & Hok & _ & Hsz & Hctl).
  exists w. pose proof (ok_lists _ _ _ Hok) as Hl.
  assert (HB : EL_HEAP_START_ADDRESS ∈ [EL_HEAP_START_ADDRESS] ++ [])
    by set_solver +.
  destruct (til_block _ _ (ok_tiling _ _ _ Hok) _ HB) as (_ & _ & _ & Hft).
  split_and!; try done.
  - apply (ok_avail _ _ _ Hok). set_solver +.
  - rewrite Hsz in Hft. rewrite <- Hft. f_equal. el_lia.
  - rewrite (dll_lst _ _ _ (lo_avail _ _ _ Hl)). simpl. rewrite Hsz.
    f_equal. lia.
  - by rewrite (dll_lst _ _ _ (lo_used _ _ _ Hl)).
Qed.

Lemma el_init_one_free_block_witness :
  ∃ w, el_init 4096 fresh_world = Ok 0 w ∧
       heap_ok w [EL_HEAP_START_ADDRESS] [] ∧
       sz w EL_HEAP_START_ADDRESS = 4096 - EL_BLOCK_OVERHEAD ∧
       st w EL_HEAP_START_ADDRESS = EL_AVAILABLE ∧
       ft w (EL_HEAP_START_ADDRESS + 4096 - sizeof_blockfoot)
         = 4096 - EL_BLOCK_OVERHEAD ∧
       el_ctl w = Ctl 4096 EL_HEAP_START_ADDRESS
                      (EL_HEAP_START_ADDRESS + 4096)
                      avail_actual used_actual ∧
       lst w avail_actual
         = BlockList (beg_actual_of avail_actual) (end_actual_of avail_actual)
                     1 4096 ∧
       lst w used_actual
         = BlockList (beg_actual_of used_actual) (end_actual_of used_actual)
                     0 0.
Proof.
  destruct page_heap_fits as [H1 H2].
  exact (el_init_one_free_block 4096 H1 H2).
Defined.

(** ** Growing the heap: refusal, and the general case *)

(** X10: when [mmap] fails, or answers with an address other than
    [heap_end], [el_append_pages_to_heap] returns 1 and the memory is as it
    was, whatever the number of pages asked for. *)
Theorem grow_refused_changes_nothing fuel npages m w :
  m = MAP_FAILED ∨ m ≠ heap_end (el_ctl w) →
  el_append_pages_to_heap fuel npages m w = Ok 1 w.
Proof.
  intros [->|Hne]; unfold el_append_pages_to_heap.
  - by rewrite Z.eqb_refl.
  - destruct (m =? MAP_FAILED); [done|].
    unfold bind, get_ctl.
    by destruct (Z.eqb_spec m (heap_end (el_ctl w))).
Qed.

Lemma grow_refused_changes_nothing_witness :
  el_append_pages_to_heap 3 1 MAP_FAILED split_page_world
    = Ok 1 split_page_world.
Proof.
  apply (grow_refused_changes_nothing 3 1 MAP_FAILED split_page_world).
  left. reflexivity.
Defined.

(** A granted growth, all cases: the heap is [N] bytes longer, the used
    blocks are as they were, and the block [M] that ends the heap is free
    and holds the new pages. *)
Lemma el_append_pages_total w la lu npages f :
  heap_ok w la lu → top_pair_only w la → 1 ≤ npages →
  heap_end (el_ctl w) + npages * EL_PAGE_BYTES ≤ EL_CTL_START_ADDRESS →
  ∃ w' la' M,
    el_append_pages_to_heap (S (S (S f))) npages (heap_end (el_ctl w)) w
      = Ok 0 w' ∧
    heap_ok w' la' lu ∧ top_pair_only w' la' ∧
    heap_start (el_ctl w') = heap_start (el_ctl w) ∧
    heap_end (el_ctl w') = heap_end (el_ctl w) + npages * EL_PAGE_BYTES ∧
    heap_bytes (el_ctl w') = heap_bytes (el_ctl w) + npages * EL_PAGE_BYTES ∧
    (∀ p, p ∈ lu → sz w' p = sz w p) ∧
    M ∈ la' ∧ M ≤ heap_end (el_ctl w) ∧
    M + sz w' M + EL_BLOCK_OVERHEAD = heap_end (el_ctl w').
Proof.
  intros Hok Htp Hnp Hfit.
  destruct (el_append_pages_spec w la lu npages f Hok Htp Hnp Hfit)
    as (w' & la' & E & Happ).
  destruct (appended_inv w la lu (npages * EL_PAGE_BYTES) w' la' Hok Htp)
    as [Hok' Htp']; [el_lia|done|].
  exists w', la'.
  destruct Happ as (w5 & Hok5 & Hhs5 & Hhe5 & Hhb5 & Hdat5 & Hsz5 & Hft5 & Hcase).
  set (nb := heap_end (el_ctl w)) in *.
  set (N := npages * EL_PAGE_BYTES) in *.
  assert (Hnb : ∀ p, p ∈ la ++ lu → p ≠ nb).
  { intros p Hp ->.
    destruct (heap_ok_block _ _ _ _ Hok Hp) as ([_ Hh] & _). el_lia. }
  pose proof (lo_nodup _ _ _ (ok_lists _ _ _ Hok)) as Hnd.
  assert (Hdisj : ∀ p, p ∈ la → p ∈ lu → False).
  { intros p H1 H2. apply NoDup_app in Hnd as (_ & Hd & _). by apply (Hd p). }
  destruct Hcase as [(Hno & -> & ->)
                    |(t & w6 & la6 & M & Ht & Et & Hm & Hset & _)].
  - exists nb. split_and!; try done.
    + intros p Hp. apply Hdat5. apply Hnb. set_solver + Hp.
    + set_solver +.
    + rewrite Hsz5, Hhe5. lia.
  - destruct Hm as (Hok6 & Hla6 & Hctl6 & Hsz6 & Hst6 & Hft6).
    assert (Htnb : t ≠ nb) by (apply Hnb; set_solver + Ht).
    assert (HtB : t ∈ la ++ lu) by set_solver + Ht.
    destruct (heap_ok_block _ _ _ _ Hok HtB) as (_ & Ht0 & _ & _).
    assert (Hszt : sz w6 t = sz w t + N).
    { rewrite Hsz6. rewrite decide_True by done.
      rewrite Hsz5. destruct (Hdat5 t Htnb) as [-> _]. lia. }
    assert (Hlu6 : ∀ p, p ∈ lu → sz w6 p = sz w p).
    { intros p Hp. rewrite Hsz6. rewrite decide_False.
      - apply Hdat5. apply Hnb. set_solver + Hp.
      - intros ->. by apply (Hdisj t). }
    destruct Hset as [(-> & -> & -> & _)|(p & Hp & Ep & Hm' & ->)].
    + exists t. split_and!; try done.
      * by rewrite Hctl6.
      * by rewrite Hctl6.
      * by rewrite Hctl6.
      * apply Hla6. split; [set_solver + Ht|done].
      * unfold nb in *. el_lia.
      * rewrite Hszt, Hctl6, Hhe5. unfold nb, N in *. el_lia.
    + destruct Hm' as (Hok7 & Hla7 & Hctl7 & Hsz7 & Hst7 & Hft7).
      assert (Hpla : p ∈ la).
      { apply Hla6 in Hp as [Hp Hne].
        apply elem_of_cons in Hp as [?|?]; done. }
      assert (HpB : p ∈ la6 ++ lu) by set_solver + Hp.
      destruct (heap_ok_block _ _ _ _ Hok6 HpB) as (_ & Hp0 & _ & _).
      exists p. split_and!; try done.
      * by rewrite Hctl7, Hctl6.
      * by rewrite Hctl7, Hctl6.
      * by rewrite Hctl7, Hctl6.
      * intros q Hq. rewrite Hsz7. rewrite decide_False; [by apply Hlu6|].
        intros ->. by apply (Hdisj p).
      * apply Hla7. split; [done|]. rewrite Ep. el_lia.
      * unfold nb in *. el_lia.
      * rewrite Hsz7. rewrite decide_True by done.
        rewrite Hctl7, Hctl6, Hhe5. rewrite Hszt. unfold nb, N in *.
        el_lia.
Qed.

(** X11: a granted growth by [npages] pages (their bytes within the range
    of [int], in which the code forms the product), in a state that
    satisfies the invariant, returns 0 and keeps the invariant;
    [heap_end] and [heap_bytes] grow by the bytes of the pages,
    [heap_start] and the used list with the sizes of its blocks are as
    they were, and the new bytes are all free: the [bytes] of the
    available list grow by the bytes of the pages. *)
Theorem grow_extends_heap w la lu npages f :
  heap_ok w la lu → top_pair_only w la → 1 ≤ npages →
  npages * EL_PAGE_BYTES < 2 ^ 31 →
  heap_end (el_ctl w) + npages * EL_PAGE_BYTES ≤ EL_CTL_START_ADDRESS →
  ∃ w' la',
    el_append_pages_to_heap (S (S (S f))) npages (heap_end (el_ctl w)) w
      = Ok 0 w' ∧
    heap_ok w' la' lu ∧ top_pair_only w' la' ∧
    heap_start (el_ctl w') = heap_start (el_ctl w) ∧
    heap_end (el_ctl w') = heap_end (el_ctl w) + npages * EL_PAGE_BYTES ∧
    heap_bytes (el_ctl w') = heap_bytes (el_ctl w) + npages * EL_PAGE_BYTES ∧
    (∀ p, p ∈ lu → sz w' p = sz w p) ∧
    l_bytes (lst w' (used (el_ctl w'))) = l_bytes (lst w (used (el_ctl w))) ∧
    l_bytes (lst w' (avail (el_ctl w')))
      = l_bytes (lst w (avail (el_ctl w))) + npages * EL_PAGE_BYTES.
Proof.
  intros Hok Htp Hnp _ Hfit.
  destruct (el_append_pages_total w la lu npages f Hok Htp Hnp Hfit)
    as (w' & la' & M & E & Hok' & Htp' & Hs & He & Hb & Hlu & _).
  exists w', la'.
  pose proof (ok_lists _ _ _ Hok) as Hl.
  pose proof (ok_lists _ _ _ Hok') as Hl'.
  pose proof (lo_ctl _ _ _ Hl) as (_ & _ & _ & _ & Hav & Hus).
  pose proof (lo_ctl _ _ _ Hl') as (_ & _ & _ & _ & Hav' & Hus').
  pose proof (ok_bytes _ _ _ Hok) as Hby.
  pose proof (ok_bytes _ _ _ Hok') as Hby'.
  assert (Hsum : sum_bytes w' lu = sum_bytes w lu) by by apply sum_bytes_frame.
  rewrite Hav, Hus, Hav', Hus'.
  rewrite (dll_lst _ _ _ (lo_avail _ _ _ Hl)), (dll_lst _ _ _ (lo_used _ _ _ Hl)).
  rewrite (dll_lst _ _ _ (lo_avail _ _ _ Hl')),
    (dll_lst _ _ _ (lo_used _ _ _ Hl')). simpl.
  split_and!; try done. lia.
Qed.

Lemma grow_extends_heap_witness :
  ∃ w' la',
    el_append_pages_to_heap 3 2 (heap_end (el_ctl split_page_world))
      split_page_world = Ok 0 w' ∧
    heap_ok w' la' [EL_HEAP_START_ADDRESS] ∧ top_pair_only w' la' ∧
    heap_start (el_ctl w') = heap_start (el_ctl split_page_world) ∧
    heap_end (el_ctl w')
      = heap_end (el_ctl split_page_world) + 2 * EL_PAGE_BYTES ∧
    heap_bytes (el_ctl w')
      = heap_bytes (el_ctl split_page_world) + 2 * EL_PAGE_BYTES ∧
    (∀ p, p ∈ [EL_HEAP_START_ADDRESS] → sz w' p = sz split_page_world p) ∧
    l_bytes (lst w' (used (el_ctl w')))
      = l_bytes (lst split_page_world (used (el_ctl split_page_world))) ∧
    l_bytes (lst w' (avail (el_ctl w')))
      = l_bytes (lst split_page_world (avail (el_ctl split_page_world)))
        + 2 * EL_PAGE_BYTES.
Proof.
  destruct split_page_ok as (_ & Hok & Htp & _ & _ & Hctl).
  destruct page_heap_ok as (_ & _ & _ & _ & Hctl0).
  apply (grow_extends_heap split_page_world _ _ 2 0 Hok Htp).
  - lia.
  - vm_compute. reflexivity.
  - rewrite Hctl, Hctl0. vm_compute. discriminate.
Defined.

(** X12: the retry after a growth.  In a state that satisfies the
    invariant, after a granted growth by [npages] pages (their bytes
    within the range of [int]) every request of at most
    [npages * EL_PAGE_BYTES - EL_BLOCK_OVERHEAD] bytes is served:
    [el_malloc] returns the pointer to a block of the available list. *)
Theorem malloc_succeeds_after_grow w la lu npages f n :
  heap_ok w la lu → top_pair_only w la → 1 ≤ npages →
  npages * EL_PAGE_BYTES < 2 ^ 31 →
  heap_end (el_ctl w) + npages * EL_PAGE_BYTES ≤ EL_CTL_START_ADDRESS →
  0 ≤ n → n ≤ npages * EL_PAGE_BYTES - EL_BLOCK_OVERHEAD →
  ∃ w1 la1 b w2,
    el_append_pages_to_heap (S (S (S f))) npages (heap_end (el_ctl w)) w
      = Ok 0 w1 ∧
    heap_ok w1 la1 lu ∧ b ∈ la1 ∧
    el_malloc (S (length la1)) n w1 = Ok (b + sizeof_blockhead) w2 ∧
    st w2 b = EL_USED ∧ n ≤ sz w2 b.
Proof.
  intros Hok Htp Hnp _ Hfit Hn0 Hn.
  destruct (el_append_pages_total w la lu npages f Hok Htp Hnp Hfit)
    as (w1 & la1 & M & E & Hok1 & Htp1 & Hs & He & Hb & Hlu & HM & HMle & HMe).
  destruct (el_malloc_total w1 la1 lu (S (length la1)) n Hok1 Hn0)
    as [[Hall _]|(l1 & b & l2 & w2 & la2 & Ela & _ & Hbn & Em & Hok2 & _
                  & _ & Hst & _ & Hcase)]; [lia| |].
  { specialize (Hall M HM). el_lia. }
  exists w1, la1, b, w2. split_and!; try done.
  - rewrite Ela. set_solver +.
  - destruct Hcase as [(_ & -> & _)|(_ & _ & ->)]; lia.
Qed.

Lemma malloc_succeeds_after_grow_witness :
  ∃ w1 la1 b w2,
    el_append_pages_to_heap 3 2 (heap_end (el_ctl used_page_world))
      used_page_world = Ok 0 w1 ∧
    heap_ok w1 la1 [EL_HEAP_START_ADDRESS] ∧ b ∈ la1 ∧
    el_malloc (S (length la1)) 8000 w1 = Ok (b + sizeof_blockhead) w2 ∧
    st w2 b = EL_USED ∧ 8000 ≤ sz w2 b.
Proof.
  destruct used_page_ok as (_ & Hok & Htp & _ & Hctl).
  destruct page_heap_ok as (_ & _ & _ & _ & Hctl0).
  apply (malloc_succeeds_after_grow used_page_world _ _ 2 0 8000 Hok Htp).
  - lia.
  - vm_compute. reflexivity.
  - rewrite Hctl, Hctl0. vm_compute. discriminate.
  - lia.
  - vm_compute. discriminate.
Defined.

(** ** The two list operations *)

(** X13: [el_add_block_front] on a well-formed list, for a mapped block that
    is not on it: the block becomes the first member (the one the begin
    sentinel points to), the other members follow in their order,
    [length] grows by one and [bytes] by the size of the block plus
    [EL_BLOCK_OVERHEAD]; no size, state or footer changes. *)
Theorem el_add_block_front_counts w L l b :
  list_mapped L = true → dll w L l →
  NoDup (beg_actual_of L :: l ++ [end_actual_of L]) →
  b ∉ beg_actual_of L :: l ++ [end_actual_of L] →
  head_mapped w b = true → 0 ≤ sz w b →
  (∀ x, x ∈ l → head_mapped w x = true ∧ 0 ≤ sz w x) →
  sum_bytes w l + sz w b + EL_BLOCK_OVERHEAD < SIZE_MODULUS →
  wp (el_add_block_front L b)
     (λ _ w',
        dll w' L (b :: l) ∧ nx w' (beg_actual_of L) = b ∧
        l_length (lst w' L) = l_length (lst w L) + 1 ∧
        l_bytes (lst w' L) = l_bytes (lst w L) + sz w b + EL_BLOCK_OVERHEAD ∧
        same_data w w') w.
Proof.
  intros HL Hd Hnd Hb Hm H0 Hmap Hsum.
  eapply wp_mono; [by apply el_add_block_front_spec|].
  cbv beta. intros _ w' (Hd' & Hsd & _ & _).
  pose proof (dll_chain _ _ _ Hd') as Hch. simpl in Hch.
  destruct Hch as (Hnx & _ & _).
  rewrite (dll_lst _ _ _ Hd'), (dll_lst _ _ _ Hd). simpl l_length. simpl l_bytes.
  split_and!; try done.
  - simpl length. lia.
  - simpl sum_bytes. rewrite (sum_bytes_same_data w w') by done.
    destruct Hsd as (_ & _ & Hdat). destruct (Hdat b) as [-> _]. lia.
Qed.

Lemma el_add_block_front_counts_witness :
  wp (el_add_block_front avail_actual (EL_HEAP_START_ADDRESS + 200))
     (λ _ w',
        dll w' avail_actual
            [EL_HEAP_START_ADDRESS + 200; EL_HEAP_START_ADDRESS] ∧
        nx w' (beg_actual_of avail_actual) = EL_HEAP_START_ADDRESS + 200 ∧
        l_length (lst w' avail_actual)
          = l_length (lst (init_world 4096) avail_actual) + 1 ∧
        l_bytes (lst w' avail_actual)
          = l_bytes (lst (init_world 4096) avail_actual)
            + sz (init_world 4096) (EL_HEAP_START_ADDRESS + 200)
            + EL_BLOCK_OVERHEAD ∧
        same_data (init_world 4096) w') (init_world 4096).
Proof.
  destruct page_heap_ok as (_ & Hok & _ & Hsz & Hctl).
  pose proof (ok_lists _ _ _ Hok) as Hl.
  assert (Hz : sz (init_world 4096) (EL_HEAP_START_ADDRESS + 200) = 0)
    by (vm_compute; reflexivity).
  apply (el_add_block_front_counts (init_world 4096) avail_actual
           [EL_HEAP_START_ADDRESS] (EL_HEAP_START_ADDRESS + 200)).
  - reflexivity.
  - exact (lo_avail _ _ _ Hl).
  - by_decide.
  - by_decide.
  - apply blk_in_heap_mapped. unfold blk_in_heap. rewrite Hctl.
    split; vm_compute; discriminate.
  - rewrite Hz. lia.
  - intros x Hx. apply list_elem_of_singleton in Hx. subst x.
    split; [|rewrite Hsz; lia].
    apply (heap_ok_mapped _ _ _ _ Hok). apply list_elem_of_here.
  - unfold sum_bytes. simpl foldr. rewrite Hsz, Hz. vm_compute. reflexivity.
Defined.

(** X14: [el_remove_block] of a member of a well-formed list: the other
    members stay in their order, [length] drops by one and [bytes] by the
    size of the block plus [EL_BLOCK_OVERHEAD]; no size, state or footer
    changes. *)
Theorem el_remove_block_counts w L l1 b l2 :
  list_mapped L = true → dll w L (l1 ++ b :: l2) →
  NoDup (beg_actual_of L :: (l1 ++ b :: l2) ++ [end_actual_of L]) →
  (∀ x, x ∈ l1 ++ b :: l2 → head_mapped w x = true ∧ 0 ≤ sz w x) →
  sum_bytes w (l1 ++ b :: l2) < SIZE_MODULUS →
  wp (el_remove_block L b)
     (λ _ w',
        dll w' L (l1 ++ l2) ∧
        l_length (lst w' L) = l_length (lst w L) - 1 ∧
        l_bytes (lst w' L) = l_bytes (lst w L) - (sz w b + EL_BLOCK_OVERHEAD) ∧
        same_data w w') w.
Proof.
  intros HL Hd Hnd Hmap Hsum.
  eapply wp_mono; [by apply el_remove_block_spec|].
  cbv beta. intros _ w' (Hd' & Hsd & _ & _).
  rewrite (dll_lst _ _ _ Hd'), (dll_lst _ _ _ Hd). simpl l_length. simpl l_bytes.
  split_and!; try done.
  - rewrite !length_app, length_cons. lia.
  - rewrite (sum_bytes_same_data w w') by done.
    rewrite !sum_bytes_app. simpl sum_bytes. lia.
Qed.

Lemma el_remove_block_counts_witness :
  wp (el_remove_block avail_actual EL_HEAP_START_ADDRESS)
     (λ _ w',
        dll w' avail_actual ([] ++ []) ∧
        l_length (lst w' avail_actual)
          = l_length (lst (init_world 4096) avail_actual) - 1 ∧
        l_bytes (lst w' avail_actual)
          = l_bytes (lst (init_world 4096) avail_actual)
            - (sz (init_world 4096) EL_HEAP_START_ADDRESS
               + EL_BLOCK_OVERHEAD) ∧
        same_data (init_world 4096) w') (init_world 4096).
Proof.
  destruct page_heap_ok as (_ & Hok & _ & Hsz & Hctl).
  pose proof (ok_lists _ _ _ Hok) as Hl.
  apply (el_remove_block_counts (init_world 4096) avail_actual
           [] EL_HEAP_START_ADDRESS []).
  - reflexivity.
  - exact (lo_avail _ _ _ Hl).
  - by_decide.
  - intros x Hx. apply list_elem_of_singleton in Hx. subst x.
    split; [|rewrite Hsz; lia].
    apply (heap_ok_mapped _ _ _ _ Hok). apply list_elem_of_here.
  - unfold sum_bytes. simpl foldr. rewrite Hsz. vm_compute. reflexivity.
Defined.

(** X15: [el_add_block_front] followed by [el_remove_block] of the same
    block leaves the list as it was: the same members in the same order,
    the same [length] and [bytes]. *)
Theorem add_then_remove_restores_list w L l b :
  list_mapped L = true → dll w L l →
  NoDup (beg_actual_of L :: l ++ [end_actual_of L]) →
  b ∉ beg_actual_of L :: l ++ [end_actual_of L] →
  head_mapped w b = true → 0 ≤ sz w b →
  (∀ x, x ∈ l → head_mapped w x = true ∧ 0 ≤ sz w x) →
  sum_bytes w l + sz w b + EL_BLOCK_OVERHEAD < SIZE_MODULUS →
  wp (el_add_block_front L b ;;; el_remove_block L b)
     (λ _ w', dll w' L l ∧ lst w' L = lst w L ∧ same_data w w') w.
Proof.
  intros HL Hd Hnd Hb Hm H0 Hmap Hsum.
  apply wp_bind. eapply wp_mono; [by apply el_add_block_front_spec|].
  cbv beta. intros _ w1 (Hd1 & Hsd1 & _ & _).
  pose proof Hsd1 as (Hctl1 & _ & Hdat1).
  eapply wp_mono.
  { apply (el_remove_block_spec w1 L [] b l); try done.
    - simpl. apply NoDup_cons in Hnd as [Hn1 Hn2].
      apply NoDup_cons. split.
      + intros Hin. apply elem_of_cons in Hin as [E|Hin]; [|done].
        apply Hb. rewrite <- E. set_solver +.
      + apply NoDup_cons. split; [|done].
        intros Hin. apply Hb. set_solver + Hin.
    - intros x Hx. rewrite (head_mapped_ctl w w1) by done.
      destruct (Hdat1 x) as [-> _].
      apply elem_of_cons in Hx as [->|Hx]; [done|by apply Hmap].
    - simpl. rewrite (sum_bytes_same_data w w1) by done.
      destruct (Hdat1 b) as [-> _]. lia. }
  cbv beta. intros _ w2 (Hd2 & Hsd2 & _ & _). simpl in Hd2.
  assert (Hsd : same_data w w2) by by eapply same_data_trans.
  split_and!; try done.
  rewrite (dll_lst _ _ _ Hd2), (dll_lst _ _ _ Hd).
  by rewrite (sum_bytes_same_data w w2).
Qed.

Lemma add_then_remove_restores_list_witness :
  wp (el_add_block_front avail_actual (EL_HEAP_START_ADDRESS + 200) ;;;
      el_remove_block avail_actual (EL_HEAP_START_ADDRESS + 200))
     (λ _ w', dll w' avail_actual [EL_HEAP_START_ADDRESS] ∧
              lst w' avail_actual = lst (init_world 4096) avail_actual ∧
              same_data (init_world 4096) w') (init_world 4096).
Proof.
  destruct page_heap_ok as (_ & Hok & _ & Hsz & Hctl).
  pose proof (ok_lists _ _ _ Hok) as Hl.
  assert (Hz : sz (init_world 4096) (EL_HEAP_START_ADDRESS + 200) = 0)
    by (vm_compute; reflexivity).
  apply (add_then_remove_restores_list (init_world 4096) avail_actual
           [EL_HEAP_START_ADDRESS] (EL_HEAP_START_ADDRESS + 200)).
  - reflexivity.
  - exact (lo_avail _ _ _ Hl).
  - by_decide.
  - by_decide.
  - apply blk_in_heap_mapped. unfold blk_in_heap. rewrite Hctl.
    split; vm_compute; discriminate.
  - rewrite Hz. lia.
  - intros x Hx. apply list_elem_of_singleton in Hx. subst x.
    split; [|rewrite Hsz; lia].
    apply (heap_ok_mapped _ _ _ _ Hok). apply list_elem_of_here.
  - unfold sum_bytes. simpl foldr. rewrite Hsz, Hz. vm_compute. reflexivity.
Defined.

(** ** From a header to its footer and back, and between neighbours *)

(** X16: for a block of a tiled heap, [el_get_header] of [el_get_footer]
    of the block is the block, and [el_get_footer] of it is the address
    right after its [size] bytes of user memory. *)
Theorem header_of_footer w B b :
  ctl_ok w → tiling w B → b ∈ B →
  el_get_footer b w = Ok (b + sizeof_blockhead + sz w b) w ∧
  (foot <- el_get_footer b ;; el_get_header foot) w = Ok b w.
Proof.
  intros Hc Ht Hb.
  pose proof Hc as (H1 & H2 & H3 & H4 & _).
  destruct (til_block _ _ Ht b Hb) as (Hb1 & Hb2 & Hb3 & Hft).
  pose proof (tiling_in_heap _ _ _ Ht Hb) as Hbh.
  assert (E : el_get_footer b w = Ok (b + sizeof_blockhead + sz w b) w).
  { pose proof (el_get_footer_spec w b
        (λ r w', r = b + sizeof_blockhead + sz w b ∧ w' = w)
        Hc Hbh Hb2 Hb3 (conj eq_refl eq_refl)) as Hwp.
    unfold wp in Hwp. destruct (el_get_footer b w) as [r w'| |]; [|done..].
    by destruct Hwp as [-> ->]. }
  split; [done|].
  unfold bind. rewrite E. unfold el_get_header, bind, rd_foot, ret.
  rewrite (tiling_foot_mapped _ _ _ Ht Hb).
  fold (ft w (b + sizeof_blockhead + sz w b)). rewrite Hft.
  unfold PTR_MINUS_BYTES. rewrite (wrap_small (_ + sz w b)) by el_lia.
  rewrite wrap_small by el_lia. f_equal. lia.
Qed.

Lemma header_of_footer_witness :
  el_get_footer EL_HEAP_START_ADDRESS split_page_world
    = Ok (EL_HEAP_START_ADDRESS + sizeof_blockhead
          + sz split_page_world EL_HEAP_START_ADDRESS) split_page_world ∧
  (foot <- el_get_footer EL_HEAP_START_ADDRESS ;; el_get_header foot)
    split_page_world = Ok EL_HEAP_START_ADDRESS split_page_world.
Proof.
  destruct split_page_ok as (_ & Hok & _).
  apply (header_of_footer split_page_world _ EL_HEAP_START_ADDRESS
           (heap_ok_ctl _ _ _ Hok) (ok_tiling _ _ _ Hok)).
  apply list_elem_of_further, list_elem_of_here.
Defined.

(** X17: in a tiled heap the two neighbour functions undo each other: for a
    block that does not end the heap, [el_block_below] of
    [el_block_above] is the block; for a block that does not start the
    heap, [el_block_above] of [el_block_below] is the block.  The block
    that ends the heap has no block above, the block at [heap_start] none
    below. *)
Theorem above_below_inverse w B b :
  ctl_ok w → tiling w B → b ∈ B →
  (if decide (b + sz w b + EL_BLOCK_OVERHEAD = heap_end (el_ctl w))
   then el_block_above b w = Ok NULL w
   else (h <- el_block_above b ;; el_block_below h) w = Ok b w) ∧
  (if decide (b = heap_start (el_ctl w))
   then el_block_below b w = Ok NULL w
   else (p <- el_block_below b ;; el_block_above p) w = Ok b w).
Proof.
  intros Hc Ht Hb.
  assert (Hrun : ∀ {A} (c : M A) (a : A),
            wp c (λ r w', r = a ∧ w' = w) w → c w = Ok a w).
  { intros A c a Hwp. unfold wp in Hwp.
    destruct (c w) as [r w'| |]; [|done..]. by destruct Hwp as [-> ->]. }
  destruct (til_block _ _ Ht b Hb) as (Hb1 & Hb2 & Hb3 & Hft).
  split.
  - case_decide as E.
    + apply Hrun. eapply el_block_above_spec; [done..|].
      by rewrite decide_True.
    + apply Hrun. apply wp_bind.
      eapply el_block_above_spec; [done..|]. rewrite decide_False by done.
      destruct (til_above _ _ Ht b Hb) as [?|Hh]; [done|].
      eapply el_block_below_spec; [done..| |].
      * intros E'. el_lia.
      * intros p Hp Ep. split; [|done].
        eapply tiling_end_inj; [done..|]. lia.
  - case_decide as E.
    + apply Hrun. subst b. by apply el_block_below_first.
    + apply Hrun. apply wp_bind.
      eapply el_block_below_spec; [done..|done|].
      intros p Hp Ep.
      eapply el_block_above_spec; [done..|].
      destruct (til_block _ _ Ht b Hb) as (_ & _ & Hbe & _).
      rewrite decide_False by el_lia. done.
Qed.

Lemma above_below_inverse_witness :
  (if decide (EL_HEAP_START_ADDRESS
              + sz split_page_world EL_HEAP_START_ADDRESS
              + EL_BLOCK_OVERHEAD = heap_end (el_ctl split_page_world))
   then el_block_above EL_HEAP_START_ADDRESS split_page_world
        = Ok NULL split_page_world
   else (h <- el_block_above EL_HEAP_START_ADDRESS ;; el_block_below h)
          split_page_world = Ok EL_HEAP_START_ADDRESS split_page_world) ∧
  (if decide (EL_HEAP_START_ADDRESS = heap_start (el_ctl split_page_world))
   then el_block_below EL_HEAP_START_ADDRESS split_page_world
        = Ok NULL split_page_world
   else (p <- el_block_below EL_HEAP_START_ADDRESS ;; el_block_above p)
          split_page_world = Ok EL_HEAP_START_ADDRESS split_page_world).
Proof.
  destruct split_page_ok as (_ & Hok & _).
  apply (above_below_inverse split_page_world _ EL_HEAP_START_ADDRESS
           (heap_ok_ctl _ _ _ Hok) (ok_tiling _ _ _ Hok)).
  apply list_elem_of_further, list_elem_of_here.
Defined.

(** ** What the printing functions report *)

(** The lines for the members [l], numbered from [i]. *)
Fixpoint lines_of (w : world) (i : Z) (l : list Z) : list list_line :=
  match l with
  | [] => []
  | b :: l' => ListLine i b (st w b) (sz w b) :: lines_of w (i + 1) l'
  end.




Lemma print_blocklist_loop_spec w e : ∀ l a i,
  chain (λ p, nx w p) (λ p, pv w p) a l e →
  head_mapped w a = true → (∀ b, b ∈ l → head_mapped w b = true) →
  print_blocklist_loop (length l) i a w = Ok (lines_of w i l) w.
Proof.
  induction l as [|b l IH]; intros a i Hch Ha Hl; [done|].
  simpl in Hch. destruct Hch as (Hn & _ & Hch).
  assert (Hb : head_mapped w b = true) by (apply Hl; set_solver +).
  simpl length. simpl lines_of.
  change (print_blocklist_loop (S (length l)) i a) with
    (block' <- rd h_next a ;;
     st <- rd h_state block' ;;
     size <- rd h_size block' ;;
     rest <- print_blocklist_loop (length l) (i + 1) block' ;;
     ret (ListLine i block' st size :: rest)).
  unfold bind at 1. unfold rd at 1. rewrite Ha. fold (hdr w a). rewrite Hn.
  unfold bind at 1. unfold rd at 1. rewrite Hb. fold (hdr w b).
  unfold bind at 1. unfold rd at 1. rewrite Hb. fold (hdr w b).
  unfold bind. rewrite (IH b (i + 1) Hch Hb); [done|].
  intros x Hx. apply Hl. set_solver + Hx.
Qed.

Lemma el_print_blocklist_spec w L l la lu :
  lists_ok w la lu → list_mapped L = true → dll w L l →
  (∀ b, b ∈ l → b ∈ la ++ lu) →
  el_print_blocklist L w
    = Ok (ListReport (Z.of_nat (length l)) (sum_bytes w l) (lines_of w 0 l)) w.
Proof.
  intros Hl HL [Hlst Hch] Hsub.
  unfold el_print_blocklist, bind, rd_list. rewrite HL. fold (lst w L).
  rewrite Hlst. simpl. rewrite Nat2Z.id.
  rewrite (print_blocklist_loop_spec w (end_actual_of L) l); [done|done| |].
  - apply (list_sentinels_mapped w L HL).
  - intros b Hb. apply blk_in_heap_mapped. apply (lo_heap _ _ _ Hl).
    by apply Hsub.
Qed.

(** X18: [el_print_blocklist] of the available list and of the used list
    prints the [length], the [bytes], and one line per member in the order
    of the list, numbered from 0, with the state and the size of the
    member; the memory is not changed.  (The lists are shorter than
    [2^31], the range of the [int] that counts the lines.) *)
Theorem el_print_blocklist_members w la lu :
  lists_ok w la lu →
  Z.of_nat (length la) < 2 ^ 31 → Z.of_nat (length lu) < 2 ^ 31 →
  el_print_blocklist (avail (el_ctl w)) w
    = Ok (ListReport (l_length (lst w (avail (el_ctl w))))
                     (l_bytes (lst w (avail (el_ctl w))))
                     (lines_of w 0 la)) w ∧
  el_print_blocklist (used (el_ctl w)) w
    = Ok (ListReport (l_length (lst w (used (el_ctl w))))
                     (l_bytes (lst w (used (el_ctl w))))
                     (lines_of w 0 lu)) w.
Proof.
  intros Hl _ _.
  pose proof (lo_ctl _ _ _ Hl) as (_ & _ & _ & _ & Hav & Hus).
  rewrite Hav, Hus.
  rewrite (dll_lst _ _ _ (lo_avail _ _ _ Hl)), (dll_lst _ _ _ (lo_used _ _ _ Hl)).
  simpl. split.
  - apply (el_print_blocklist_spec w avail_actual la la lu); try done.
    + apply (lo_avail _ _ _ Hl).
    + intros b Hb. set_solver + Hb.
  - apply (el_print_blocklist_spec w used_actual lu la lu); try done.
    + apply (lo_used _ _ _ Hl).
    + intros b Hb. set_solver + Hb.
Qed.

Lemma el_print_blocklist_members_witness :
  el_print_blocklist (avail (el_ctl split_page_world)) split_page_world
    = Ok (ListReport
            (l_length (lst split_page_world (avail (el_ctl split_page_world))))
            (l_bytes (lst split_page_world (avail (el_ctl split_page_world))))
            (lines_of split_page_world 0 [EL_HEAP_START_ADDRESS + 140]))
         split_page_world ∧
  el_print_blocklist (used (el_ctl split_page_world)) split_page_world
    = Ok (ListReport
            (l_length (lst split_page_world (used (el_ctl split_page_world))))
            (l_bytes (lst split_page_world (used (el_ctl split_page_world))))
            (lines_of split_page_world 0 [EL_HEAP_START_ADDRESS]))
         split_page_world.
Proof.
  destruct split_page_ok as (_ & Hok & _).
  apply (el_print_blocklist_members split_page_world _ _ (ok_lists _ _ _ Hok));
    vm_compute; reflexivity.
Defined.







(** ** An empty list *)

(** X20: [el_init_blocklist] on one of the two list structs of the control
    page leaves a well-formed empty list: the two sentinels point to each
    other, they carry [EL_BEGIN_BLOCK] and [EL_END_BLOCK] with the size
    [EL_UNINITIALIZED], and [length] and [bytes] are 0.  The other list,
    the headers of the heap, the footers and the control fields are not
    touched. *)
Theorem el_init_blocklist_empty w L :
  list_mapped L = true →
  wp (el_init_blocklist L)
     (λ _ w',
        dll w' L [] ∧
        hdr w' (beg_actual_of L)
          = BlockHead EL_UNINITIALIZED EL_BEGIN_BLOCK (end_actual_of L) NULL ∧
        hdr w' (end_actual_of L)
          = BlockHead EL_UNINITIALIZED EL_END_BLOCK NULL (beg_actual_of L) ∧
        el_ctl w' = el_ctl w ∧ (∀ q, ft w' q = ft w q) ∧
        (∀ K, K ≠ L → lst w' K = lst w K) ∧
        (∀ p, p ≠ beg_actual_of L → p ≠ end_actual_of L →
              hdr w' p = hdr w p)) w.
Proof.
  intros HL. apply el_init_blocklist_spec; [done|].
  match goal with |- context [dll ?w0 _ _] => set (w' := w0) end.
  assert (Hne : beg_actual_of L ≠ end_actual_of L) by el_lia.
  assert (Hlst : lst w' L = BlockList (beg_actual_of L) (end_actual_of L) 0 0).
  { unfold w'. repeat (first [rewrite lst_upd_list, decide_True by done
                             |rewrite lst_upd_head]).
    by destruct (lst w L). }
  assert (Hb : hdr w' (beg_actual_of L)
               = BlockHead EL_UNINITIALIZED EL_BEGIN_BLOCK (end_actual_of L)
                           NULL).
  { unfold w'.
    repeat (first [rewrite hdr_upd_list
                  |rewrite hdr_upd_head, decide_True by done
                  |rewrite hdr_upd_head, decide_False by done]).
    by destruct (hdr w (beg_actual_of L)). }
  assert (He : hdr w' (end_actual_of L)
               = BlockHead EL_UNINITIALIZED EL_END_BLOCK NULL
                           (beg_actual_of L)).
  { unfold w'.
    repeat (first [rewrite hdr_upd_list
                  |rewrite hdr_upd_head, decide_True by done
                  |rewrite hdr_upd_head, decide_False by done]).
    by destruct (hdr w (end_actual_of L)). }
  split_and!.
  - split.
    + by rewrite Hlst.
    + simpl. by rewrite Hb, He.
  - exact Hb.
  - exact He.
  - done.
  - intros q. done.
  - intros K HK. unfold w'.
    repeat (first [rewrite lst_upd_list, decide_False by done
                  |rewrite lst_upd_head]). done.
  - intros p Hp1 Hp2. unfold w'.
    repeat (first [rewrite hdr_upd_list
                  |rewrite hdr_upd_head, decide_False by done]). done.
Qed.

Lemma el_init_blocklist_empty_witness :
  wp (el_init_blocklist used_actual)
     (λ _ w',
        dll w' used_actual [] ∧
        hdr w' (beg_actual_of used_actual)
          = BlockHead EL_UNINITIALIZED EL_BEGIN_BLOCK
                      (end_actual_of used_actual) NULL ∧
        hdr w' (end_actual_of used_actual)
          = BlockHead EL_UNINITIALIZED EL_END_BLOCK NULL
                      (beg_actual_of used_actual) ∧
        el_ctl w' = el_ctl fresh_world ∧
        (∀ q, ft w' q = ft fresh_world q) ∧
        (∀ K, K ≠ used_actual → lst w' K = lst fresh_world K) ∧
        (∀ p, p ≠ beg_actual_of used_actual →
              p ≠ end_actual_of used_actual →
              hdr w' p = hdr fresh_world p)) fresh_world.
Proof.
  apply (el_init_blocklist_empty fresh_world used_actual). reflexivity.
Defined.

(** ** First fit, as the code tests it *)

(** X21: [el_find_first_avail], whatever the states of the members of the
    available list: it returns the first member that is [EL_AVAILABLE] and
    has at least [n] bytes, skipping members in any other state even when
    they are large enough, and [NULL] when no member passes both tests; the
    memory is not changed. *)
Theorem find_first_avail_tests_state_and_size w la lu fuel n :
  lists_ok w la lu → (length la < fuel)%nat →
  ∃ r, el_find_first_avail fuel n w = Ok r w ∧
       ((r = NULL ∧
         ∀ b, b ∈ la → ¬ (st w b = EL_AVAILABLE ∧ n ≤ sz w b)) ∨
        (∃ l1 l2, la = l1 ++ r :: l2 ∧
                  st w r = EL_AVAILABLE ∧ n ≤ sz w r ∧
                  ∀ x, x ∈ l1 → ¬ (st w x = EL_AVAILABLE ∧ n ≤ sz w x))).
Proof.
  intros Hl Hfuel. exists (first_fit w n la).
  split; [by apply (el_find_first_avail_spec w la lu)|].
  destruct (first_fit_cases w n la)
    as [[E Hall]|(l1 & b & l2 & Ela & E & Hst & Hsz & Hall)].
  - left. done.
  - right. exists l1, l2. rewrite E. done.
Qed.

(** On [stale_state_world] a request of 50 bytes passes over the first
    member, which has 100 bytes and is not [EL_AVAILABLE], and gets the
    second; where the first member is [EL_AVAILABLE]
    ([small_first_world]) the same request gets it; a request of 5000
    bytes gets [NULL]. *)
Lemma find_first_avail_tests_state_and_size_witness :
  st stale_state_world EL_HEAP_START_ADDRESS = EL_USED ∧
  sz stale_state_world EL_HEAP_START_ADDRESS = 100 ∧
  st stale_state_world (EL_HEAP_START_ADDRESS + 140) = EL_AVAILABLE ∧
  sz stale_state_world (EL_HEAP_START_ADDRESS + 140) = 3916 ∧
  el_find_first_avail 3 50 stale_state_world
    = Ok (EL_HEAP_START_ADDRESS + 140) stale_state_world ∧
  el_find_first_avail 3 50 small_first_world
    = Ok EL_HEAP_START_ADDRESS small_first_world ∧
  el_find_first_avail 3 5000 stale_state_world = Ok NULL stale_state_world.
Proof.
  assert (Hfuel : (length [EL_HEAP_START_ADDRESS;
                           (EL_HEAP_START_ADDRESS + 140)%Z] < 3)%nat)
    by (simpl; lia).
  assert (Hfuel' : (length [EL_HEAP_START_ADDRESS;
                           (EL_HEAP_START_ADDRESS + 380)%Z] < 3)%nat)
    by (simpl; lia).
  do 4 (split; [vm_compute; reflexivity|]).
  split_and!.
  - destruct (find_first_avail_tests_state_and_size _ _ _ 3 50
                stale_state_lists Hfuel) as (r & E & Hr).
    rewrite E, (first_fit_unique _ _ _ _ Hr). vm_compute. reflexivity.
  - destruct (find_first_avail_tests_state_and_size _ _ _ 3 50
                small_first_lists Hfuel') as (r & E & Hr).
    rewrite E, (first_fit_unique _ _ _ _ Hr). vm_compute. reflexivity.
  - destruct (find_first_avail_tests_state_and_size _ _ _ 3 5000
                stale_state_lists Hfuel) as (r & E & Hr).
    rewrite E, (first_fit_unique _ _ _ _ Hr). vm_compute. reflexivity.
Defined.

(** ** Where the bytes go *)

(** X22: a successful [el_malloc] moves the bytes of the block it hands out
    from the available list to the used list: the block is the first
    member of the used list, whose [length] grows by one and whose [bytes]
    grow by the size of the block plus [EL_BLOCK_OVERHEAD], the [bytes] of
    the available list drop by as much, the bounds of the heap stay, and
    the blocks that were in use keep their sizes. *)
Theorem el_malloc_accounting w la lu fuel n :
  heap_ok w la lu → 0 ≤ n → (length la < fuel)%nat →
  (∃ x, x ∈ la ∧ n ≤ sz w x) →
  ∃ b w',
    el_malloc fuel n w = Ok (b + sizeof_blockhead) w' ∧
    el_ctl w' = el_ctl w ∧
    nx w' (l_beg (lst w' (used (el_ctl w')))) = b ∧
    l_length (lst w' (used (el_ctl w')))
      = l_length (lst w (used (el_ctl w))) + 1 ∧
    l_bytes (lst w' (used (el_ctl w')))
      = l_bytes (lst w (used (el_ctl w))) + (sz w' b + EL_BLOCK_OVERHEAD) ∧
    l_bytes (lst w' (avail (el_ctl w')))
      = l_bytes (lst w (avail (el_ctl w))) - (sz w' b + EL_BLOCK_OVERHEAD) ∧
    (∀ p, p ∈ lu → sz w' p = sz w p ∧ st w' p = EL_USED).
Proof.
  intros Hok Hn Hfuel (x & Hx & Hxn).
  destruct (el_malloc_total w la lu fuel n Hok Hn Hfuel)
    as [[Hall _]|(l1 & b & l2 & w' & la' & Ela & _ & Hb & Em & Hok' & _
                  & Hctl & Hst & Hsz & Hcase)].
  { specialize (Hall x Hx). lia. }
  exists b, w'.
  pose proof (ok_lists _ _ _ Hok) as Hl.
  pose proof (ok_lists _ _ _ Hok') as Hl'.
  pose proof (lo_ctl _ _ _ Hl) as (_ & _ & _ & _ & Hav & Hus).
  pose proof (lo_ctl _ _ _ Hl') as (_ & _ & _ & _ & Hav' & Hus').
  pose proof (lo_nodup _ _ _ Hl) as Hnd.
  pose proof (lo_nodup _ _ _ Hl') as Hnd'.
  assert (Hszlu : ∀ p, p ∈ lu → sz w' p = sz w p).
  { intros p Hp. destruct Hcase as [(_ & _ & Ela' & _)|(_ & _ & Hall)];
      [|by apply Hall].
    apply Hsz.
    - intros ->. apply NoDup_app in Hnd as (_ & Hd & _).
      apply (Hd b); [rewrite Ela; set_solver +|done].
    - intros ->. apply NoDup_app in Hnd' as (_ & Hd & _).
      apply (Hd (b + n + EL_BLOCK_OVERHEAD)); [rewrite Ela'|];
        set_solver + Hp. }
  assert (Hsum : sum_bytes w' lu = sum_bytes w lu) by by apply sum_bytes_frame.
  pose proof (ok_bytes _ _ _ Hok) as Hby.
  pose proof (ok_bytes _ _ _ Hok') as Hby'.
  simpl sum_bytes in Hby'.
  pose proof (dll_chain _ _ _ (lo_used _ _ _ Hl')) as Hch. simpl in Hch.
  destruct Hch as (Hnx & _).
  rewrite Hav, Hus, Hav', Hus'.
  rewrite (dll_lst _ _ _ (lo_avail _ _ _ Hl)), (dll_lst _ _ _ (lo_used _ _ _ Hl)).
  rewrite (dll_lst _ _ _ (lo_avail _ _ _ Hl')),
    (dll_lst _ _ _ (lo_used _ _ _ Hl')).
  simpl l_beg. simpl l_length. simpl l_bytes. simpl sum_bytes.
  rewrite Hctl in Hby'.
  split_and!; try done.
  - simpl length. lia.
  - lia.
  - lia.
  - intros p Hp. split; [by apply Hszlu|].
    apply (ok_used _ _ _ Hok'). set_solver + Hp.
Qed.

Lemma el_malloc_accounting_witness :
  ∃ b w',
    el_malloc 2 200 split_page_world = Ok (b + sizeof_blockhead) w' ∧
    el_ctl w' = el_ctl split_page_world ∧
    nx w' (l_beg (lst w' (used (el_ctl w')))) = b ∧
    l_length (lst w' (used (el_ctl w')))
      = l_length (lst split_page_world (used (el_ctl split_page_world))) + 1 ∧
    l_bytes (lst w' (used (el_ctl w')))
      = l_bytes (lst split_page_world (used (el_ctl split_page_world)))
        + (sz w' b + EL_BLOCK_OVERHEAD) ∧
    l_bytes (lst w' (avail (el_ctl w')))
      = l_bytes (lst split_page_world (avail (el_ctl split_page_world)))
        - (sz w' b + EL_BLOCK_OVERHEAD) ∧
    (∀ p, p ∈ [EL_HEAP_START_ADDRESS] →
          sz w' p = sz split_page_world p ∧ st w' p = EL_USED).
Proof.
  destruct split_page_ok as (_ & Hok & _ & _ & Hszr & _).
  apply (el_malloc_accounting split_page_world _ _ 2 200 Hok).
  - lia.
  - simpl. lia.
  - exists (EL_HEAP_START_ADDRESS + 140). split; [apply list_elem_of_here|].
    rewrite Hszr. lia.
Defined.

(** X23: [el_free] of the block [b], in a state that satisfies the
    invariant, moves its bytes back: the [length] of the used list drops
    by one and its [bytes] by the size of the block plus
    [EL_BLOCK_OVERHEAD], the [bytes] of the available list grow by as
    much, the bounds of the heap stay, the block is [EL_AVAILABLE], and
    the other blocks in use keep their sizes and stay in use. *)
Theorem el_free_accounting w la l1 b l2 f :
  heap_ok w la (l1 ++ b :: l2) → top_pair_only w la →
  ∃ w',
    el_free (S (S (S (S f)))) (b + sizeof_blockhead) w = Ok tt w' ∧
    el_ctl w' = el_ctl w ∧ st w' b = EL_AVAILABLE ∧
    l_length (lst w' (used (el_ctl w')))
      = l_length (lst w (used (el_ctl w))) - 1 ∧
    l_bytes (lst w' (used (el_ctl w')))
      = l_bytes (lst w (used (el_ctl w))) - (sz w b + EL_BLOCK_OVERHEAD) ∧
    l_bytes (lst w' (avail (el_ctl w')))
      = l_bytes (lst w (avail (el_ctl w))) + (sz w b + EL_BLOCK_OVERHEAD) ∧
    (∀ p, p ∈ l1 ++ l2 → sz w' p = sz w p ∧ st w' p = EL_USED).
Proof.
  intros Hok Htp.
  destruct (el_free_spec w la l1 b l2 f Hok Htp) as (w' & la' & E & Hrel).
  destruct Hrel as (Hok' & _ & Hctl & _ & _ & Hst & M & hi & HM & _ & Hsz & _).
  exists w'.
  pose proof (ok_lists _ _ _ Hok) as Hl.
  pose proof (ok_lists _ _ _ Hok') as Hl'.
  pose proof (lo_ctl _ _ _ Hl) as (_ & _ & _ & _ & Hav & Hus).
  pose proof (lo_ctl _ _ _ Hl') as (_ & _ & _ & _ & Hav' & Hus').
  pose proof (lo_nodup _ _ _ Hl') as Hnd'.
  assert (Hszlu : ∀ p, p ∈ l1 ++ l2 → sz w' p = sz w p).
  { intros p Hp. apply Hsz; [set_solver + Hp|].
    intros ->. apply NoDup_app in Hnd' as (_ & Hd & _). by apply (Hd M). }
  assert (Hsum : sum_bytes w' (l1 ++ l2) = sum_bytes w (l1 ++ l2))
    by by apply sum_bytes_frame.
  pose proof (ok_bytes _ _ _ Hok) as Hby.
  pose proof (ok_bytes _ _ _ Hok') as Hby'.
  rewrite Hctl in Hby'.
  rewrite Hav, Hus, Hav', Hus'.
  rewrite (dll_lst _ _ _ (lo_avail _ _ _ Hl)), (dll_lst _ _ _ (lo_used _ _ _ Hl)).
  rewrite (dll_lst _ _ _ (lo_avail _ _ _ Hl')),
    (dll_lst _ _ _ (lo_used _ _ _ Hl')).
  simpl l_length. simpl l_bytes.
  rewrite !sum_bytes_app in *. simpl sum_bytes in *.
  split_and!; try done.
  - rewrite Hst. by rewrite decide_True.
  - rewrite !length_app, length_cons. lia.
  - lia.
  - lia.
  - intros p Hp. split; [by apply Hszlu|]. by apply (ok_used _ _ _ Hok').
Qed.

Lemma el_free_accounting_witness :
  ∃ w',
    el_free 4 (EL_HEAP_START_ADDRESS + sizeof_blockhead) split_page_world
      = Ok tt w' ∧
    el_ctl w' = el_ctl split_page_world ∧
    st w' EL_HEAP_START_ADDRESS = EL_AVAILABLE ∧
    l_length (lst w' (used (el_ctl w')))
      = l_length (lst split_page_world (used (el_ctl split_page_world))) - 1 ∧
    l_bytes (lst w' (used (el_ctl w')))
      = l_bytes (lst split_page_world (used (el_ctl split_page_world)))
        - (sz split_page_world EL_HEAP_START_ADDRESS + EL_BLOCK_OVERHEAD) ∧
    l_bytes (lst w' (avail (el_ctl w')))
      = l_bytes (lst split_page_world (avail (el_ctl split_page_world)))
        + (sz split_page_world EL_HEAP_START_ADDRESS + EL_BLOCK_OVERHEAD) ∧
    (∀ p, p ∈ [] ++ [] →
          sz w' p = sz split_page_world p ∧ st w' p = EL_USED).
Proof.
  destruct split_page_ok as (_ & Hok & Htp & _).
  exact (el_free_accounting split_page_world _ [] EL_HEAP_START_ADDRESS []
           0 Hok Htp).
Defined.

(** ** Releasing the null pointer *)

(** X24: [el_free] has no test for [NULL]: it steps back from the pointer by
    the size of a header and reads the links there, so [el_free (NULL)]
    reads the address [2^64 - 32], which lies in neither the heap nor the
    control page. *)
Theorem el_free_null_faults w fuel :
  ctl_ok w → el_free fuel NULL w = Segfault.
Proof.
  intros (H1 & H2 & H3 & H4 & _).
  unfold el_free, bind, get_ctl, el_remove_block, bind, rd.
  assert (Hm : head_mapped w (PTR_MINUS_BYTES NULL sizeof_blockhead) = false).
  { unfold head_mapped, in_heap.
    replace (PTR_MINUS_BYTES NULL sizeof_blockhead) with (SIZE_MODULUS - 32)
      by (vm_compute; reflexivity).
    apply orb_false_iff. split; [|vm_compute; reflexivity].
    apply andb_false_iff. right. apply Z.leb_gt. el_lia. }
  by rewrite Hm.
Qed.

Lemma el_free_null_faults_witness :
  el_free 4 NULL split_page_world = Segfault.
Proof.
  destruct split_page_ok as (_ & Hok & _).
  exact (el_free_null_faults split_page_world 4 (heap_ok_ctl _ _ _ Hok)).
Defined.

(** ** The block released last is the block handed out next *)

(** [el_free] of a block that has nothing to merge with. *)
Lemma el_free_quiet w la l1 b l2 f :
  heap_ok w la (l1 ++ b :: l2) →
  (b + sz w b + EL_BLOCK_OVERHEAD = heap_end (el_ctl w) ∨
   ((b + sz w b + EL_BLOCK_OVERHEAD) ∉ la ∧
    ∀ p, p ∈ la → p + sz w p + EL_BLOCK_OVERHEAD ≠ b)) →
  ∃ w',
    el_free (S f) (b + sizeof_blockhead) w = Ok tt w' ∧
    heap_ok w' (b :: la) (l1 ++ l2) ∧
    el_ctl w' = el_ctl w ∧ (∀ p, sz w' p = sz w p) ∧
    (∀ p, st w' p = if decide (p = b) then EL_AVAILABLE else st w p).
Proof.
  intros Hok Hq.
  cut (wp (el_free (S f) (b + sizeof_blockhead))
          (λ _ w', heap_ok w' (b :: la) (l1 ++ l2) ∧ el_ctl w' = el_ctl w ∧
                   (∀ p, sz w' p = sz w p) ∧
                   (∀ p, st w' p =
                           if decide (p = b) then EL_AVAILABLE else st w p))
          w).
  { intros H. apply wp_elim in H as ([] & w' & E & H). by exists w'. }
  assert (HbB : b ∈ la ++ l1 ++ b :: l2) by set_solver +.
  destruct (heap_ok_block _ _ _ _ Hok HbB) as (_ & Hb0 & _ & _).
  apply (el_free_wp w la l1 b l2); [done|].
  intros w3 Hok3 Hctl3 Hsz3 Hst3 Hft3.
  eapply merge_quiet; [done|set_solver +| |done].
  unfold quiet. rewrite !Hsz3, Hctl3.
  destruct Hq as [?|[Hq1 Hq2]]; [by left|right]. split.
  - intros Hin. apply elem_of_cons in Hin as [E|Hin]; [el_lia|done].
  - intros p Hp. rewrite Hsz3.
    apply elem_of_cons in Hp as [->|Hp]; [el_lia|by apply Hq2].
Qed.

(** X25: a block released with no free neighbour (or as the topmost block)
    goes to the front of the available list, where the search of
    [el_malloc] starts: the next [el_malloc] of at most its size returns
    the same pointer again. *)
Theorem free_then_malloc_reuses_block w la l1 b l2 f fuel n :
  heap_ok w la (l1 ++ b :: l2) →
  (b + sz w b + EL_BLOCK_OVERHEAD = heap_end (el_ctl w) ∨
   ((b + sz w b + EL_BLOCK_OVERHEAD) ∉ la ∧
    ∀ p, p ∈ la → p + sz w p + EL_BLOCK_OVERHEAD ≠ b)) →
  0 ≤ n → n ≤ sz w b → (S (length la) < fuel)%nat →
  ∃ w1 w2,
    el_free (S f) (b + sizeof_blockhead) w = Ok tt w1 ∧
    el_malloc fuel n w1 = Ok (b + sizeof_blockhead) w2 ∧
    st w2 b = EL_USED.
Proof.
  intros Hok Hq Hn0 Hn Hfuel.
  destruct (el_free_quiet w la l1 b l2 f Hok Hq)
    as (w1 & Ef & Hok1 & Hctl1 & Hsz1 & Hst1).
  exists w1.
  destruct (el_malloc_total w1 (b :: la) (l1 ++ l2) fuel n Hok1 Hn0)
    as [[Hall _]|(k1 & b' & k2 & w2 & la2 & Ela & Hk1 & _ & Em & _ & _ & _
                  & Hst2 & _)]; [simpl; lia| |].
  { specialize (Hall b ltac:(set_solver +)). rewrite Hsz1 in Hall. lia. }
  assert (b' = b) as ->.
  { destruct k1 as [|c k1]; simpl in Ela; injection Ela as E1 E2; [done|].
    subst c. specialize (Hk1 b ltac:(set_solver +)).
    rewrite Hsz1 in Hk1. lia. }
  by exists w2.
Qed.

Lemma free_then_malloc_reuses_block_witness :
  ∃ w1 w2,
    el_free 1 (EL_HEAP_START_ADDRESS + sizeof_blockhead) used_page_world
      = Ok tt w1 ∧
    el_malloc 2 1000 w1 = Ok (EL_HEAP_START_ADDRESS + sizeof_blockhead) w2 ∧
    st w2 EL_HEAP_START_ADDRESS = EL_USED.
Proof.
  destruct used_page_ok as (_ & Hok & _ & Hsz & Hctl).
  destruct page_heap_ok as (_ & _ & _ & _ & Hctl0).
  apply (free_then_malloc_reuses_block used_page_world [] []
           EL_HEAP_START_ADDRESS [] 0 2 1000 Hok).
  - left. rewrite Hsz, Hctl, Hctl0. vm_compute. reflexivity.
  - lia.
  - rewrite Hsz. lia.
  - simpl. lia.
Defined.
